(** * The leaderboard update of [session_2/challenge/scripts/leaderboard.py]

    A shallow embedding of [generate_leaderboard]: the markdown document is
    read, the table between the two markers is extracted with a regular
    expression, one entry is appended, the best entry per user is kept, the
    entries are sorted by accuracy and ranked again, and the table is written
    back between the markers.

    Python strings are lists of characters; a character is a code point
    below 256.  Floats are IEEE 754 binary64 values in the representation of
    the standard library's [SpecFloat].  The file on disk is a state that
    [generate_leaderboard] threads explicitly. *)

From Stdlib Require Import ZArith String Ascii List Bool Lia Permutation Sorted.
From Stdlib Require Import SpecFloat.
Import ListNotations.
Local Open Scope Z_scope.

(** ** Python strings *)

Definition str := list ascii.

Definition s2l (s : string) : str := list_ascii_of_string s.

Definition code (c : ascii) : Z := Z.of_N (N_of_ascii c).
Definition chr (n : Z) : ascii := ascii_of_N (Z.to_N n).

Definition newline : ascii := chr 10.
Definition dquote : ascii := chr 34.
Definition pipe : ascii := chr 124.
Definition space : ascii := chr 32.

Definition len (s : str) : Z := Z.of_nat (length s).

Definition str_eqb (a b : str) : bool :=
  if list_eq_dec ascii_dec a b then true else false.

(** [s.startswith(p)] *)
Fixpoint startswith (p s : str) : bool :=
  match p, s with
  | [], _ => true
  | _ :: _, [] => false
  | a :: p', b :: s' => Ascii.eqb a b && startswith p' s'
  end.

(** [s.find(p)]: the lowest index at which [p] occurs in [s], or [-1]. *)
Fixpoint find_from (p s : str) (i : Z) : Z :=
  if startswith p s then i
  else match s with
       | [] => -1
       | _ :: t => find_from p t (i + 1)
       end.

Definition find (s p : str) : Z := find_from p s 0.

(** Slice bounds as Python normalises them: a negative bound counts from the
    end, and every bound is clamped to [0 .. len s]. *)
Definition clamp (n i : Z) : Z :=
  if i <? 0 then Z.max (i + n) 0 else Z.min i n.

(** [s[lo:hi]] *)
Definition slice (s : str) (lo hi : Z) : str :=
  let l := clamp (len s) lo in
  let h := clamp (len s) hi in
  firstn (Z.to_nat (h - l)) (skipn (Z.to_nat l) s).

(** [s[:hi]] *)
Definition slice_to (s : str) (hi : Z) : str :=
  firstn (Z.to_nat (clamp (len s) hi)) s.

(** [s[lo:]] *)
Definition slice_from (s : str) (lo : Z) : str :=
  skipn (Z.to_nat (clamp (len s) lo)) s.

(** [c.isspace()] on the code points below 256. *)
Definition isspace (c : ascii) : bool :=
  let n := code c in
  ((9 <=? n) && (n <=? 13)) || ((28 <=? n) && (n <=? 32))
  || (n =? 133) || (n =? 160).

Fixpoint lstrip (s : str) : str :=
  match s with
  | c :: t => if isspace c then lstrip t else s
  | [] => []
  end.

Definition rstrip (s : str) : str := rev (lstrip (rev s)).

(** [s.strip()] *)
Definition strip (s : str) : str := rstrip (lstrip s).

(** [sep.join(parts)] *)
Fixpoint join (sep : str) (parts : list str) : str :=
  match parts with
  | [] => []
  | [p] => p
  | p :: rest => p ++ sep ++ join sep rest
  end.

(** [s.splitlines()] restricted to the line feed, the only line boundary the
    rendered table contains. *)
Fixpoint split_on (c : ascii) (s : str) : list str :=
  match s with
  | [] => [[]]
  | a :: t =>
      if Ascii.eqb a c then [] :: split_on c t
      else match split_on c t with
           | l :: ls => (a :: l) :: ls
           | [] => [[a]]
           end
  end.

(** ** The row pattern

    [re.findall(r"\|([^|]+)\|([^|]+)\|([^|]+)\|([^|]+)\|([^|]+)\|", s)].
    A field [[^|]+] is a non-empty run of characters other than the pipe (a
    line feed included); as each field is followed by a pipe, the run always
    extends to the next pipe and the match at a position is unique. *)

(** The longest pipe-free prefix and what follows it. *)
Fixpoint span_field (s : str) : str * str :=
  match s with
  | c :: t =>
      if Ascii.eqb c pipe then ([], s)
      else let (f, r) := span_field t in (c :: f, r)
  | [] => ([], [])
  end.

(** One group [([^|]+)\|]: a non-empty field and the pipe that closes it. *)
Definition field_pipe (s : str) : option (str * str) :=
  match span_field s with
  | ((_ :: _) as f, c :: r) => Some (f, r)
  | _ => None
  end.

(** The five captured groups of a match. *)
Record groups := Groups {
  g1 : str; g2 : str; g3 : str; g4 : str; g5 : str
}.

(** The match anchored at the head of [s]: the groups and what is left of
    [s] after the match. *)
Definition match_row (s : str) : option (groups * str) :=
  match s with
  | c :: s0 =>
      if Ascii.eqb c pipe then
        match field_pipe s0 with
        | Some (f1, s1) =>
        match field_pipe s1 with
        | Some (f2, s2) =>
        match field_pipe s2 with
        | Some (f3, s3) =>
        match field_pipe s3 with
        | Some (f4, s4) =>
        match field_pipe s4 with
        | Some (f5, s5) => Some (Groups f1 f2 f3 f4 f5, s5)
        | None => None end
        | None => None end
        | None => None end
        | None => None end
        | None => None end
      else None
  | [] => None
  end.

(** [findall]: matches are searched left to right and do not overlap.  The
    scan walks the string once; [skip] counts the characters still covered
    by the last match. *)
Fixpoint findall_from (skip : nat) (s : str) : list groups :=
  match s with
  | [] => []
  | _ :: t =>
      match skip with
      | S k => findall_from k t
      | O =>
          match match_row s with
          | Some (g, rest) =>
              g :: findall_from (length t - length rest) t
          | None => findall_from O t
          end
      end
  end.

Definition findall (s : str) : list groups := findall_from O s.

(** ** Python numbers

    [int(s)] and [float(s)] are what numpy applies to every cell of an
    object column in [astype(int)] and [astype(float)]; tabulate uses the
    same conversions to infer column types.  [format(x, "g")] is the float
    format of tabulate. *)

Definition float := spec_float.

Definition prec : Z := 53.
Definition emax : Z := 1024.

Definition isnan (x : float) : bool :=
  match x with S754_nan => true | _ => false end.

(** [x < y], [x <= y] and [x == y] on floats; all false on NaN. *)
Definition flt (x y : float) : bool := SFltb x y.
Definition fle (x y : float) : bool := SFleb x y.
Definition feq (x y : float) : bool := SFeqb x y.

Definition is_digit (c : ascii) : bool :=
  (48 <=? code c) && (code c <=? 57).

Definition digit_val (c : ascii) : Z := code c - 48.

Definition underscore : ascii := chr 95.

(** A run of digits in which single underscores may separate digits. *)
Fixpoint span_digits (s : str) : str * str :=
  match s with
  | c :: t =>
      if is_digit c then
        match t with
        | u :: t' =>
            if Ascii.eqb u underscore then
              match t' with
              | d :: _ =>
                  if is_digit d
                  then let (ds, r) := span_digits t' in (c :: ds, r)
                  else ([c], t)
              | [] => ([c], t)
              end
            else let (ds, r) := span_digits t in (c :: ds, r)
        | [] => ([c], [])
        end
      else ([], s)
  | [] => ([], [])
  end.

Definition digits_value (ds : str) : Z :=
  fold_left (fun acc c => 10 * acc + digit_val c) ds 0.

(** An optional sign: [true] for minus. *)
Definition span_sign (s : str) : bool * str :=
  match s with
  | c :: t =>
      if Ascii.eqb c (chr 45) then (true, t)
      else if Ascii.eqb c (chr 43) then (false, t)
      else (false, s)
  | [] => (false, [])
  end.

(** [int(s)] in base ten; [None] stands for [ValueError]. *)
Definition py_int (s : str) : option Z :=
  let (neg, s1) := span_sign (strip s) in
  match span_digits s1 with
  | ((_ :: _) as ds, []) =>
      Some (if neg then - digits_value ds else digits_value ds)
  | _ => None
  end.

Definition lower_char (c : ascii) : ascii :=
  if (65 <=? code c) && (code c <=? 90) then chr (code c + 32) else c.

(** [s.lower()] on the ASCII letters. *)
Definition lower (s : str) : str := map lower_char s.

(** The binary64 value nearest to [(-1)^neg * m * 10^e], ties to even. *)
Definition float_of_decimal (neg : bool) (m e : Z) : float :=
  match m with
  | Zpos p =>
      let num := if 0 <=? e then Zpos p * 10 ^ e else Zpos p in
      let den := if 0 <=? e then 1 else 10 ^ (- e) in
      SFdiv prec emax (S754_finite neg (Z.to_pos num) 0)
                      (S754_finite false (Z.to_pos den) 0)
  | _ => S754_zero neg
  end.

(** The exponent part [e] or [E], an optional sign and digits; absent when
    the input does not start with the letter. *)
Definition span_exponent (s : str) : option (Z * str) :=
  match s with
  | c :: t =>
      if Ascii.eqb (lower_char c) (chr 101) then
        let (neg, t1) := span_sign t in
        match span_digits t1 with
        | ((_ :: _) as ds, r) =>
            Some (if neg then - digits_value ds else digits_value ds, r)
        | _ => None
        end
      else Some (0, s)
  | [] => Some (0, [])
  end.

(** [float(s)]; [None] stands for [ValueError]. *)
Definition py_float (s : str) : option float :=
  let (neg, s1) := span_sign (strip s) in
  let l := lower s1 in
  if str_eqb l (s2l "inf") || str_eqb l (s2l "infinity")
  then Some (S754_infinity neg)
  else if str_eqb l (s2l "nan") then Some S754_nan
  else
    let (ip, s2) := span_digits s1 in
    let (fp, s3) :=
      match s2 with
      | c :: t => if Ascii.eqb c (chr 46) then span_digits t else ([], s2)
      | [] => ([], [])
      end in
    match ip ++ fp with
    | [] => None
    | _ :: _ =>
        match span_exponent s3 with
        | Some (e, []) =>
            Some (float_of_decimal neg (digits_value (ip ++ fp))
                                   (e - len fp))
        | _ => None
        end
    end.

Definition digit_char (d : Z) : ascii := chr (48 + d).

Fixpoint digits_of (fuel : nat) (n : Z) (acc : str) : str :=
  match fuel with
  | O => acc
  | S f =>
      if n <? 10 then digit_char n :: acc
      else digits_of f (n / 10) (digit_char (n mod 10) :: acc)
  end.

(** The decimal digits of a natural number, most significant first. *)
Definition decimal (n : Z) : str :=
  digits_of (S (Z.to_nat (Z.log2 n))) n [].

(** [str(n)] for an integer. *)
Definition str_of_int (n : Z) : str :=
  if n <? 0 then chr 45 :: decimal (- n) else decimal n.

(** [10^x <= n/d], for positive [n] and [d]. *)
Definition pow10_le (n d x : Z) : bool :=
  if 0 <=? x then 10 ^ x * d <=? n else d <=? n * 10 ^ (- x).

Fixpoint search_exp (fuel : nat) (n d x : Z) : Z :=
  match fuel with
  | O => x
  | S f => if pow10_le n d x then x else search_exp f n d (x - 1)
  end.

(** The decimal exponent of [n/d]: the largest [x] with [10^x <= n/d],
    searched downwards from an estimate out of the binary logarithms. *)
Definition exponent10 (n d : Z) : Z :=
  search_exp 5 n d ((Z.log2 n - Z.log2 d) * 30103 / 100000 + 2).

Definition round_half_even (n d : Z) : Z :=
  let q := n / d in
  match 2 * (n mod d) ?= d with
  | Lt => q
  | Gt => q + 1
  | Eq => if Z.even q then q else q + 1
  end.

(** [n/d] rounded to [p] significant decimal digits: the digits as an
    integer of [p] digits and the decimal exponent of the rounded value. *)
Definition sig_digits (p n d : Z) : Z * Z :=
  let x := exponent10 n d in
  let s := p - 1 - x in
  let m := if 0 <=? s then round_half_even (n * 10 ^ s) d
           else round_half_even n (d * 10 ^ (- s)) in
  if m =? 10 ^ p then (10 ^ (p - 1), x + 1) else (m, x).

Fixpoint lstrip_zeros (s : str) : str :=
  match s with
  | c :: t => if Ascii.eqb c (chr 48) then lstrip_zeros t else s
  | [] => []
  end.

Definition rstrip_zeros (s : str) : str := rev (lstrip_zeros (rev s)).

(** A fractional part with its point, nothing when it is empty. *)
Definition point_frac (frac : str) : str :=
  match rstrip_zeros frac with
  | [] => []
  | f => chr 46 :: f
  end.

Definition exp_digits (x : Z) : str :=
  let ds := decimal (Z.abs x) in
  (if x <? 0 then chr 45 else chr 43)
    :: (if Z.abs x <? 10 then chr 48 :: ds else ds).

(** The body of [format(n/d, "g")] for positive [n/d]: precision six,
    exponent notation when the exponent is below [-4] or at least [6],
    trailing zeros removed. *)
Definition format_g_pos (n d : Z) : str :=
  let (m, x) := sig_digits 6 n d in
  let ds := decimal m in
  if (x <? -4) || (6 <=? x) then
    firstn 1 ds ++ point_frac (skipn 1 ds) ++ chr 101 :: exp_digits x
  else if 0 <=? x then
    firstn (Z.to_nat (x + 1)) ds ++ point_frac (skipn (Z.to_nat (x + 1)) ds)
  else
    chr 48 :: point_frac (repeat (chr 48) (Z.to_nat (- x - 1)) ++ ds).

(** [format(x, "g")] *)
Definition format_g (x : float) : str :=
  match x with
  | S754_nan => s2l "nan"
  | S754_infinity neg => if neg then s2l "-inf" else s2l "inf"
  | S754_zero neg => if neg then s2l "-0" else s2l "0"
  | S754_finite neg m e =>
      (if neg then [chr 45] else [])
        ++ (if 0 <=? e then format_g_pos (Zpos m * 2 ^ e) 1
            else format_g_pos (Zpos m) (2 ^ (- e)))
  end.

(** ** Exceptions and the file

    What the update can raise: [ValueError] from a cell that [int] or [float]
    rejects (the message quotes the cell), [OverflowError] from a rank outside
    the 64-bit integers, and [KeyError] from [df.loc] when a user has no
    maximal accuracy because every accuracy of the group is NaN. *)

Inductive exn :=
  | ValueError (literal : str)
  | OverflowError
  | KeyError.

Inductive result (A : Type) :=
  | Ok (a : A)
  | Raise (e : exn).
Arguments Ok {A} a.
Arguments Raise {A} e.

Definition bind {A B} (r : result A) (k : A -> result B) : result B :=
  match r with
  | Ok a => k a
  | Raise e => Raise e
  end.

Notation "x <- c ;; k" := (bind c (fun x => k))
  (at level 61, c at next level, right associativity).

(** A computation over the content of [leaderboard.md]. *)
Definition io (A : Type) := str -> result A * str.

Definition io_bind {A B} (m : io A) (k : A -> io B) : io B :=
  fun file =>
    match m file with
    | (Ok a, file') => k a file'
    | (Raise e, file') => (Raise e, file')
    end.

Notation "x <~ c ;; k" := (io_bind c (fun x => k))
  (at level 61, c at next level, right associativity).

Definition cr : ascii := chr 13.

(** The text mode of [open] on reading, with its default [newline=None]:
    every line ending of the file, [CR LF] or a lone [CR], is a line feed in
    the text read. *)
Fixpoint universal_newlines (s : str) : str :=
  match s with
  | [] => []
  | c :: t =>
      if Ascii.eqb c cr then
        newline :: match t with
                   | d :: t' =>
                       if Ascii.eqb d newline then universal_newlines t'
                       else universal_newlines t
                   | [] => []
                   end
      else c :: universal_newlines t
  end.

(** [open(..., "r")] and [file.read()] *)
Definition read_file : io str :=
  fun file => (Ok (universal_newlines file), file).

(** [open(..., "w")] and [file.write(s)], where the line separator of the
    system is the line feed, so that the text is stored as it is. *)
Definition write_file (s : str) : io unit := fun _ => (Ok tt, s).

Definition lift {A} (r : result A) : io A := fun file => (r, file).

(** ** The data frame *)

(** One row of the frame, with the columns "Rank", "Profile Image",
    "GitHub Username", "Solution" and "Accuracy %". *)
Record row := Row {
  Rank : Z;
  Profile_Image : str;
  GitHub_Username : str;
  Solution : str;
  Accuracy : float
}.

Definition frame := list row.

Definition int64_min : Z := - 2 ^ 63.
Definition int64_max : Z := 2 ^ 63 - 1.

(** [column.astype(int)] on a column of strings *)
Fixpoint astype_int (col : list str) : result (list Z) :=
  match col with
  | [] => Ok []
  | s :: rest =>
      match py_int s with
      | None => Raise (ValueError s)
      | Some n =>
          if (int64_min <=? n) && (n <=? int64_max)
          then ns <- astype_int rest ;; Ok (n :: ns)
          else Raise OverflowError
      end
  end.

(** [column.astype(float)] on a column of strings *)
Fixpoint astype_float (col : list str) : result (list float) :=
  match col with
  | [] => Ok []
  | s :: rest =>
      match py_float s with
      | None => Raise (ValueError s)
      | Some x => xs <- astype_float rest ;; Ok (x :: xs)
      end
  end.

(** [x.str.strip()] on every column *)
Definition strip_cells (g : groups) : groups :=
  Groups (strip (g1 g)) (strip (g2 g)) (strip (g3 g)) (strip (g4 g))
         (strip (g5 g)).

Fixpoint build_frame (cells : list groups) (ranks : list Z)
    (accs : list float) : frame :=
  match cells, ranks, accs with
  | g :: cells', r :: ranks', a :: accs' =>
      Row r (g2 g) (g3 g) (g4 g) a :: build_frame cells' ranks' accs'
  | _, _, _ => []
  end.

(** Lines 41 to 62: the matches after the first two, stripped, with the
    rank and accuracy columns converted. *)
Definition read_table (table_content : str) : result frame :=
  let rows := skipn 2 (findall table_content) in
  let df := map strip_cells rows in
  ranks <- astype_int (map g1 df) ;;
  accs <- astype_float (map g5 df) ;;
  Ok (build_frame df ranks accs).

Definition repo_url : str :=
  s2l "https://github.com/infocusp/llm_seminar_series/blob/main/session_2/challenge/submissions".

Definition new_entry (df : frame) (prompt_name : str) (accuracy : float)
    (github_user : str) : row :=
  Row (Z.of_nat (length df) + 1)
      (s2l "<img src=" ++ [dquote] ++ s2l "https://github.com/"
         ++ github_user ++ s2l ".png" ++ [dquote] ++ s2l " width="
         ++ [dquote] ++ s2l "50px" ++ [dquote] ++ s2l " height="
         ++ [dquote] ++ s2l "50px" ++ [dquote] ++ s2l " class="
         ++ [dquote] ++ s2l "profile-image" ++ [dquote] ++ s2l ">")
      (s2l "[" ++ github_user ++ s2l "](https://github.com/"
         ++ github_user ++ s2l ")")
      (s2l "[" ++ prompt_name ++ s2l "](" ++ repo_url ++ s2l "/"
         ++ prompt_name ++ s2l ".py)")
      accuracy.

(** *** [groupby("GitHub Username")["Accuracy %"].idxmax()] *)

(** Strings in Python's order: lexicographic by code point. *)
Fixpoint str_leb (a b : str) : bool :=
  match a, b with
  | [], _ => true
  | _ :: _, [] => false
  | x :: a', y :: b' =>
      if code x <? code y then true
      else if code y <? code x then false
      else str_leb a' b'
  end.

Fixpoint insert_key (k : str) (l : list str) : list str :=
  match l with
  | [] => [k]
  | h :: t => if str_leb k h then k :: l else h :: insert_key k t
  end.

Definition sort_keys (l : list str) : list str :=
  fold_right insert_key [] l.

(** The group keys: the distinct user cells, sorted. *)
Definition group_keys (df : frame) : list str :=
  sort_keys (nodup (list_eq_dec ascii_dec) (map GitHub_Username df)).

(** The label of the first row holding the greatest accuracy of the group
    [key], NaN skipped; [best] is the candidate so far and [i] the label of
    the head of [rows]. *)
Fixpoint idxmax_from (key : str) (rows : frame) (i : nat)
    (best : option (nat * float)) : option (nat * float) :=
  match rows with
  | [] => best
  | r :: rest =>
      let best' :=
        if str_eqb (GitHub_Username r) key && negb (isnan (Accuracy r)) then
          match best with
          | None => Some (i, Accuracy r)
          | Some (_, m) => if flt m (Accuracy r) then Some (i, Accuracy r)
                           else best
          end
        else best in
      idxmax_from key rest (S i) best'
  end.

Definition idxmax (df : frame) (key : str) : option nat :=
  option_map fst (idxmax_from key df O None).

Definition groupby_idxmax (df : frame) : list (option nat) :=
  map (idxmax df) (group_keys df).

(** [df.loc[labels]]: the rows at the labels, in the order of the labels; a
    missing label raises. *)
Fixpoint loc (df : frame) (labels : list (option nat)) : result frame :=
  match labels with
  | [] => Ok []
  | None :: _ => Raise KeyError
  | Some i :: rest =>
      match nth_error df i with
      | Some r => rs <- loc df rest ;; Ok (r :: rs)
      | None => Raise KeyError
      end
  end.

(** ** [to_markdown(index=False)]

    pandas hands the frame to tabulate with the column names as headers and
    the table format "pipe".  The model follows tabulate on single-line plain
    text: the width of a string is its length, so cells with line breaks,
    terminal escape sequences or wide characters are outside it. *)

(** Column types in tabulate's order of generality. *)
Inductive coltype := TBool | TInt | TFloat | TStr.

Definition generality (t : coltype) : Z :=
  match t with TBool => 1 | TInt => 2 | TFloat => 3 | TStr => 5 end.

Definition more_generic (a b : coltype) : coltype :=
  if generality a <? generality b then b else a.

Definition column_type (types : list coltype) : coltype :=
  fold_left more_generic types TBool.

Definition isint (s : str) : bool :=
  match py_int s with Some _ => true | None => false end.

Definition isnumber (s : str) : bool :=
  match py_float s with
  | None => false
  | Some (S754_infinity _) | Some S754_nan =>
      let l := lower s in
      str_eqb l (s2l "inf") || str_eqb l (s2l "-inf") || str_eqb l (s2l "nan")
  | Some _ => true
  end.

(** The type tabulate infers for a string cell. *)
Definition type_of_text (s : str) : coltype :=
  if str_eqb s (s2l "True") || str_eqb s (s2l "False") then TBool
  else if isint s then TInt
  else if isnumber s then TFloat
  else TStr.

(** A string cell formatted for a column of type [t]: a float column formats
    the number the string denotes. *)
Definition format_text (t : coltype) (s : str) : str :=
  match t, py_float s with
  | TFloat, Some x => format_g x
  | _, _ => s
  end.

(** [s.rfind(c)] for a character *)
Definition rfind_char (s : str) (c : ascii) : Z :=
  let r := find (rev s) [c] in
  if r <? 0 then -1 else len s - 1 - r.

(** The number of characters after the decimal point or the exponent
    letter; [-1] for integers and for what is not a number. *)
Definition afterpoint (s : str) : Z :=
  if isnumber s then
    if isint s then -1
    else
      let pos := rfind_char s (chr 46) in
      let pos := if pos <? 0 then rfind_char (lower s) (chr 101) else pos in
      if 0 <=? pos then len s - pos - 1 else -1
  else -1.

Definition spaces (n : Z) : str := repeat space (Z.to_nat n).

Definition padleft (w : Z) (s : str) : str := spaces (w - len s) ++ s.
Definition padright (w : Z) (s : str) : str := s ++ spaces (w - len s).

Inductive alignment := ALeft | ADecimal.

(** What tabulate derives from a whole column: its alignment, the greatest
    [afterpoint] of its cells and its width. *)
Record column := Column {
  col_align : alignment;
  col_decimals : Z;
  col_width : Z
}.

(** Numbers are aligned on the decimal point, everything else to the left;
    a column is at least two characters wider than its header. *)
Definition layout (header : str) (t : coltype) (cells : list str) : column :=
  let a := match t with TInt | TFloat => ADecimal | _ => ALeft end in
  let d := fold_right Z.max (-1) (map afterpoint cells) in
  let cells' :=
    match a with
    | ADecimal => map (fun s => s ++ spaces (d - afterpoint s)) cells
    | ALeft => map strip cells
    end in
  Column a d (fold_right Z.max (len header + 2) (map len cells')).

Definition align_cell (c : column) (s : str) : str :=
  match col_align c with
  | ADecimal =>
      padleft (col_width c) (s ++ spaces (col_decimals c - afterpoint s))
  | ALeft => padright (col_width c) (strip s)
  end.

Definition align_header (c : column) (h : str) : str :=
  match col_align c with
  | ADecimal => padleft (col_width c) h
  | ALeft => padright (col_width c) h
  end.

(** The padding of the "pipe" format: one space on either side. *)
Definition pad_cell (c : str) : str := [space] ++ c ++ [space].

(** A row of the "pipe" format: the padded cells joined with pipes. *)
Definition build_row (cells : list str) : str :=
  rstrip ([pipe] ++ join [pipe] (map pad_cell cells) ++ [pipe]).

Definition dashes (n : Z) : str := repeat (chr 45) (Z.to_nat n).

(** A segment of the line below the header; the colon marks the alignment. *)
Definition segment (c : column) : str :=
  let w := col_width c + 2 in
  match col_align c with
  | ADecimal => dashes (w - 1) ++ [chr 58]
  | ALeft => chr 58 :: dashes (w - 1)
  end.

Definition build_line (cols : list column) : str :=
  [pipe] ++ join [pipe] (map segment cols) ++ [pipe].

Definition headers : list str :=
  [s2l "Rank"; s2l "Profile Image"; s2l "GitHub Username"; s2l "Solution";
   s2l "Accuracy %"].

Definition text_column (header : str) (cells : list str) : coltype * column :=
  let t := column_type (map type_of_text cells) in
  (t, layout header t (map (format_text t) cells)).

(** The layout of the five columns of a frame. *)
Record table_layout := Layout {
  l_rank : column;
  l_image : coltype * column;
  l_user : coltype * column;
  l_solution : coltype * column;
  l_accuracy : column
}.

Definition layout_of (df : frame) : table_layout :=
  Layout
    (layout (s2l "Rank") (column_type (map (fun _ => TInt) df))
            (map (fun r => str_of_int (Rank r)) df))
    (text_column (s2l "Profile Image") (map Profile_Image df))
    (text_column (s2l "GitHub Username") (map GitHub_Username df))
    (text_column (s2l "Solution") (map Solution df))
    (layout (s2l "Accuracy %") (column_type (map (fun _ => TFloat) df))
            (map (fun r => format_g (Accuracy r)) df)).

Definition columns_of (l : table_layout) : list column :=
  [l_rank l; snd (l_image l); snd (l_user l); snd (l_solution l);
   l_accuracy l].

Definition text_cell (tc : coltype * column) (s : str) : str :=
  align_cell (snd tc) (format_text (fst tc) s).

(** The aligned cells of one row. *)
Definition row_cells (l : table_layout) (r : row) : list str :=
  [align_cell (l_rank l) (str_of_int (Rank r));
   text_cell (l_image l) (Profile_Image r);
   text_cell (l_user l) (GitHub_Username r);
   text_cell (l_solution l) (Solution r);
   align_cell (l_accuracy l) (format_g (Accuracy r))].

Definition header_line (l : table_layout) : str :=
  build_row (map (fun ch => align_header (fst ch) (snd ch))
                 (combine (columns_of l) headers)).

Definition data_line (l : table_layout) (r : row) : str :=
  build_row (row_cells l r).

Definition to_markdown (df : frame) : str :=
  let l := layout_of df in
  join [newline]
       (header_line l :: build_line (columns_of l) :: map (data_line l) df).

(** ** Sorting, ranking and the update *)

Definition start_marker : str := s2l "<!-- leader-board-begins -->" ++ [newline].
Definition end_marker : str := newline :: s2l "<!-- leader-board-ends -->".

(** [df.take(indexer)]: the rows at the positions, in their order. *)
Definition take (df : frame) (indexer : list nat) : frame :=
  flat_map (fun i => match nth_error df i with
                     | Some r => [r]
                     | None => []
                     end) indexer.

(** [reset_index(drop=True)] followed by [df["Rank"] = df.index + 1]. *)
Fixpoint rank_from (i : Z) (df : frame) : frame :=
  match df with
  | [] => []
  | r :: rest =>
      Row (i + 1) (Profile_Image r) (GitHub_Username r) (Solution r)
          (Accuracy r) :: rank_from (i + 1) rest
  end.

(** [content[start_index:end_index]] of lines 36 to 38. *)
Definition table_region (content : str) : str :=
  slice content (find content start_marker) (find content end_marker).

Section Leaderboard.

(** [values.argsort(kind="quicksort")] of numpy on an array free of NaN.
    The algorithm behind it depends on the build of numpy, and the order
    it gives to equal values is not part of its contract; it is a
    parameter of the development. *)
Variable argsort : list float -> list nat.

(** [nargsort(items, ascending=False, na_position="last")] of pandas: the
    values that are not NaN are reversed, sorted in ascending order, and
    the result is reversed; the positions of the NaN follow. *)
Definition nargsort (items : list float) : list nat :=
  let idx := seq 0 (length items) in
  let mask := fun i => isnan (nth i items S754_nan) in
  let non_nan_idx := rev (filter (fun i => negb (mask i)) idx) in
  let nan_idx := filter mask idx in
  let non_nans := map (fun i => nth i items S754_nan) non_nan_idx in
  let indexer := map (fun j => nth j non_nan_idx O) (argsort non_nans) in
  rev indexer ++ nan_idx.

(** [df.sort_values(by="Accuracy %", ascending=False)] *)
Definition sort_values (df : frame) : frame :=
  take df (nargsort (map Accuracy df)).

(** [generate_leaderboard], lines 29 to 101.  An exception leaves the file
    as it was: the file is written in the last step only. *)
Definition generate_leaderboard (prompt_name : str) (accuracy : float)
    (github_user : str) : io unit :=
  content <~ read_file ;;
  let start_index := find content start_marker in
  let end_index := find content end_marker in
  let table_content := slice content start_index end_index in
  df <~ lift (read_table table_content) ;;
  let df := df ++ [new_entry df prompt_name accuracy github_user] in
  let highest_indices := groupby_idxmax df in
  df_highest <~ lift (loc df highest_indices) ;;
  let df_sorted := rank_from 0 (sort_values df_highest) in
  let markdown_table := to_markdown df_sorted in
  let new_content :=
    slice_to content (start_index + len start_marker)
      ++ markdown_table ++ slice_from content end_index in
  write_file new_content.

(** Lines 78 to 87 on their own: the best row of every user, sorted and
    ranked. *)
Definition merge (df : frame) : result frame :=
  df_highest <- loc df (groupby_idxmax df) ;;
  Ok (rank_from 0 (sort_values df_highest)).

(** The frame [df_sorted] that [generate_leaderboard] renders, as a
    function of the text read from the file. *)
Definition leaderboard_of (content prompt_name : str) (accuracy : float)
    (github_user : str) : result frame :=
  df <- read_table (table_region content) ;;
  merge (df ++ [new_entry df prompt_name accuracy github_user]).

End Leaderboard.

(** ** The entry points *)


Section Entry.

Variable argsort : list float -> list nat.

(** [evaluate_lib.evaluate] on the sample test set that
    [dataset.load_sample_test_set] loads; [None] when loading or evaluating
    raises.  Both belong to modules outside this file, which leave
    [leaderboard.md] alone. *)
Variable evaluate : str -> option float.



End Entry.

(** ** Instances of [argsort] *)

(** Insertion sort on the positions, in list form: the algorithm numpy's
    quicksort applies to arrays of at most seventeen elements. *)

Fixpoint insert_pos (v : list float) (i : nat) (l : list nat) : list nat :=
  match l with
  | [] => [i]
  | j :: t =>
      if flt (nth i v S754_nan) (nth j v S754_nan)
      then i :: l
      else j :: insert_pos v i t
  end.

Definition insertion_argsort (v : list float) : list nat :=
  fold_left (fun l i => insert_pos v i l) (seq 0 (length v)) [].

(** Insertion sort that places a position before the positions of equal
    value: equal values come out in the reverse of their order in the
    array. *)

Fixpoint insert_first (v : list float) (i : nat) (l : list nat) : list nat :=
  match l with
  | [] => [i]
  | j :: t =>
      if fle (nth i v S754_nan) (nth j v S754_nan)
      then i :: l
      else j :: insert_first v i t
  end.

Definition reversing_argsort (v : list float) : list nat :=
  fold_left (fun l i => insert_first v i l) (seq 0 (length v)) [].

(** *** numpy's quicksort

    The generic [aquicksort] of numpy (npysort/quicksort.cpp) on an array of
    positions: ranges of more than seventeen positions are partitioned around
    the median of three, the others are sorted by insertion, and a range
    reached too deep is handed to heap sort.  Builds of numpy that dispatch
    to vectorised sorts use other algorithms. *)

(** [Tag::less] on doubles: NaN comes after every number. *)
Definition less (x y : float) : bool :=
  flt x y || (isnan y && negb (isnan x)).

(** [v[a[i]]]: the value at the position held in [a[i]]. *)
Definition val (v : list float) (a : list nat) (i : nat) : float :=
  nth (nth i a O) v S754_nan.

(** [a[i] = x] *)
Fixpoint put (i : nat) (x : nat) (a : list nat) : list nat :=
  match a, i with
  | [], _ => []
  | _ :: t, O => x :: t
  | h :: t, S k => h :: put k x t
  end.

(** [INTP_SWAP(a[i], a[j])] *)
Definition swap (a : list nat) (i j : nat) : list nat :=
  put j (nth i a O) (put i (nth j a O) a).

(** [do ++pi; while (less(v[*pi], vp))], entered after the first
    increment. *)
Fixpoint scan_up (fuel : nat) (v : list float) (a : list nat) (vp : float)
    (pi : nat) : nat :=
  match fuel with
  | O => pi
  | S f => if less (val v a pi) vp then scan_up f v a vp (S pi) else pi
  end.

(** [do --pj; while (less(vp, v[*pj]))], entered after the first
    decrement. *)
Fixpoint scan_down (fuel : nat) (v : list float) (a : list nat) (vp : float)
    (pj : nat) : nat :=
  match fuel with
  | O => pj
  | S f => if less vp (val v a pj) then scan_down f v a vp (pj - 1) else pj
  end.

(** The loop of the partition: the two scans, then a swap unless they have
    met. *)
Fixpoint partition_loop (fuel : nat) (v : list float) (a : list nat)
    (vp : float) (pi pj : nat) : list nat * nat :=
  match fuel with
  | O => (a, pi)
  | S f =>
      let pi' := scan_up (length a) v a vp (S pi) in
      let pj' := scan_down (length a) v a vp (pj - 1) in
      if (pj' <=? pi')%nat then (a, pi')
      else partition_loop f v (swap a pi' pj') vp pi' pj'
  end.

(** The partition of the range [pl .. pr]: the median of the first, middle
    and last element is the pivot, parked at [pr - 1] during the loop; the
    result is the array and the final place of the pivot. *)
Definition partition (v : list float) (a : list nat) (pl pr : nat)
    : list nat * nat :=
  let pm := (pl + (pr - pl) / 2)%nat in
  let a := if less (val v a pm) (val v a pl) then swap a pm pl else a in
  let a := if less (val v a pr) (val v a pm) then swap a pr pm else a in
  let a := if less (val v a pm) (val v a pl) then swap a pm pl else a in
  let vp := val v a pm in
  let a := swap a pm (pr - 1) in
  let (a, pi) := partition_loop (length a) v a vp pl (pr - 1) in
  (swap a pi (pr - 1), pi).

(** The inner loop of the insertion sort: the elements greater than [vp]
    move up by one and [vi] takes the free place. *)
Fixpoint shift_down (fuel : nat) (v : list float) (a : list nat) (pl vi : nat)
    (vp : float) (pj : nat) : list nat :=
  match fuel with
  | O => put pj vi a
  | S f =>
      if (pl <? pj)%nat && less vp (val v a (pj - 1))
      then shift_down f v (put pj (nth (pj - 1) a O) a) pl vi vp (pj - 1)
      else put pj vi a
  end.

(** The insertion sort of the range [pl .. pr]. *)
Definition insertion (v : list float) (a : list nat) (pl pr : nat)
    : list nat :=
  fold_left (fun a pi =>
               let vi := nth pi a O in
               shift_down (length a) v a pl vi (nth vi v S754_nan) pi)
            (seq (S pl) (pr - pl)) a.

(** The sifting loop of heap sort on the [n] positions from [pl] on; the
    element [a[k]] of the C code, which counts from one, is the position
    [pl + k - 1]. *)
Fixpoint sift (fuel : nat) (v : list float) (a : list nat)
    (pl n tmp i j : nat) : list nat :=
  match fuel with
  | O => put (pl + i - 1) tmp a
  | S f =>
      if (j <=? n)%nat then
        let j :=
          if (j <? n)%nat && less (val v a (pl + j - 1)) (val v a (pl + j))
          then S j else j in
        if less (nth tmp v S754_nan) (val v a (pl + j - 1))
        then sift f v (put (pl + i - 1) (nth (pl + j - 1) a O) a)
                  pl n tmp j (j + j)
        else put (pl + i - 1) tmp a
      else put (pl + i - 1) tmp a
  end.

(** [aheapsort]: the heap is built, then emptied from its top. *)
Definition aheapsort (v : list float) (a : list nat) (pl n : nat)
    : list nat :=
  let a :=
    fold_left (fun a l =>
                 sift (length a) v a pl n (nth (pl + l - 1) a O) l (l + l))
              (rev (seq 1 (n / 2))) a in
  fold_left (fun a m =>
               let tmp := nth (pl + m - 1) a O in
               let a := put (pl + m - 1) (nth pl a O) a in
               sift (length a) v a pl (m - 1) tmp 1 2)
            (rev (seq 2 (n - 1))) a.

(** The sort of the range [pl .. pr].  The C code keeps the larger part of a
    partition on a stack and goes on with the smaller one; the parts do not
    overlap, so that they are sorted here one after the other.  The depth is
    checked on a range taken from the stack ([check]), not on the part the
    loop goes on with. *)
Fixpoint aquicksort_range (fuel : nat) (check : bool) (v : list float)
    (a : list nat) (pl pr : nat) (cdepth : Z) : list nat :=
  match fuel with
  | O => a
  | S f =>
      if check && (cdepth <? 0)%Z then aheapsort v a pl (pr - pl + 1)
      else if (16 <? pr - pl)%nat then
        let (a, pi) := partition v a pl pr in
        let cdepth := (cdepth - 1)%Z in
        if (pi - pl <? pr - pi)%nat then
          aquicksort_range f true v
            (aquicksort_range f false v a pl (pi - 1) cdepth) (S pi) pr cdepth
        else
          aquicksort_range f true v
            (aquicksort_range f false v a (S pi) pr cdepth) pl (pi - 1) cdepth
      else insertion v a pl pr
  end.

(** [argsort(kind="quicksort")]: the positions [0 .. n-1] sorted by their
    values, with a depth limit of twice the binary logarithm of [n]. *)
Definition numpy_quicksort (v : list float) : list nat :=
  let n := length v in
  aquicksort_range (S n) true v (seq 0 n) 0 (n - 1)
                   (2 * Z.log2 (Z.of_nat n)).

(** * Vocabulary of the properties *)

(** What is assumed of [argsort]: on an array free of NaN it returns the
    positions of the array, each once, in an order in which the values
    ascend. *)
Definition sorts (argsort : list float -> list nat) : Prop :=
  forall v, Forall (fun x => isnan x = false) v ->
    Permutation (argsort v) (seq 0 (length v))
    /\ Sorted (fun i j => fle (nth i v S754_nan) (nth j v S754_nan) = true)
              (argsort v).

Definition row0 : row := Row 0 [] [] [] S754_nan.

(** What [idxmax_from] knows after the rows [pre]: no candidate when every
    accuracy of the user is NaN, otherwise the label and value of a row that
    no row of the user exceeds and that every earlier one is strictly
    below. *)
Definition best_in (key : str) (pre : frame) (b : option (nat * float)) : Prop :=
  match b with
  | None =>
      forall r, In r pre -> GitHub_Username r = key ->
                isnan (Accuracy r) = true
  | Some (k, m) =>
      (exists r, nth_error pre k = Some r /\ GitHub_Username r = key
                 /\ Accuracy r = m)
      /\ isnan m = false
      /\ forall j r', nth_error pre j = Some r' ->
           GitHub_Username r' = key -> isnan (Accuracy r') = false ->
           fle (Accuracy r') m = true
           /\ ((j < k)%nat -> flt (Accuracy r') m = true)
  end.

(** The row [r] at label [i] is the best row of its user in [df]: no row of
    the user has a greater accuracy, and every earlier row of the user has a
    strictly smaller one. *)
Definition best_row (df : frame) (i : nat) (r : row) : Prop :=
  nth_error df i = Some r
  /\ isnan (Accuracy r) = false
  /\ forall j r', nth_error df j = Some r' ->
       GitHub_Username r' = GitHub_Username r ->
       isnan (Accuracy r') = false ->
       fle (Accuracy r') (Accuracy r) = true
       /\ ((j < i)%nat -> flt (Accuracy r') (Accuracy r) = true).

(** Two rows with the same cells apart from the rank. *)
Definition same_cells (r r' : row) : Prop :=
  Profile_Image r = Profile_Image r'
  /\ GitHub_Username r = GitHub_Username r'
  /\ Solution r = Solution r'
  /\ Accuracy r = Accuracy r'.


(** A string that neither starts nor ends with white space. *)
Definition trimmed (y : str) : Prop :=
  (forall c, hd_error y = Some c -> isspace c = false)
  /\ (forall c, hd_error (rev y) = Some c -> isspace c = false).

Definition blank (ws : str) : Prop := Forall (fun c => isspace c = true) ws.

(** A printable ASCII character other than the pipe: what a cell may hold
    for the rendering to stay on one line and within its field. *)
Definition inline (c : ascii) : bool :=
  (32 <=? code c)%Z && (code c <=? 126)%Z && negb (Ascii.eqb c pipe).

(** An inline character other than the space. *)
Definition solid (c : ascii) : bool :=
  (33 <=? code c)%Z && (code c <=? 126)%Z && negb (Ascii.eqb c pipe).

Definition plain (s : str) : bool := forallb inline s.

(** A row whose text cells are plain. *)
Definition plain_row (r : row) : bool :=
  plain (Profile_Image r) && plain (GitHub_Username r) && plain (Solution r).

(** A character of a rendered line: inline, or the pipe. *)
Definition on_line (c : ascii) : bool := inline c || Ascii.eqb c pipe.

(** The characters of the line below the header. *)
Definition rule_char (c : ascii) : bool :=
  Ascii.eqb c pipe || Ascii.eqb c (chr 45) || Ascii.eqb c (chr 58).

Definition header_groups : groups :=
  Groups (s2l "Rank") (s2l "Profile Image") (s2l "GitHub Username")
         (s2l "Solution") (s2l "Accuracy %").




(** A field of the row pattern: not empty, no pipe. *)
Definition field (f : str) : Prop := f <> [] /\ ~ In pipe f.

(** The line of five fields between pipes. *)
Definition fields_line (g : groups) : str :=
  pipe :: g1 g ++ pipe :: g2 g ++ pipe :: g3 g ++ pipe :: g4 g
    ++ pipe :: g5 g ++ [pipe].

(** Five plain fields, none of them empty. *)
Definition plain_fields (g : groups) : Prop :=
  (plain (g1 g) = true /\ plain (g2 g) = true /\ plain (g3 g) = true
   /\ plain (g4 g) = true /\ plain (g5 g) = true)
  /\ (g1 g <> [] /\ g2 g <> [] /\ g3 g <> [] /\ g4 g <> [] /\ g5 g <> []).

(** A line the row pattern matches from its first to its last character. *)
Definition row_line (line : str) : Prop :=
  exists g, plain_fields g /\ line = fields_line g.

(** The fields read back from the line of a row, stripped: the rank in
    decimal, the three text cells as tabulate formats them, and the accuracy
    in the format "g". *)
Definition rendered_fields (l : table_layout) (r : row) : groups :=
  Groups (str_of_int (Rank r))
         (strip (format_text (fst (l_image l)) (Profile_Image r)))
         (strip (format_text (fst (l_user l)) (GitHub_Username r)))
         (strip (format_text (fst (l_solution l)) (Solution r)))
         (format_g (Accuracy r)).

(** The text of a table: it starts with a pipe, and every line feed in it
    is followed by a pipe. *)
Definition table_text (t : str) : Prop :=
  hd_error t = Some pipe
  /\ forall i, nth_error t i = Some newline ->
       nth_error t (S i) = Some pipe.

(** A text without carriage return. *)
Definition no_cr (s : str) : bool :=
  forallb (fun c => negb (Ascii.eqb c cr)) s.

(** The exponent part of a numeral: nothing, or the letter [e] with a sign
    and digits. *)
Definition exponent_part (ex : str) : Prop :=
  ex = []
  \/ exists sg ds, ex = chr 101 :: sg :: ds
       /\ (sg = chr 45 \/ sg = chr 43)
       /\ forallb is_digit ds = true /\ ds <> [].

(** The fractional part of a numeral: nothing, or the point and digits. *)
Definition fraction_part (pf : str) : Prop :=
  pf = [] \/ exists f, pf = chr 46 :: f /\ forallb is_digit f = true.

(** * Example documents *)

Local Open Scope string_scope.
Local Open Scope list_scope.

Definition lines (l : list string) : str := join [newline] (map s2l l).

Definition f90 : float := float_of_decimal false 90 0.

Definition f85 : float := float_of_decimal false 85 0.

Definition f80 : float := float_of_decimal false 80 0.

Definition header_rows : list string :=
  ["| Rank | Profile Image | GitHub Username | Solution | Accuracy % |";
   "|------|---------------|-----------------|----------|------------|"].

(** A table with alice at 90.0 and bob at 85.0. *)
Definition doc_two : str :=
  lines (["# Leaderboard"; "<!-- leader-board-begins -->"] ++ header_rows ++
         ["| 1 | img | [alice](https://github.com/alice) | [a](u) | 90.0 |";
          "| 2 | img | [bob](https://github.com/bob) | [b](u) | 85.0 |";
          "<!-- leader-board-ends -->"; "footer"]).

Definition alice_cell : str := s2l "[alice](https://github.com/alice)".

Definition bob_cell : str := s2l "[bob](https://github.com/bob)".

Definition carol_cell : str := s2l "[carol](https://github.com/carol)".

Definition row_alice : row := Row 1 (s2l "img") alice_cell (s2l "[a](u)") f90.

Definition row_bob : row := Row 2 (s2l "img") bob_cell (s2l "[b](u)") f85.

Definition df_two : frame := [row_alice; row_bob].

(** The entry of carol at 85.0 on the table of alice and bob. *)
Definition row_carol : row := new_entry df_two (s2l "p") f85 (s2l "carol").

(** What the update writes for carol at 80.0 on [doc_two]. *)
Definition file_carol : str :=
  snd (generate_leaderboard insertion_argsort (s2l "p") f80 (s2l "carol")
                            doc_two).

(** The frame of a first submission: alice at 80.0. *)
Definition df_alice : frame := [new_entry [] (s2l "baseline") f80 (s2l "alice")].

(** A table with alice at 85.0 under the solution [old]. *)
Definition doc_tie : str :=
  lines (["<!-- leader-board-begins -->"] ++ header_rows ++
         ["| 1 | img | [alice](https://github.com/alice) | [old](u) | 85.0 |";
          "<!-- leader-board-ends -->"]).

Definition df_tie : frame :=
  [Row 1 (s2l "img") alice_cell (s2l "[old](u)") f85].

(** A table in which one user appears under two profile links. *)
Definition doc_links : str :=
  lines (["<!-- leader-board-begins -->"] ++ header_rows ++
         ["| 1 | img | [bob](https://github.com/bob) | [a](u) | 90.0 |";
          "| 2 | img | [bob](https://github.com/Bob) | [b](u) | 85.0 |";
          "<!-- leader-board-ends -->"]).

Definition df_links : frame :=
  [Row 1 (s2l "img") bob_cell (s2l "[a](u)") f90;
   Row 2 (s2l "img") (s2l "[bob](https://github.com/Bob)") (s2l "[b](u)") f85].

(** The document [doc_two] with [CR LF] at the end of its first line and of
    the line before the last. *)
Definition doc_cr : str :=
  s2l "# Leaderboard" ++ [cr; newline]
    ++ lines (["<!-- leader-board-begins -->"] ++ header_rows ++
              ["| 1 | img | [alice](https://github.com/alice) | [a](u) | 90.0 |";
               "| 2 | img | [bob](https://github.com/bob) | [b](u) | 85.0 |";
               "<!-- leader-board-ends -->"])
    ++ [cr; newline] ++ s2l "footer".

(** A table without the begin marker. *)
Definition doc_no_begin : str :=
  lines (["# Leaderboard"] ++ header_rows ++
         ["| 1 | img | [alice](https://github.com/alice) | [a](u) | 90.0 |";
          "<!-- leader-board-ends -->"; "footer"]).




(** The user names user01, user02, ... *)
Definition user_name (i : nat) : str :=
  s2l "user" ++ (if (i <? 10)%nat then s2l "0" else []) ++
  str_of_int (Z.of_nat i).

Definition user_cell (i : nat) : str :=
  s2l "[" ++ user_name i ++ s2l "](https://github.com/" ++ user_name i
    ++ s2l ")".

Definition tie_line (i : nat) : str :=
  s2l "| " ++ str_of_int (Z.of_nat i) ++ s2l " | img | " ++ user_cell i
    ++ s2l " | [s](u) | 85.0 |".

(** A table of seventeen users, user01 to user17, all at 85.0. *)
Definition doc_ties : str :=
  join [newline]
       ([s2l "<!-- leader-board-begins -->"] ++ map s2l header_rows
          ++ map tie_line (seq 1 17) ++ [s2l "<!-- leader-board-ends -->"]).

(** The rows of [doc_ties] and the entry of user18 at 85.0 after lines 78
    and 79. *)
Definition highest_ties : frame :=
  match read_table (table_region doc_ties) with
  | Ok df =>
      let df := df ++ [new_entry df (s2l "p") f85 (user_name 18)] in
      match loc df (groupby_idxmax df) with
      | Ok h => h
      | Raise _ => []
      end
  | Raise _ => []
  end.

Definition recs_ties : frame :=
  match leaderboard_of numpy_quicksort doc_ties (s2l "p") f85 (user_name 18)
  with
  | Ok recs => recs
  | Raise _ => []
  end.

(** A table with its header and no row. *)
Definition doc_header_only : str :=
  lines (["<!-- leader-board-begins -->"] ++ header_rows ++
         ["<!-- leader-board-ends -->"]).

(** The rows of [df_two] under other ranks. *)
Definition df_two_renumbered : frame :=
  [Row 7 (s2l "img") alice_cell (s2l "[a](u)") f90;
   Row 7 (s2l "img") bob_cell (s2l "[b](u)") f85].

(** The table of carol at 80.0 on [doc_two]. *)
Definition recs_carol : frame :=
  match leaderboard_of insertion_argsort doc_two (s2l "p") f80 (s2l "carol")
  with
  | Ok recs => recs
  | Raise _ => []
  end.

(** The entry of alice at 90.0 with the solution [new] on [doc_tie], and the
    row it becomes at rank 1. *)
Definition entry_alice_new : row :=
  new_entry df_tie (s2l "new") f90 (s2l "alice").

Definition row_alice_new : row :=
  Row 1 (Profile_Image entry_alice_new) (GitHub_Username entry_alice_new)
      (Solution entry_alice_new) f90.

Local Close Scope string_scope.

(** * Properties *)

(** ** The order on floats *)

Ltac float_cases :=
  repeat match goal with
         | x : float |- _ => destruct x
         | x : spec_float |- _ => destruct x
         end;
  repeat match goal with b : bool |- _ => destruct b end;
  simpl in *; try congruence.

Ltac compare_cases :=
  repeat match goal with
         | H : context [Z.compare ?a ?b] |- _ =>
             destruct (Z.compare_spec a b); simpl in H
         | |- context [Z.compare ?a ?b] =>
             destruct (Z.compare_spec a b); simpl
         | H : context [Pos.compare_cont Eq ?a ?b] |- _ =>
             change (Pos.compare_cont Eq a b) with (Pos.compare a b) in H;
             destruct (Pos.compare_spec a b); simpl in H
         | |- context [Pos.compare_cont Eq ?a ?b] =>
             change (Pos.compare_cont Eq a b) with (Pos.compare a b);
             destruct (Pos.compare_spec a b); simpl
         end;
  try congruence; try lia.

Lemma fle_refl (x : float) : isnan x = false -> fle x x = true.
Proof.
  unfold fle, SFleb. float_cases; compare_cases.
Qed.

Lemma fle_total (x y : float) :
  isnan x = false -> isnan y = false -> fle x y = true \/ fle y x = true.
Proof.
  unfold fle, SFleb. float_cases; auto; compare_cases; auto.
Qed.

Lemma flt_fle (x y : float) : flt x y = true -> fle x y = true.
Proof.
  unfold flt, fle, SFltb, SFleb. destruct (SFcompare x y) as [[]|]; congruence.
Qed.

Lemma flt_false_fle (x y : float) :
  isnan x = false -> isnan y = false -> flt x y = false -> fle y x = true.
Proof.
  unfold flt, fle, SFltb, SFleb. float_cases; compare_cases.
Qed.

Lemma fle_trans (x y z : float) :
  fle x y = true -> fle y z = true -> fle x z = true.
Proof.
  unfold fle, SFleb. float_cases; compare_cases.
Qed.

Lemma fle_flt_trans (x y z : float) :
  fle x y = true -> flt y z = true -> flt x z = true.
Proof.
  unfold flt, fle, SFltb, SFleb. float_cases; compare_cases.
Qed.

Lemma flt_not_nan (x y : float) :
  flt x y = true -> isnan x = false /\ isnan y = false.
Proof.
  unfold flt, SFltb. float_cases; auto.
Qed.

(** ** The best row of a user *)

Lemma str_eqb_eq (a b : str) : str_eqb a b = true <-> a = b.
Proof.
  unfold str_eqb. destruct (list_eq_dec ascii_dec a b); split; congruence.
Qed.

Lemma nth_error_snoc {A} (l : list A) (a : A) (j : nat) (x : A) :
  nth_error (l ++ [a]) j = Some x ->
  (j < length l)%nat /\ nth_error l j = Some x \/ j = length l /\ x = a.
Proof.
  intros H. destruct (Nat.lt_ge_cases j (length l)) as [Hlt | Hge].
  - left. rewrite nth_error_app1 in H by assumption. auto.
  - right. rewrite nth_error_app2 in H by assumption.
    destruct (j - length l)%nat as [|k] eqn:E; simpl in H.
    + split; [lia | congruence].
    + destruct k; discriminate.
Qed.

Lemma best_in_step (key : str) (pre : frame) (r : row) best :
  best_in key pre best ->
  best_in key (pre ++ [r])
    (if str_eqb (GitHub_Username r) key && negb (isnan (Accuracy r)) then
       match best with
       | None => Some (length pre, Accuracy r)
       | Some (_, m) => if flt m (Accuracy r)
                        then Some (length pre, Accuracy r) else best
       end
     else best).
Proof.
  intros Hb.
  destruct (str_eqb (GitHub_Username r) key && negb (isnan (Accuracy r)))
    eqn:Hc.
  - apply andb_prop in Hc. destruct Hc as [Hk Hn].
    apply str_eqb_eq in Hk. apply negb_true_iff in Hn.
    assert (Hnew : forall j r', nth_error (pre ++ [r]) j = Some r' ->
               (j < length pre)%nat -> nth_error pre j = Some r').
    { intros j r' Hj Hlt. rewrite nth_error_app1 in Hj; assumption. }
    assert (Hhere : nth_error (pre ++ [r]) (length pre) = Some r).
    { rewrite nth_error_app2, Nat.sub_diag by lia. reflexivity. }
    destruct best as [[k m]|]; simpl in *.
    + destruct Hb as [[r0 [Hr0 [Hk0 Hm0]]] [Hnan Hall]].
      assert (Hklt : (k < length pre)%nat).
      { apply nth_error_Some. congruence. }
      destruct (flt m (Accuracy r)) eqn:Hlt; simpl.
      * split; [exists r; auto|]. split; [assumption|].
        intros j r' Hj Hkey Hn'.
        apply nth_error_snoc in Hj. destruct Hj as [[Hj1 Hj2] | [Hj1 Hj2]].
        -- destruct (Hall j r' Hj2 Hkey Hn') as [Hle _].
           split; [| intros _].
           ++ eapply flt_fle, fle_flt_trans; eassumption.
           ++ eapply fle_flt_trans; eassumption.
        -- subst. split; [apply fle_refl; assumption | lia].
      * split; [exists r0; split; [|auto]|].
        { rewrite nth_error_app1; assumption. }
        split; [assumption|].
        intros j r' Hj Hkey Hn'.
        apply nth_error_snoc in Hj. destruct Hj as [[Hj1 Hj2] | [Hj1 Hj2]].
        -- apply (Hall j r' Hj2 Hkey Hn').
        -- subst. split; [apply flt_false_fle; assumption | lia].
    + split; [exists r; auto|]. split; [assumption|].
      intros j r' Hj Hkey Hn'.
      apply nth_error_snoc in Hj. destruct Hj as [[Hj1 Hj2] | [Hj1 Hj2]].
      * apply nth_error_In in Hj2. rewrite (Hb r' Hj2 Hkey) in Hn'.
        discriminate.
      * subst. split; [apply fle_refl; assumption | lia].
  - assert (Hskip : GitHub_Username r = key -> isnan (Accuracy r) = true).
    { intros Hk. apply str_eqb_eq in Hk. rewrite Hk in Hc. simpl in Hc.
      apply negb_false_iff in Hc. assumption. }
    destruct best as [[k m]|]; simpl in *.
    + destruct Hb as [[r0 [Hr0 [Hk0 Hm0]]] [Hnan Hall]].
      assert (Hklt : (k < length pre)%nat).
      { apply nth_error_Some. congruence. }
      split; [exists r0; split; [|auto]|].
      { rewrite nth_error_app1; assumption. }
      split; [assumption|].
      intros j r' Hj Hkey Hn'.
      apply nth_error_snoc in Hj. destruct Hj as [[Hj1 Hj2] | [Hj1 Hj2]].
      * apply (Hall j r' Hj2 Hkey Hn').
      * subst. rewrite (Hskip Hkey) in Hn'. discriminate.
    + intros r' Hin Hkey. apply in_app_or in Hin. destruct Hin as [Hin|Hin].
      * apply Hb; assumption.
      * destruct Hin as [<-|[]]. apply Hskip; assumption.
Qed.

Lemma idxmax_from_spec (key : str) (rows : frame) :
  forall pre best,
    best_in key pre best ->
    best_in key (pre ++ rows) (idxmax_from key rows (length pre) best).
Proof.
  induction rows as [|r rest IH]; intros pre best Hb; simpl.
  - rewrite app_nil_r. assumption.
  - replace (pre ++ r :: rest) with ((pre ++ [r]) ++ rest)
      by (rewrite <- app_assoc; reflexivity).
    replace (S (length pre)) with (length (pre ++ [r]))
      by (rewrite length_app; simpl; lia).
    apply IH. apply best_in_step. assumption.
Qed.

Lemma idxmax_spec (df : frame) (key : str) :
  match idxmax df key with
  | Some i => exists r, best_row df i r /\ GitHub_Username r = key
  | None => forall r, In r df -> GitHub_Username r = key ->
                      isnan (Accuracy r) = true
  end.
Proof.
  unfold idxmax.
  pose proof (idxmax_from_spec key df [] None) as H. simpl in H.
  specialize (H (fun r Hin => match Hin with end)).
  destruct (idxmax_from key df 0 None) as [[k m]|]; simpl in *.
  - destruct H as [[r [Hr [Hk Hm]]] [Hn Hall]].
    exists r. split; [|assumption].
    unfold best_row. subst m key. auto.
  - assumption.
Qed.

(** ** The group keys *)

Lemma insert_key_perm (k : str) (l : list str) :
  Permutation (insert_key k l) (k :: l).
Proof.
  induction l as [|h t IH]; simpl.
  - reflexivity.
  - destruct (str_leb k h).
    + reflexivity.
    + rewrite IH. apply perm_swap.
Qed.

Lemma sort_keys_perm (l : list str) : Permutation (sort_keys l) l.
Proof.
  induction l as [|k t IH]; simpl.
  - reflexivity.
  - rewrite insert_key_perm. apply perm_skip. assumption.
Qed.

Lemma group_keys_NoDup (df : frame) : NoDup (group_keys df).
Proof.
  unfold group_keys.
  eapply Permutation_NoDup.
  - symmetry. apply sort_keys_perm.
  - apply NoDup_nodup.
Qed.

Lemma group_keys_In (df : frame) (k : str) :
  In k (group_keys df) <-> exists r, In r df /\ GitHub_Username r = k.
Proof.
  unfold group_keys. split.
  - intros H. apply (Permutation_in _ (sort_keys_perm _)) in H.
    apply nodup_In, in_map_iff in H. destruct H as [r [Hk Hr]]. eauto.
  - intros [r [Hr Hk]].
    apply (Permutation_in _ (Permutation_sym (sort_keys_perm _))).
    apply nodup_In, in_map_iff. eauto.
Qed.

(** ** The rows kept by [loc] *)

Lemma loc_spec (df : frame) (labels : list (option nat)) (h : frame) :
  loc df labels = Ok h ->
  Forall2 (fun lab r => exists i, lab = Some i /\ nth_error df i = Some r)
          labels h.
Proof.
  revert h. induction labels as [|lab rest IH]; intros h H; simpl in H.
  - inversion H. constructor.
  - destruct lab as [i|]; [|discriminate].
    destruct (nth_error df i) as [r|] eqn:Hr; [|discriminate].
    destruct (loc df rest) as [rs|e]; simpl in H; [|discriminate].
    inversion H; subst. constructor; eauto.
Qed.

Lemma loc_total (df : frame) (labels : list (option nat)) :
  Forall (fun lab => exists i r, lab = Some i /\ nth_error df i = Some r)
         labels ->
  exists h, loc df labels = Ok h.
Proof.
  induction 1 as [|lab rest [i [r [-> Hr]]] _ [h IH]]; simpl.
  - eauto.
  - rewrite Hr, IH. simpl. eauto.
Qed.

(** The frame kept by lines 78 and 79: one row per group key, in the order
    of the keys, each the best row of its user. *)
Lemma highest_spec (df h : frame) :
  loc df (groupby_idxmax df) = Ok h ->
  Forall2 (fun key r => GitHub_Username r = key
                        /\ exists i, best_row df i r)
          (group_keys df) h.
Proof.
  intros H. apply loc_spec in H. unfold groupby_idxmax in H.
  remember (group_keys df) as keys eqn:E. clear E.
  revert h H. induction keys as [|k ks IH]; intros h H; simpl in H.
  - inversion H. constructor.
  - inversion H as [|lab r labs rs [i [Hi Hr]] Hrest]; subst.
    constructor; [|apply IH; assumption].
    pose proof (idxmax_spec df k) as Hs. rewrite Hi in Hs.
    destruct Hs as [r' [Hbest Hk]].
    assert (r' = r) by (destruct Hbest as [Hn _]; congruence). subst r'.
    eauto.
Qed.

Lemma Forall2_map_eq {A B} (f : B -> A) (l : list A) (l' : list B) :
  Forall2 (fun a b => f b = a) l l' -> map f l' = l.
Proof.
  induction 1; simpl; congruence.
Qed.

Lemma highest_keys (df h : frame) :
  loc df (groupby_idxmax df) = Ok h ->
  map GitHub_Username h = group_keys df.
Proof.
  intros H. apply highest_spec in H. apply Forall2_map_eq.
  eapply Forall2_impl; [|exact H]. simpl. intros a b [Hk _]. exact Hk.
Qed.

Lemma highest_not_nan (df h : frame) :
  loc df (groupby_idxmax df) = Ok h ->
  Forall (fun r => isnan (Accuracy r) = false) h.
Proof.
  intros H. apply highest_spec in H.
  induction H as [|k r ks rs [_ [i [_ [Hn _]]]] _ IH]; constructor; assumption.
Qed.

(** Every user with an accuracy that is a number has a best row. *)
Lemma highest_total (df : frame) :
  (forall k, In k (group_keys df) ->
     exists r, In r df /\ GitHub_Username r = k
               /\ isnan (Accuracy r) = false) ->
  exists h, loc df (groupby_idxmax df) = Ok h.
Proof.
  intros Hall. apply loc_total. unfold groupby_idxmax.
  apply Forall_forall. intros lab Hin. apply in_map_iff in Hin.
  destruct Hin as [k [<- Hk]].
  pose proof (idxmax_spec df k) as Hs.
  destruct (idxmax df k) as [i|].
  - destruct Hs as [r [[Hr _] _]]. eauto.
  - destruct (Hall k Hk) as [r [Hr [Hkey Hn]]].
    rewrite (Hs r Hr Hkey) in Hn. discriminate.
Qed.

(** ** Lists *)

Lemma filter_all {A} (f : A -> bool) (l : list A) :
  (forall x, In x l -> f x = true) -> filter f l = l.
Proof.
  induction l as [|a t IH]; intros H; simpl.
  - reflexivity.
  - rewrite (H a) by (left; reflexivity). f_equal.
    apply IH. intros x Hx. apply H. right. assumption.
Qed.

Lemma filter_none {A} (f : A -> bool) (l : list A) :
  (forall x, In x l -> f x = false) -> filter f l = [].
Proof.
  induction l as [|a t IH]; intros H; simpl.
  - reflexivity.
  - rewrite (H a) by (left; reflexivity).
    apply IH. intros x Hx. apply H. right. assumption.
Qed.

Lemma map_nth_seq {A} (l : list A) (d : A) :
  map (fun i => nth i l d) (seq 0 (length l)) = l.
Proof.
  induction l as [|a t IH]; simpl.
  - reflexivity.
  - f_equal. rewrite <- seq_shift, map_map. simpl. assumption.
Qed.

Lemma perm_map_nth {A} (l : list A) (d : A) (p : list nat) :
  Permutation p (seq 0 (length l)) ->
  Permutation (map (fun i => nth i l d) p) l.
Proof.
  intros H. rewrite (Permutation_map _ H), map_nth_seq. reflexivity.
Qed.

Lemma Sorted_impl_in {A} (R R' : A -> A -> Prop) (l : list A) :
  (forall x y, In x l -> In y l -> R x y -> R' x y) ->
  Sorted R l -> Sorted R' l.
Proof.
  intros Himp H. induction H as [|a t Ht IH Hd]; constructor.
  - apply IH. intros x y Hx Hy. apply Himp; right; assumption.
  - destruct Hd as [|b t' Hab]; constructor.
    apply Himp; simpl; auto.
Qed.

Lemma Sorted_map {A B} (f : A -> B) (R : B -> B -> Prop) (l : list A) :
  Sorted (fun x y => R (f x) (f y)) l -> Sorted R (map f l).
Proof.
  induction 1 as [|a t Ht IH Hd]; simpl; constructor.
  - assumption.
  - destruct Hd; simpl; constructor. assumption.
Qed.

Lemma Sorted_snoc {A} (R : A -> A -> Prop) (l : list A) (a : A) :
  Sorted R l -> (forall x, In x (firstn 1 (rev l)) -> R x a) ->
  Sorted R (l ++ [a]).
Proof.
  induction 1 as [|b t Ht IH Hd]; intros Hlast; simpl.
  - repeat constructor.
  - constructor.
    + apply IH. intros x Hx. apply Hlast. simpl.
      destruct (rev t) as [|y ys] eqn:E; simpl in *; [contradiction|].
      assumption.
    + destruct Hd as [|c t' Hbc]; simpl; constructor.
      * apply Hlast. simpl. left. reflexivity.
      * assumption.
Qed.

Lemma Sorted_rev {A} (R : A -> A -> Prop) (l : list A) :
  Sorted R l -> Sorted (fun x y => R y x) (rev l).
Proof.
  induction 1 as [|a t Ht IH Hd]; simpl.
  - constructor.
  - apply Sorted_snoc; [assumption|].
    rewrite rev_involutive. intros x Hx.
    destruct Hd as [|b t' Hab]; simpl in Hx; [contradiction|].
    destruct Hx as [<-|[]]. assumption.
Qed.

Lemma Sorted_adjacent {A} (R : A -> A -> Prop) (l : list A) :
  Sorted R l ->
  forall i x y, nth_error l i = Some x -> nth_error l (S i) = Some y -> R x y.
Proof.
  induction 1 as [|a t Ht IH Hd]; intros i x y Hx Hy.
  - destruct i; discriminate.
  - destruct i as [|i]; simpl in Hx, Hy.
    + inversion Hx; subst. destruct Hd as [|b t' Hab]; [discriminate|].
      simpl in Hy. inversion Hy; subst. assumption.
    + eapply IH; eassumption.
Qed.

Lemma take_map (df : frame) (d : row) (idx : list nat) :
  Forall (fun i => (i < length df)%nat) idx ->
  take df idx = map (fun i => nth i df d) idx.
Proof.
  unfold take. induction 1 as [|i t Hi _ IH]; simpl.
  - reflexivity.
  - rewrite IH. apply nth_error_Some in Hi.
    destruct (nth_error df i) as [r|] eqn:E; [|congruence].
    simpl. f_equal. symmetry. apply nth_error_nth. assumption.
Qed.

Lemma perm_seq_lt (p : list nat) (n : nat) :
  Permutation p (seq 0 n) -> Forall (fun i => (i < n)%nat) p.
Proof.
  intros H. apply Forall_forall. intros i Hi.
  apply (Permutation_in _ H), in_seq in Hi. lia.
Qed.

(** ** Ranking *)

Lemma rank_from_length (df : frame) :
  forall i, length (rank_from i df) = length df.
Proof.
  induction df; intros; simpl; auto.
Qed.

Lemma rank_from_users (df : frame) :
  forall i, map GitHub_Username (rank_from i df) = map GitHub_Username df.
Proof.
  induction df; intros; simpl; [|rewrite IHdf]; reflexivity.
Qed.

Lemma rank_from_accuracy (df : frame) :
  forall i, map Accuracy (rank_from i df) = map Accuracy df.
Proof.
  induction df; intros; simpl; [|rewrite IHdf]; reflexivity.
Qed.

Lemma rank_from_ranks (df : frame) :
  forall i, map Rank (rank_from i df)
            = map (fun k => i + Z.of_nat k) (seq 1 (length df)).
Proof.
  induction df as [|r t IH]; intros i; simpl.
  - reflexivity.
  - f_equal.
    rewrite IH, <- (seq_shift (length t) 1), map_map.
    apply map_ext. intros k. lia.
Qed.

Lemma rank_from_cells (df : frame) :
  forall i, Forall2 same_cells (rank_from i df) df.
Proof.
  induction df; intros; simpl; constructor; unfold same_cells; simpl; auto.
Qed.

(** ** Sorting *)

Section Sorting.

Variable argsort : list float -> list nat.
Hypothesis argsort_sorts : sorts argsort.

Lemma nargsort_no_nan (items : list float) :
  Forall (fun x => isnan x = false) items ->
  nargsort argsort items
  = rev (map (fun j => nth j (rev (seq 0 (length items))) O)
             (argsort (rev items))).
Proof.
  intros Hn. unfold nargsort.
  assert (Hmask : forall i, In i (seq 0 (length items)) ->
                            isnan (nth i items S754_nan) = false).
  { intros i Hi. apply in_seq in Hi.
    rewrite Forall_forall in Hn. apply Hn, nth_In. lia. }
  rewrite filter_all, filter_none, app_nil_r.
  - rewrite map_rev, map_nth_seq. reflexivity.
  - assumption.
  - intros i Hi. rewrite (Hmask i Hi). reflexivity.
Qed.

Lemma nargsort_perm (items : list float) :
  Forall (fun x => isnan x = false) items ->
  Permutation (nargsort argsort items) (seq 0 (length items)).
Proof.
  intros Hn. rewrite nargsort_no_nan by assumption.
  rewrite <- Permutation_rev.
  assert (Hr : Forall (fun x => isnan x = false) (rev items)).
  { apply Forall_rev. assumption. }
  destruct (argsort_sorts _ Hr) as [Hp _].
  rewrite length_rev in Hp.
  rewrite perm_map_nth.
  - symmetry. apply Permutation_rev.
  - rewrite length_rev, length_seq. assumption.
Qed.

Lemma nargsort_sorted (items : list float) :
  Forall (fun x => isnan x = false) items ->
  Sorted (fun a b => fle (nth b items S754_nan) (nth a items S754_nan)
                     = true)
         (nargsort argsort items).
Proof.
  intros Hn. rewrite nargsort_no_nan by assumption.
  assert (Hr : Forall (fun x => isnan x = false) (rev items)).
  { apply Forall_rev. assumption. }
  destruct (argsort_sorts _ Hr) as [Hp Hs].
  rewrite length_rev in Hp.
  apply (Sorted_rev (fun a b => fle (nth a items S754_nan)
                                    (nth b items S754_nan) = true)).
  apply Sorted_map.
  eapply Sorted_impl_in; [|exact Hs].
  assert (Hval : forall j, In j (argsort (rev items)) ->
            nth (nth j (rev (seq 0 (length items))) O) items S754_nan
            = nth j (rev items) S754_nan).
  { intros j Hj. apply (Permutation_in _ Hp), in_seq in Hj.
    rewrite !rev_nth by (rewrite ?length_seq; lia).
    rewrite length_seq, seq_nth by lia. reflexivity. }
  intros x y Hx Hy H. simpl. rewrite (Hval x Hx), (Hval y Hy). exact H.
Qed.

Lemma sort_values_perm (df : frame) :
  Forall (fun r => isnan (Accuracy r) = false) df ->
  Permutation (sort_values argsort df) df.
Proof.
  intros Hn. unfold sort_values.
  assert (Hi : Forall (fun x => isnan x = false) (map Accuracy df)).
  { apply Forall_map. assumption. }
  pose proof (nargsort_perm _ Hi) as Hp. rewrite length_map in Hp.
  rewrite (take_map df row0) by (apply perm_seq_lt; assumption).
  apply perm_map_nth. assumption.
Qed.

Lemma sort_values_sorted (df : frame) :
  Forall (fun r => isnan (Accuracy r) = false) df ->
  Sorted (fun r s => fle (Accuracy s) (Accuracy r) = true)
         (sort_values argsort df).
Proof.
  intros Hn. unfold sort_values.
  assert (Hi : Forall (fun x => isnan x = false) (map Accuracy df)).
  { apply Forall_map. assumption. }
  pose proof (nargsort_perm _ Hi) as Hp. rewrite length_map in Hp.
  rewrite (take_map df row0) by (apply perm_seq_lt; assumption).
  apply Sorted_map.
  eapply Sorted_impl_in; [|exact (nargsort_sorted _ Hi)].
  intros x y Hx Hy H. simpl in *.
  apply (Permutation_in _ Hp), in_seq in Hx.
  apply (Permutation_in _ Hp), in_seq in Hy.
  change S754_nan with (Accuracy row0) in H.
  rewrite !map_nth in H. exact H.
Qed.

(** *** The merged frame *)

Lemma merge_inv (df recs : frame) :
  merge argsort df = Ok recs ->
  exists h, loc df (groupby_idxmax df) = Ok h
            /\ recs = rank_from 0 (sort_values argsort h).
Proof.
  unfold merge. destruct (loc df (groupby_idxmax df)) as [h|e]; simpl.
  - intros H. inversion H. eauto.
  - discriminate.
Qed.

Lemma merge_users (df recs : frame) :
  merge argsort df = Ok recs ->
  Permutation (map GitHub_Username recs) (group_keys df).
Proof.
  intros H. apply merge_inv in H. destruct H as [h [Hh ->]].
  rewrite rank_from_users, <- (highest_keys _ _ Hh).
  apply Permutation_map, sort_values_perm.
  eapply highest_not_nan. eassumption.
Qed.

Lemma merge_total (df : frame) :
  Forall (fun r => isnan (Accuracy r) = false) df ->
  exists recs, merge argsort df = Ok recs.
Proof.
  intros Hn. unfold merge.
  destruct (highest_total df) as [h Hh].
  - intros k Hk. apply group_keys_In in Hk. destruct Hk as [r [Hr Hkey]].
    exists r. rewrite Forall_forall in Hn. auto.
  - rewrite Hh. simpl. eauto.
Qed.

End Sorting.

(** ** Insertion sort is an [argsort] *)

Lemma insert_pos_perm (v : list float) (i : nat) (l : list nat) :
  Permutation (insert_pos v i l) (i :: l).
Proof.
  induction l as [|j t IH]; simpl.
  - reflexivity.
  - destruct (flt (nth i v S754_nan) (nth j v S754_nan)).
    + reflexivity.
    + rewrite IH. apply perm_swap.
Qed.

Lemma insert_pos_sorted (v : list float) (i : nat) (l : list nat) :
  isnan (nth i v S754_nan) = false ->
  Forall (fun j => isnan (nth j v S754_nan) = false) l ->
  Sorted (fun a b => fle (nth a v S754_nan) (nth b v S754_nan) = true) l ->
  Sorted (fun a b => fle (nth a v S754_nan) (nth b v S754_nan) = true)
         (insert_pos v i l).
Proof.
  intros Hi Hl Hs. induction Hs as [|j t Ht IH Hd]; simpl.
  - repeat constructor.
  - inversion Hl as [|? ? Hj Hl']; subst.
    destruct (flt (nth i v S754_nan) (nth j v S754_nan)) eqn:E.
    + constructor; [constructor; assumption|].
      constructor. apply flt_fle. assumption.
    + constructor; [apply IH; assumption|].
      assert (Hji : fle (nth j v S754_nan) (nth i v S754_nan) = true)
        by (apply flt_false_fle; assumption).
      destruct Hd as [|k t' Hjk]; simpl.
      * constructor. assumption.
      * destruct (flt (nth i v S754_nan) (nth k v S754_nan));
          constructor; assumption.
Qed.

Lemma insertion_fold (v : list float) (idxs : list nat) :
  Forall (fun j => isnan (nth j v S754_nan) = false) idxs ->
  forall acc,
    Forall (fun j => isnan (nth j v S754_nan) = false) acc ->
    Sorted (fun a b => fle (nth a v S754_nan) (nth b v S754_nan) = true) acc ->
    let out := fold_left (fun l i => insert_pos v i l) idxs acc in
    Permutation out (idxs ++ acc)
    /\ Sorted (fun a b => fle (nth a v S754_nan) (nth b v S754_nan) = true)
              out.
Proof.
  induction 1 as [|i t Hi Ht IH]; intros acc Hacc Hs; simpl.
  - split; [reflexivity | assumption].
  - destruct (IH (insert_pos v i acc)) as [Hp Hsorted].
    + eapply Permutation_Forall.
      * symmetry. apply insert_pos_perm.
      * constructor; assumption.
    + apply insert_pos_sorted; assumption.
    + split; [|assumption].
      rewrite Hp, insert_pos_perm. symmetry. apply Permutation_middle.
Qed.

Lemma insertion_argsort_sorts : sorts insertion_argsort.
Proof.
  intros v Hv. unfold insertion_argsort.
  destruct (insertion_fold v (seq 0 (length v))) with (acc := @nil nat)
    as [Hp Hs].
  - apply Forall_forall. intros i Hi. apply in_seq in Hi.
    rewrite Forall_forall in Hv. apply Hv, nth_In. lia.
  - constructor.
  - constructor.
  - rewrite app_nil_r in Hp. split; assumption.
Qed.

Lemma insert_first_perm (v : list float) (i : nat) (l : list nat) :
  Permutation (insert_first v i l) (i :: l).
Proof.
  induction l as [|j t IH]; simpl.
  - reflexivity.
  - destruct (fle (nth i v S754_nan) (nth j v S754_nan)).
    + reflexivity.
    + rewrite IH. apply perm_swap.
Qed.

Lemma insert_first_sorted (v : list float) (i : nat) (l : list nat) :
  isnan (nth i v S754_nan) = false ->
  Forall (fun j => isnan (nth j v S754_nan) = false) l ->
  Sorted (fun a b => fle (nth a v S754_nan) (nth b v S754_nan) = true) l ->
  Sorted (fun a b => fle (nth a v S754_nan) (nth b v S754_nan) = true)
         (insert_first v i l).
Proof.
  intros Hi Hl Hs. induction Hs as [|j t Ht IH Hd]; simpl.
  - repeat constructor.
  - inversion Hl as [|? ? Hj Hl']; subst.
    destruct (fle (nth i v S754_nan) (nth j v S754_nan)) eqn:E.
    + constructor; [constructor; assumption|].
      constructor. assumption.
    + constructor; [apply IH; assumption|].
      assert (Hji : fle (nth j v S754_nan) (nth i v S754_nan) = true).
      { destruct (fle_total _ _ Hj Hi) as [H|H]; [assumption | congruence]. }
      destruct Hd as [|k t' Hjk]; simpl.
      * constructor. assumption.
      * destruct (fle (nth i v S754_nan) (nth k v S754_nan));
          constructor; assumption.
Qed.

Lemma reversing_fold (v : list float) (idxs : list nat) :
  Forall (fun j => isnan (nth j v S754_nan) = false) idxs ->
  forall acc,
    Forall (fun j => isnan (nth j v S754_nan) = false) acc ->
    Sorted (fun a b => fle (nth a v S754_nan) (nth b v S754_nan) = true) acc ->
    let out := fold_left (fun l i => insert_first v i l) idxs acc in
    Permutation out (idxs ++ acc)
    /\ Sorted (fun a b => fle (nth a v S754_nan) (nth b v S754_nan) = true)
              out.
Proof.
  induction 1 as [|i t Hi Ht IH]; intros acc Hacc Hs; simpl.
  - split; [reflexivity | assumption].
  - destruct (IH (insert_first v i acc)) as [Hp Hsorted].
    + eapply Permutation_Forall.
      * symmetry. apply insert_first_perm.
      * constructor; assumption.
    + apply insert_first_sorted; assumption.
    + split; [|assumption].
      rewrite Hp, insert_first_perm. symmetry. apply Permutation_middle.
Qed.

Lemma reversing_argsort_sorts : sorts reversing_argsort.
Proof.
  intros v Hv. unfold reversing_argsort.
  destruct (reversing_fold v (seq 0 (length v))) with (acc := @nil nat)
    as [Hp Hs].
  - apply Forall_forall. intros i Hi. apply in_seq in Hi.
    rewrite Forall_forall in Hv. apply Hv, nth_In. lia.
  - constructor.
  - constructor.
  - rewrite app_nil_r in Hp. split; assumption.
Qed.

(** ** Reading the table *)

Lemma astype_int_length (col : list str) (ns : list Z) :
  astype_int col = Ok ns -> length ns = length col.
Proof.
  revert ns. induction col as [|s t IH]; intros ns H; simpl in H.
  - inversion H. reflexivity.
  - destruct (py_int s) as [n|]; [|discriminate].
    destruct ((int64_min <=? n) && (n <=? int64_max)); [|discriminate].
    destruct (astype_int t) as [ns'|]; simpl in H; [|discriminate].
    inversion H. simpl. f_equal. apply IH. reflexivity.
Qed.

Lemma astype_float_length (col : list str) (xs : list float) :
  astype_float col = Ok xs -> length xs = length col.
Proof.
  revert xs. induction col as [|s t IH]; intros xs H; simpl in H.
  - inversion H. reflexivity.
  - destruct (py_float s) as [x|]; [|discriminate].
    destruct (astype_float t) as [xs'|]; simpl in H; [|discriminate].
    inversion H. simpl. f_equal. apply IH. reflexivity.
Qed.

Lemma build_frame_users (cells : list groups) :
  forall ranks accs,
    length ranks = length cells -> length accs = length cells ->
    map GitHub_Username (build_frame cells ranks accs) = map g3 cells.
Proof.
  induction cells as [|g t IH]; intros [|r rs] [|a accs] Hr Ha;
    simpl in *; try discriminate; try reflexivity.
  f_equal. apply IH; lia.
Qed.

(** The user cell of a row read from the document is the whole third
    field of its match, stripped. *)
Lemma read_table_users (region : str) (df : frame) :
  read_table region = Ok df ->
  map GitHub_Username df
  = map (fun g => strip (g3 g)) (skipn 2 (findall region)).
Proof.
  unfold read_table. intros H.
  destruct (astype_int _) as [ranks|] eqn:Hi; simpl in H; [|discriminate].
  destruct (astype_float _) as [accs|] eqn:Hf; simpl in H; [|discriminate].
  inversion H; subst.
  apply astype_int_length in Hi. apply astype_float_length in Hf.
  rewrite !length_map in Hi, Hf.
  rewrite build_frame_users by (rewrite length_map; assumption).
  rewrite map_map. reflexivity.
Qed.

Lemma leaderboard_of_inv argsort (content prompt : str) (accuracy : float)
    (user : str) (df recs : frame) :
  read_table (table_region content) = Ok df ->
  leaderboard_of argsort content prompt accuracy user = Ok recs ->
  merge argsort (df ++ [new_entry df prompt accuracy user]) = Ok recs.
Proof.
  unfold leaderboard_of. intros -> H. exact H.
Qed.

Lemma leaderboard_of_total argsort (content prompt : str) (accuracy : float)
    (user : str) (df : frame) :
  read_table (table_region content) = Ok df ->
  isnan accuracy = false ->
  Forall (fun r => isnan (Accuracy r) = false) df ->
  exists recs, leaderboard_of argsort content prompt accuracy user = Ok recs.
Proof.
  unfold leaderboard_of. intros -> Ha Hdf. simpl.
  apply merge_total. apply Forall_app. split; [assumption|].
  constructor; [exact Ha | constructor].
Qed.

Lemma Forall2_In_l {A B} (R : A -> B -> Prop) (l : list A) (l' : list B) :
  Forall2 R l l' -> forall a, In a l -> exists b, In b l' /\ R a b.
Proof.
  induction 1 as [|x y la lb Hxy _ IH]; intros a Ha.
  - contradiction.
  - destruct Ha as [<-|Ha].
    + exists y. split; [left; reflexivity | assumption].
    + destruct (IH a Ha) as [b [Hb Hab]]. exists b. split; [right|]; auto.
Qed.

Lemma Forall2_In_r {A B} (R : A -> B -> Prop) (l : list A) (l' : list B) :
  Forall2 R l l' -> forall b, In b l' -> exists a, In a l /\ R a b.
Proof.
  induction 1 as [|x y la lb Hxy _ IH]; intros b Hb.
  - contradiction.
  - destruct Hb as [<-|Hb].
    + exists x. split; [left; reflexivity | assumption].
    + destruct (IH b Hb) as [a [Ha Hab]]. exists a. split; [right|]; auto.
Qed.

(** ** The merged table *)

(** C1.  When the table region of the document converts to a frame, the
    frame the merge produces for a new submission holds no two rows with the
    same user cell; and the merge does produce a frame whenever no accuracy
    is NaN. *)
Theorem merge_no_duplicate_users argsort (content prompt : str)
    (accuracy : float) (user : str) (df : frame) :
  sorts argsort ->
  read_table (table_region content) = Ok df ->
  (forall recs,
      leaderboard_of argsort content prompt accuracy user = Ok recs ->
      NoDup (map GitHub_Username recs))
  /\ (isnan accuracy = false ->
      Forall (fun r => isnan (Accuracy r) = false) df ->
      exists recs,
        leaderboard_of argsort content prompt accuracy user = Ok recs).
Proof.
  intros Hs Hdf. split.
  - intros recs H. apply (leaderboard_of_inv _ _ _ _ _ _ _ Hdf) in H.
    eapply Permutation_NoDup.
    + symmetry. eapply merge_users; eassumption.
    + apply group_keys_NoDup.
  - intros Ha Hn. eapply leaderboard_of_total; eassumption.
Qed.

Lemma merge_no_duplicate_users_witness :
  sorts insertion_argsort
  /\ read_table (table_region doc_two) = Ok df_two
  /\ (forall recs,
        leaderboard_of insertion_argsort doc_two (s2l "p") f85 (s2l "carol")
        = Ok recs ->
        NoDup (map GitHub_Username recs))
  /\ (isnan f85 = false ->
      Forall (fun r => isnan (Accuracy r) = false) df_two ->
      exists recs,
        leaderboard_of insertion_argsort doc_two (s2l "p") f85 (s2l "carol")
        = Ok recs).
Proof.
  split; [exact insertion_argsort_sorts|].
  split; [vm_compute; reflexivity|].
  apply (merge_no_duplicate_users insertion_argsort doc_two (s2l "p") f85
           (s2l "carol") df_two insertion_argsort_sorts).
  vm_compute; reflexivity.
Defined.

(** C2.  The ranks of the merged frame are 1, 2, ..., N, where N is the
    number of distinct user cells, and the accuracy of a row is greater than
    or equal to that of the row after it; and the merge does produce a frame
    whenever no accuracy is NaN. *)
Theorem merge_ranks_dense_descending argsort (content prompt : str)
    (accuracy : float) (user : str) (df : frame) :
  sorts argsort ->
  read_table (table_region content) = Ok df ->
  (forall recs,
      leaderboard_of argsort content prompt accuracy user = Ok recs ->
      map Rank recs = map Z.of_nat (seq 1 (length recs))
      /\ length recs
         = length (group_keys (df ++ [new_entry df prompt accuracy user]))
      /\ forall i r s,
           nth_error recs i = Some r -> nth_error recs (S i) = Some s ->
           fle (Accuracy s) (Accuracy r) = true)
  /\ (isnan accuracy = false ->
      Forall (fun r => isnan (Accuracy r) = false) df ->
      exists recs,
        leaderboard_of argsort content prompt accuracy user = Ok recs).
Proof.
  intros Hs Hdf. split;
    [|intros Ha Hn; eapply leaderboard_of_total; eassumption].
  intros recs H. apply (leaderboard_of_inv _ _ _ _ _ _ _ Hdf) in H.
  pose proof (merge_users _ Hs _ _ H) as Hu.
  apply merge_inv in H. destruct H as [h [Hh ->]].
  pose proof (highest_not_nan _ _ Hh) as Hn.
  split; [|split].
  - rewrite rank_from_ranks, rank_from_length. reflexivity.
  - apply Permutation_length in Hu. rewrite length_map in Hu. exact Hu.
  - pose proof (sort_values_sorted _ Hs _ Hn) as Hsorted.
    apply (Sorted_map Accuracy (fun x y => fle y x = true)) in Hsorted.
    rewrite <- (rank_from_accuracy _ 0) in Hsorted.
    intros i r s Hr Hsn.
    apply (Sorted_adjacent _ _ Hsorted i).
    + rewrite nth_error_map, Hr. reflexivity.
    + rewrite nth_error_map, Hsn. reflexivity.
Qed.

Lemma merge_ranks_dense_descending_witness :
  sorts insertion_argsort
  /\ read_table (table_region doc_two) = Ok df_two
  /\ (forall recs,
        leaderboard_of insertion_argsort doc_two (s2l "p") f80 (s2l "carol")
        = Ok recs ->
        map Rank recs = map Z.of_nat (seq 1 (length recs))
        /\ length recs
           = length (group_keys
                       (df_two
                          ++ [new_entry df_two (s2l "p") f80 (s2l "carol")]))
        /\ forall i r s,
             nth_error recs i = Some r -> nth_error recs (S i) = Some s ->
             fle (Accuracy s) (Accuracy r) = true)
  /\ (isnan f80 = false ->
      Forall (fun r => isnan (Accuracy r) = false) df_two ->
      exists recs,
        leaderboard_of insertion_argsort doc_two (s2l "p") f80 (s2l "carol")
        = Ok recs).
Proof.
  split; [exact insertion_argsort_sorts|].
  split; [vm_compute; reflexivity|].
  apply (merge_ranks_dense_descending insertion_argsort doc_two (s2l "p") f80
           (s2l "carol") df_two insertion_argsort_sorts).
  vm_compute; reflexivity.
Defined.

(** C4, as the code has it.  Every row of the merged frame carries the cells
    of the best row of its user among the rows read and the new entry: no
    row of the user has a greater accuracy, and every row of the user that
    comes earlier has a strictly smaller one.  Among rows that share the
    greatest accuracy, the earliest is the one kept. *)
Theorem merge_keeps_first_best argsort (content prompt : str)
    (accuracy : float) (user : str) (df recs : frame) :
  sorts argsort ->
  read_table (table_region content) = Ok df ->
  leaderboard_of argsort content prompt accuracy user = Ok recs ->
  forall rec, In rec recs ->
    exists i r,
      best_row (df ++ [new_entry df prompt accuracy user]) i r
      /\ same_cells rec r.
Proof.
  intros Hs Hdf H rec Hrec.
  apply (leaderboard_of_inv _ _ _ _ _ _ _ Hdf) in H.
  apply merge_inv in H. destruct H as [h [Hh ->]].
  pose proof (highest_not_nan _ _ Hh) as Hn.
  pose proof (rank_from_cells (sort_values argsort h) 0) as Hc.
  destruct (Forall2_In_l _ _ _ Hc rec Hrec) as [r [Hr Hsc]].
  apply (Permutation_in _ (sort_values_perm _ Hs _ Hn)) in Hr.
  apply highest_spec in Hh.
  destruct (Forall2_In_r _ _ _ Hh r Hr) as [k [_ [_ [i Hb]]]]. eauto.
Qed.

Lemma merge_keeps_first_best_witness :
  sorts insertion_argsort
  /\ read_table (table_region doc_tie) = Ok df_tie
  /\ leaderboard_of insertion_argsort doc_tie (s2l "new") f85 (s2l "alice")
     = Ok df_tie
  /\ forall rec, In rec df_tie ->
       exists i r,
         best_row (df_tie ++ [new_entry df_tie (s2l "new") f85 (s2l "alice")])
                  i r
         /\ same_cells rec r.
Proof.
  split; [exact insertion_argsort_sorts|].
  split; [vm_compute; reflexivity|].
  split; [vm_compute; reflexivity|].
  apply (merge_keeps_first_best insertion_argsort doc_tie (s2l "new") f85
           (s2l "alice") df_tie df_tie insertion_argsort_sorts).
  - vm_compute; reflexivity.
  - vm_compute; reflexivity.
Defined.

(** C4, as the claim states it, fails: alice stands at 85.0 with the
    solution [old] and submits [new] with the same accuracy.  The new entry
    comes later and shares the greatest accuracy of her rows, yet the row
    kept is the earlier one, with the solution [old]. *)
Lemma later_tie_is_dropped :
  let later := new_entry df_tie (s2l "new") f85 (s2l "alice") in
  read_table (table_region doc_tie) = Ok df_tie
  /\ GitHub_Username later = alice_cell
  /\ feq (Accuracy later) f85 = true
  /\ Solution later <> s2l "[old](u)"
  /\ leaderboard_of insertion_argsort doc_tie (s2l "new") f85 (s2l "alice")
     = Ok [Row 1 (s2l "img") alice_cell (s2l "[old](u)") f85].
Proof.
  repeat split; try (vm_compute; reflexivity).
  vm_compute. discriminate.
Qed.

(** C10.  The key of the deduplication is the whole user cell, stripped: two
    rows whose user cells differ are both represented in the merged frame,
    by two different rows, whatever the cells have in common. *)
Theorem distinct_cells_stay_apart argsort (content prompt : str)
    (accuracy : float) (user : str) (df recs : frame) (r1 r2 : row) :
  sorts argsort ->
  read_table (table_region content) = Ok df ->
  leaderboard_of argsort content prompt accuracy user = Ok recs ->
  In r1 (df ++ [new_entry df prompt accuracy user]) ->
  In r2 (df ++ [new_entry df prompt accuracy user]) ->
  GitHub_Username r1 <> GitHub_Username r2 ->
  map GitHub_Username df
  = map (fun g => strip (g3 g)) (skipn 2 (findall (table_region content)))
  /\ exists a b,
       In a recs /\ In b recs /\ a <> b
       /\ GitHub_Username a = GitHub_Username r1
       /\ GitHub_Username b = GitHub_Username r2.
Proof.
  intros Hs Hdf H H1 H2 Hne. split; [apply read_table_users; assumption|].
  apply (leaderboard_of_inv _ _ _ _ _ _ _ Hdf) in H.
  pose proof (merge_users _ Hs _ _ H) as Hu.
  assert (Hin : forall r, In r (df ++ [new_entry df prompt accuracy user]) ->
                  exists a, In a recs
                            /\ GitHub_Username a = GitHub_Username r).
  { intros r Hr.
    assert (Hk : In (GitHub_Username r)
                    (group_keys (df ++ [new_entry df prompt accuracy user])))
      by (apply group_keys_In; eauto).
    apply (Permutation_in _ (Permutation_sym Hu)), in_map_iff in Hk.
    destruct Hk as [a [Ha Hina]]. eauto. }
  destruct (Hin r1 H1) as [a [Ha Hka]].
  destruct (Hin r2 H2) as [b [Hb Hkb]].
  exists a, b. repeat split; try assumption.
  intros ->. congruence.
Qed.

Lemma distinct_cells_stay_apart_witness :
  sorts insertion_argsort
  /\ read_table (table_region doc_links) = Ok df_links
  /\ leaderboard_of insertion_argsort doc_links (s2l "p") f80 (s2l "bob")
     = Ok df_links
  /\ In (Row 1 (s2l "img") bob_cell (s2l "[a](u)") f90)
        (df_links ++ [new_entry df_links (s2l "p") f80 (s2l "bob")])
  /\ In (Row 2 (s2l "img") (s2l "[bob](https://github.com/Bob)")
             (s2l "[b](u)") f85)
        (df_links ++ [new_entry df_links (s2l "p") f80 (s2l "bob")])
  /\ bob_cell <> s2l "[bob](https://github.com/Bob)"
  /\ map GitHub_Username df_links
     = map (fun g => strip (g3 g))
           (skipn 2 (findall (table_region doc_links)))
  /\ exists a b,
       In a df_links /\ In b df_links /\ a <> b
       /\ GitHub_Username a = bob_cell
       /\ GitHub_Username b = s2l "[bob](https://github.com/Bob)".
Proof.
  split; [exact insertion_argsort_sorts|].
  split; [vm_compute; reflexivity|].
  split; [vm_compute; reflexivity|].
  split; [left; reflexivity|].
  split; [right; left; reflexivity|].
  split; [vm_compute; discriminate|].
  apply (distinct_cells_stay_apart insertion_argsort doc_links (s2l "p") f80
           (s2l "bob") df_links df_links
           (Row 1 (s2l "img") bob_cell (s2l "[a](u)") f90)
           (Row 2 (s2l "img") (s2l "[bob](https://github.com/Bob)")
                (s2l "[b](u)") f85)
           insertion_argsort_sorts).
  - vm_compute; reflexivity.
  - vm_compute; reflexivity.
  - left; reflexivity.
  - right; left; reflexivity.
  - vm_compute; discriminate.
Defined.

(** ** Finding and slicing *)

Lemma startswith_app (p s : str) :
  startswith p s = true -> s = p ++ skipn (length p) s.
Proof.
  revert s. induction p as [|a p IH]; intros s H; simpl in *.
  - reflexivity.
  - destruct s as [|b s]; [discriminate|].
    apply andb_prop in H. destruct H as [Hab Hp].
    apply Ascii.eqb_eq in Hab. subst b. f_equal. apply IH. assumption.
Qed.

Lemma startswith_length (p s : str) :
  startswith p s = true -> (length p <= length s)%nat.
Proof.
  revert s. induction p as [|a p IH]; intros s H; simpl in *.
  - lia.
  - destruct s as [|b s]; [discriminate|].
    apply andb_prop in H. destruct H as [_ Hp]. apply IH in Hp. simpl. lia.
Qed.

(** A result of [find] other than [-1] is a position at which the pattern
    occurs. *)
Lemma find_from_found (p s : str) :
  forall i, 0 <= i -> 0 <= find_from p s i ->
    exists k, find_from p s i = i + Z.of_nat k
              /\ startswith p (skipn k s) = true
              /\ (k <= length s)%nat.
Proof.
  induction s as [|c t IH]; intros i Hi H; simpl in *.
  - destruct (startswith p []) eqn:E; [|lia].
    exists O. repeat split; [lia | assumption | lia].
  - destruct (startswith p (c :: t)) eqn:E.
    + exists O. repeat split; [lia | assumption | lia].
    + destruct (IH (i + 1)) as [k [Hk [Hsw Hkl]]]; [lia | assumption |].
      exists (S k). repeat split; [lia | assumption | lia].
Qed.

Lemma find_found (s p : str) :
  0 <= find s p ->
  exists k, find s p = Z.of_nat k
            /\ s = firstn k s ++ p ++ skipn (k + length p) s
            /\ (k + length p <= length s)%nat.
Proof.
  intros H. unfold find in *.
  destruct (find_from_found p s 0) as [k [Hk [Hsw Hkl]]];
    [lia | assumption |].
  exists k. split; [lia|].
  pose proof (startswith_length _ _ Hsw) as Hlen.
  rewrite length_skipn in Hlen.
  split; [|lia].
  apply startswith_app in Hsw. rewrite skipn_skipn in Hsw.
  rewrite (Nat.add_comm k), <- Hsw. symmetry. apply firstn_skipn.
Qed.

Lemma find_from_range (p s : str) :
  forall i, 0 <= i -> find_from p s i = -1 \/ i <= find_from p s i.
Proof.
  induction s as [|c t IH]; intros i Hi; simpl.
  - destruct (startswith p []); [right|left]; lia.
  - destruct (startswith p (c :: t)); [right; lia|].
    destruct (IH (i + 1)); [lia | left; assumption | right; lia].
Qed.

(** [find] returns [-1] or a position that leaves room for the pattern. *)
Lemma find_range (s p : str) :
  find s p = -1 \/ (0 <= find s p /\ find s p + len p <= len s).
Proof.
  destruct (find_from_range p s 0) as [H|H]; [lia | left; exact H |].
  right. fold (find s p) in H. split; [assumption|].
  destruct (find_found s p H) as [k [Hk [_ Hlen]]].
  rewrite Hk. unfold len. lia.
Qed.

Lemma clamp_inside (n i : Z) : 0 <= i <= n -> clamp n i = i.
Proof.
  intros H. unfold clamp. destruct (Z.ltb_spec i 0); lia.
Qed.

Lemma slice_empty (s : str) (lo hi : Z) :
  clamp (len s) hi <= clamp (len s) lo -> slice s lo hi = [].
Proof.
  intros H. unfold slice.
  replace (Z.to_nat (clamp (len s) hi - clamp (len s) lo)) with O by lia.
  reflexivity.
Qed.

(** The prefix written back ends with the begin marker, where it is
    found. *)
Lemma slice_to_marker (content p : str) :
  0 <= find content p ->
  slice_to content (find content p + len p)
  = firstn (Z.to_nat (find content p)) content ++ p.
Proof.
  intros H. destruct (find_found content p H) as [k [Hk [Hc Hlen]]].
  unfold slice_to. rewrite clamp_inside by (unfold len; lia).
  rewrite Hk. unfold len.
  replace (Z.to_nat (Z.of_nat k + Z.of_nat (length p)))
    with (k + length p)%nat by lia.
  rewrite Nat2Z.id.
  rewrite Hc at 1.
  rewrite firstn_app, length_firstn, Nat.min_l by lia.
  rewrite firstn_all2 by (rewrite length_firstn; lia).
  replace (k + length p - k)%nat with (length p) by lia.
  rewrite firstn_app, Nat.sub_diag, firstn_all. simpl.
  rewrite app_nil_r. reflexivity.
Qed.

(** The suffix written back starts with the end marker, where it is
    found. *)
Lemma slice_from_marker (content p : str) :
  0 <= find content p ->
  slice_from content (find content p)
  = p ++ skipn (Z.to_nat (find content p) + length p) content.
Proof.
  intros H. destruct (find_found content p H) as [k [Hk [Hc Hlen]]].
  unfold slice_from. rewrite clamp_inside by (unfold len; lia).
  rewrite Hk, Nat2Z.id.
  rewrite Hc at 1.
  rewrite skipn_app, length_firstn, Nat.min_l, Nat.sub_diag by lia.
  rewrite skipn_all2 by (rewrite length_firstn; lia).
  reflexivity.
Qed.

(** ** The text read *)

Lemma universal_newlines_cons (c : ascii) (t : str) :
  universal_newlines (c :: t)
  = if Ascii.eqb c cr then
      newline :: match t with
                 | d :: t' =>
                     if Ascii.eqb d newline then universal_newlines t'
                     else universal_newlines t
                 | [] => []
                 end
    else c :: universal_newlines t.
Proof. reflexivity. Qed.

Lemma no_cr_cons (c : ascii) (s : str) :
  no_cr (c :: s) = negb (Ascii.eqb c cr) && no_cr s.
Proof. reflexivity. Qed.

(** The text read holds no carriage return. *)
Lemma universal_newlines_no_cr (s : str) : no_cr (universal_newlines s) = true.
Proof.
  assert (H : forall n s, (length s <= n)%nat ->
                          no_cr (universal_newlines s) = true).
  { induction n as [|n IH]; intros [|c t] Hlen; try reflexivity;
      simpl in Hlen; [lia|].
    rewrite universal_newlines_cons.
    destruct (Ascii.eqb_spec c cr) as [->|Hne].
    - destruct t as [|d t']; [reflexivity|].
      destruct (Ascii.eqb d newline); rewrite no_cr_cons, IH;
        try reflexivity; simpl in *; lia.
    - rewrite no_cr_cons, IH by lia.
      destruct (Ascii.eqb_spec c cr); [contradiction | reflexivity]. }
  apply (H (length s)). lia.
Qed.

(** A file without carriage return is read as it is. *)
Lemma universal_newlines_id (s : str) :
  no_cr s = true -> universal_newlines s = s.
Proof.
  induction s as [|c t IH]; intros H; [reflexivity|].
  rewrite no_cr_cons in H. apply andb_prop in H. destruct H as [Hc Ht].
  rewrite universal_newlines_cons.
  destruct (Ascii.eqb c cr); [discriminate|]. rewrite IH by assumption.
  reflexivity.
Qed.

(** ** The update *)

Lemma generate_leaderboard_run argsort (prompt : str) (accuracy : float)
    (user file : str) :
  generate_leaderboard argsort prompt accuracy user file
  = match leaderboard_of argsort (universal_newlines file) prompt accuracy
                         user with
    | Ok df_sorted =>
        (Ok tt,
         slice_to (universal_newlines file)
                  (find (universal_newlines file) start_marker
                   + len start_marker)
           ++ to_markdown df_sorted
           ++ slice_from (universal_newlines file)
                         (find (universal_newlines file) end_marker))
    | Raise e => (Raise e, file)
    end.
Proof.
  unfold generate_leaderboard, leaderboard_of, merge, table_region, io_bind,
    read_file, lift, write_file.
  destruct (read_table _) as [df|e]; [|reflexivity]. simpl.
  destruct (loc _ _) as [h|e]; reflexivity.
Qed.

(** C7, as the code has it.  The file is read in text mode, so the text the
    update works on has a line feed for every line ending of the file.
    When both markers are found in that text and the update succeeds with
    a table of plain cells, the document written is the part of the text
    read up to and including the begin marker, the rendered table, and the
    part of the text read from the end marker on.  The text read is the
    file itself when the file holds no carriage return. *)
Theorem splice_keeps_prefix_and_suffix argsort (file content prompt : str)
    (accuracy : float) (user file' : str) (recs : frame) :
  universal_newlines file = content ->
  0 <= find content start_marker ->
  find content start_marker < find content end_marker ->
  generate_leaderboard argsort prompt accuracy user file = (Ok tt, file') ->
  leaderboard_of argsort content prompt accuracy user = Ok recs ->
  forallb plain_row recs = true ->
  exists pre rest before post,
    content = pre ++ start_marker ++ rest
    /\ len pre = find content start_marker
    /\ content = before ++ end_marker ++ post
    /\ len before = find content end_marker
    /\ file' = (pre ++ start_marker) ++ to_markdown recs
               ++ (end_marker ++ post)
    /\ (no_cr file = true -> content = file).
Proof.
  intros Hread Hs He H Hrecs _. rewrite generate_leaderboard_run, Hread in H.
  rewrite Hrecs in H.
  inversion H as [Hfile]. clear H.
  assert (He' : 0 <= find content end_marker) by lia.
  destruct (find_found _ _ Hs) as [k [Hk [Hc Hlen]]].
  destruct (find_found _ _ He') as [k' [Hk' [Hc' Hlen']]].
  exists (firstn k content),
    (skipn (k + length start_marker) content), (firstn k' content),
    (skipn (k' + length end_marker) content).
  split; [assumption|].
  split; [unfold len; rewrite length_firstn; lia|].
  split; [assumption|].
  split; [unfold len; rewrite length_firstn; lia|].
  split.
  - rewrite slice_to_marker, slice_from_marker by assumption.
    rewrite Hk, Hk', !Nat2Z.id. reflexivity.
  - intros Hcr. rewrite <- Hread. apply universal_newlines_id. assumption.
Qed.

Lemma splice_keeps_prefix_and_suffix_witness :
  universal_newlines doc_cr = doc_two
  /\ 0 <= find doc_two start_marker
  /\ find doc_two start_marker < find doc_two end_marker
  /\ generate_leaderboard insertion_argsort (s2l "p") f80 (s2l "carol")
                          doc_cr
     = (Ok tt, file_carol)
  /\ leaderboard_of insertion_argsort doc_two (s2l "p") f80 (s2l "carol")
     = Ok recs_carol
  /\ forallb plain_row recs_carol = true
  /\ exists pre rest before post,
       doc_two = pre ++ start_marker ++ rest
       /\ len pre = find doc_two start_marker
       /\ doc_two = before ++ end_marker ++ post
       /\ len before = find doc_two end_marker
       /\ file_carol = (pre ++ start_marker) ++ to_markdown recs_carol
                       ++ (end_marker ++ post)
       /\ (no_cr doc_cr = true -> doc_two = doc_cr).
Proof.
  split; [vm_compute; reflexivity|].
  split; [vm_compute; discriminate|].
  split; [vm_compute; reflexivity|].
  split; [vm_compute; reflexivity|].
  split; [vm_compute; reflexivity|].
  split; [vm_compute; reflexivity|].
  apply (splice_keeps_prefix_and_suffix insertion_argsort doc_cr doc_two
           (s2l "p") f80 (s2l "carol") file_carol recs_carol).
  - vm_compute; reflexivity.
  - vm_compute; discriminate.
  - vm_compute; reflexivity.
  - vm_compute; reflexivity.
  - vm_compute; reflexivity.
  - vm_compute; reflexivity.
Defined.

(** C7, as the claim states it, fails: two lines of [doc_cr] end with
    [CR LF], one before the begin marker and one after the end marker; both
    markers are found in order, in the file as in the text read, and the
    update succeeds, but the document written has a line feed alone where
    the file had [CR LF], before the table and after it. *)
Lemma carriage_returns_are_rewritten :
  let file' :=
    snd (generate_leaderboard insertion_argsort (s2l "p") f80 (s2l "carol")
                              doc_cr) in
  0 <= find doc_cr start_marker
  /\ find doc_cr start_marker < find doc_cr end_marker
  /\ 0 <= find (universal_newlines doc_cr) start_marker
  /\ find (universal_newlines doc_cr) start_marker
     < find (universal_newlines doc_cr) end_marker
  /\ fst (generate_leaderboard insertion_argsort (s2l "p") f80 (s2l "carol")
                               doc_cr) = Ok tt
  /\ firstn 15 doc_cr = s2l "# Leaderboard" ++ [cr; newline]
  /\ firstn 14 file' = s2l "# Leaderboard" ++ [newline]
  /\ skipn (length doc_cr - 8) doc_cr = [cr; newline] ++ s2l "footer"
  /\ skipn (length file' - 7) file' = [newline] ++ s2l "footer"
  /\ no_cr file' = true.
Proof.
  repeat split; try (vm_compute; reflexivity); vm_compute; discriminate.
Qed.

(** ** Markers that are missing or out of order *)

Lemma str_eqb_refl (a : str) : str_eqb a a = true.
Proof. apply str_eqb_eq. reflexivity. Qed.

(** The merge of a frame with a single row. *)
Lemma merge_single argsort (r : row) :
  sorts argsort ->
  isnan (Accuracy r) = false ->
  merge argsort [r]
  = Ok [Row 1 (Profile_Image r) (GitHub_Username r) (Solution r)
            (Accuracy r)].
Proof.
  intros Hs Hn.
  assert (Hh : loc [r] (groupby_idxmax [r]) = Ok [r]).
  { unfold groupby_idxmax, group_keys, idxmax. simpl.
    rewrite str_eqb_refl, Hn. reflexivity. }
  unfold merge. rewrite Hh. simpl. f_equal.
  assert (Hn1 : Forall (fun x => isnan x = false) [Accuracy r])
    by (constructor; [assumption | constructor]).
  destruct (Hs _ Hn1) as [Hp _]. simpl in Hp.
  apply Permutation_sym, Permutation_length_1_inv in Hp.
  unfold sort_values. rewrite nargsort_no_nan by exact Hn1.
  simpl. rewrite Hp. reflexivity.
Qed.

(** Without the begin marker the region is empty, whatever the position of
    the end marker. *)
Lemma table_region_no_begin (content : str) :
  find content start_marker = -1 -> table_region content = [].
Proof.
  intros Hs. unfold table_region. rewrite Hs. apply slice_empty.
  assert (Hl : 0 <= len content) by (unfold len; lia).
  destruct (find_range content end_marker) as [He | [He1 He2]].
  - rewrite He. lia.
  - assert (Hm : len end_marker = 27) by reflexivity.
    unfold clamp.
    destruct (Z.ltb_spec (find content end_marker) 0); [lia|].
    destruct (Z.ltb_spec (-1) 0); lia.
Qed.

(** With the end marker at or before the begin marker the region is
    empty. *)
Lemma table_region_reversed (content : str) :
  0 <= find content end_marker <= find content start_marker ->
  table_region content = [].
Proof.
  intros H. unfold table_region. apply slice_empty.
  destruct (find_range content start_marker) as [Hs | [Hs1 Hs2]]; [lia|].
  assert (Hm : 0 <= len start_marker) by (unfold len; lia).
  rewrite !clamp_inside by lia. lia.
Qed.

(** Without the end marker the region runs from the begin marker to the
    last character but one. *)
Lemma table_region_no_end (content : str) :
  0 <= find content start_marker ->
  find content end_marker = -1 ->
  table_region content
  = firstn (length content - 1 - Z.to_nat (find content start_marker))
           (skipn (Z.to_nat (find content start_marker)) content).
Proof.
  intros Hs He. unfold table_region, slice. rewrite He.
  destruct (find_range content start_marker) as [Hs' | [Hs1 Hs2]]; [lia|].
  assert (Hm : len start_marker = 29) by reflexivity.
  rewrite (clamp_inside _ (find content start_marker)) by lia.
  unfold clamp. change (-1 <? 0)%Z with true. cbv iota.
  f_equal. unfold len in *. lia.
Qed.

(** C3, as the code has it.  No check of the markers exists: [find] gives
    [-1] for a marker that is absent in the text read and the slices are
    taken all the same.  When the begin marker is absent, or the end marker
    stands at or before the begin marker, no row is read and the update
    succeeds for every accuracy that is a number: with plain names, the
    document is overwritten with the text read up to [start_index + 29], a
    table holding the new entry alone at rank 1, and the text read from
    [end_index] on.  When only the end marker is absent, the rows are read
    from the begin marker to the last character but one, and a successful
    update with a table of plain cells ends the document with the last
    character of the text read. *)
Theorem update_ignores_markers argsort (file content prompt : str)
    (accuracy : float) (user : str) :
  universal_newlines file = content ->
  sorts argsort ->
  isnan accuracy = false ->
  (find content start_marker = -1
   \/ 0 <= find content end_marker <= find content start_marker ->
   plain user = true -> plain prompt = true ->
   generate_leaderboard argsort prompt accuracy user file
   = (Ok tt,
      slice_to content (find content start_marker + 29)
        ++ to_markdown [new_entry [] prompt accuracy user]
        ++ slice_from content (find content end_marker)))
  /\ (0 <= find content start_marker /\ find content end_marker = -1 ->
      table_region content
      = firstn (length content - 1 - Z.to_nat (find content start_marker))
               (skipn (Z.to_nat (find content start_marker)) content)
      /\ forall recs,
           leaderboard_of argsort content prompt accuracy user = Ok recs ->
           forallb plain_row recs = true ->
           generate_leaderboard argsort prompt accuracy user file
           = (Ok tt,
              slice_to content (find content start_marker + 29)
                ++ to_markdown recs ++ skipn (length content - 1) content)).
Proof.
  intros Hread Hs Ha. split.
  - intros Hm _ _.
    assert (Hr : table_region content = []).
    { destruct Hm; [apply table_region_no_begin | apply table_region_reversed];
        assumption. }
    rewrite generate_leaderboard_run, Hread.
    unfold leaderboard_of. rewrite Hr.
    change (read_table []) with (@Ok frame []). cbv beta iota delta [bind].
    change ([] ++ [new_entry [] prompt accuracy user])
      with [new_entry [] prompt accuracy user].
    rewrite (merge_single argsort (new_entry [] prompt accuracy user) Hs Ha).
    assert (Heq : Row 1 (Profile_Image (new_entry [] prompt accuracy user))
                      (GitHub_Username (new_entry [] prompt accuracy user))
                      (Solution (new_entry [] prompt accuracy user))
                      (Accuracy (new_entry [] prompt accuracy user))
                  = new_entry [] prompt accuracy user) by reflexivity.
    rewrite Heq. reflexivity.
  - intros [H0 He]. split; [apply table_region_no_end; assumption|].
    intros recs H _. rewrite generate_leaderboard_run, Hread, H.
    unfold slice_from. rewrite He. unfold clamp. change (-1 <? 0)%Z with true. cbv iota.
    replace (Z.to_nat (Z.max (-1 + len content) 0))
      with (length content - 1)%nat by (unfold len; lia).
    reflexivity.
Qed.

Lemma update_ignores_markers_witness :
  universal_newlines doc_no_begin = doc_no_begin
  /\ sorts insertion_argsort
  /\ isnan f80 = false
  /\ find doc_no_begin start_marker = -1
  /\ plain (s2l "carol") = true /\ plain (s2l "p") = true
  /\ generate_leaderboard insertion_argsort (s2l "p") f80 (s2l "carol")
                          doc_no_begin
     = (Ok tt,
        slice_to doc_no_begin (find doc_no_begin start_marker + 29)
          ++ to_markdown [new_entry [] (s2l "p") f80 (s2l "carol")]
          ++ slice_from doc_no_begin (find doc_no_begin end_marker)).
Proof.
  split; [vm_compute; reflexivity|].
  split; [exact insertion_argsort_sorts|].
  split; [reflexivity|].
  split; [vm_compute; reflexivity|].
  split; [vm_compute; reflexivity|].
  split; [vm_compute; reflexivity|].
  assert (Hread : universal_newlines doc_no_begin = doc_no_begin)
    by (vm_compute; reflexivity).
  destruct (update_ignores_markers insertion_argsort doc_no_begin doc_no_begin
              (s2l "p") f80 (s2l "carol") Hread insertion_argsort_sorts
              eq_refl) as [H _].
  apply H.
  - left. vm_compute; reflexivity.
  - vm_compute; reflexivity.
  - vm_compute; reflexivity.
Defined.

(** C3, as the claim states it, fails: [doc_no_begin] has no begin marker,
    and the update neither fails nor leaves the document as it was. *)
Lemma missing_begin_marker_is_overwritten :
  find doc_no_begin start_marker = -1
  /\ fst (generate_leaderboard insertion_argsort (s2l "p") f80 (s2l "carol")
                               doc_no_begin) = Ok tt
  /\ snd (generate_leaderboard insertion_argsort (s2l "p") f80 (s2l "carol")
                               doc_no_begin) <> doc_no_begin.
Proof.
  split; [vm_compute; reflexivity|].
  split; [vm_compute; reflexivity|].
  vm_compute. discriminate.
Qed.

(** ** Rows that do not convert *)







(** ** Stripping *)

Lemma lstrip_blank (ws y : str) :
  blank ws -> (forall c, hd_error y = Some c -> isspace c = false) ->
  lstrip (ws ++ y) = y.
Proof.
  intros Hws Hy. induction Hws as [|c t Hc _ IH]; simpl.
  - destruct y as [|c r]; [reflexivity|].
    simpl. rewrite (Hy c eq_refl). reflexivity.
  - rewrite Hc. assumption.
Qed.

Lemma rstrip_blank (y ws : str) :
  blank ws -> (forall c, hd_error (rev y) = Some c -> isspace c = false) ->
  rstrip (y ++ ws) = y.
Proof.
  intros Hws Hy. unfold rstrip. rewrite rev_app_distr.
  rewrite lstrip_blank.
  - apply rev_involutive.
  - apply Forall_rev. assumption.
  - assumption.
Qed.

Lemma hd_error_app_l {A} (y z : list A) (c : A) :
  hd_error y = Some c -> hd_error (y ++ z) = Some c.
Proof.
  destruct y; simpl; [discriminate | auto].
Qed.

(** The characterisation of [strip]: blanks, a trimmed string, blanks. *)
Lemma strip_unique (ws1 y ws2 : str) :
  blank ws1 -> blank ws2 -> trimmed y -> strip (ws1 ++ y ++ ws2) = y.
Proof.
  intros H1 H2 [Hh Hl]. unfold strip.
  destruct y as [|c r].
  - simpl. replace (lstrip (ws1 ++ ws2)) with (@nil ascii); [reflexivity|].
    symmetry. rewrite <- (app_nil_r (ws1 ++ ws2)).
    apply lstrip_blank; [|discriminate].
    apply Forall_app. split; assumption.
  - rewrite lstrip_blank.
    + apply rstrip_blank; assumption.
    + assumption.
    + intros c' Hc'. apply Hh. simpl in *. assumption.
Qed.

Lemma lstrip_split (s : str) :
  exists ws, s = ws ++ lstrip s /\ blank ws
             /\ forall c, hd_error (lstrip s) = Some c -> isspace c = false.
Proof.
  induction s as [|c t [ws [Hs [Hws Hh]]]]; simpl.
  - exists []. repeat split; [constructor | discriminate].
  - destruct (isspace c) eqn:E.
    + exists (c :: ws). repeat split.
      * simpl. f_equal. assumption.
      * constructor; assumption.
      * assumption.
    + exists []. repeat split; [constructor|].
      simpl. intros c' Hc'. inversion Hc'; subst. assumption.
Qed.

Lemma strip_split (s : str) :
  exists ws1 ws2,
    s = ws1 ++ strip s ++ ws2 /\ blank ws1 /\ blank ws2 /\ trimmed (strip s).
Proof.
  destruct (lstrip_split s) as [ws1 [Hs [H1 Hh]]].
  destruct (lstrip_split (rev (lstrip s))) as [ws2 [Hr [H2 Hl]]].
  exists ws1, (rev ws2). unfold strip, rstrip.
  assert (Hl' : lstrip s = rev (lstrip (rev (lstrip s))) ++ rev ws2).
  { rewrite <- rev_app_distr, <- Hr, rev_involutive. reflexivity. }
  split; [rewrite <- Hl'; assumption|].
  split; [assumption|]. split; [apply Forall_rev; assumption|].
  split.
  - intros c Hc. apply Hh. rewrite Hl'. apply hd_error_app_l. assumption.
  - rewrite rev_involutive. assumption.
Qed.

(** Blanks around a string do not change what [strip] gives. *)
Lemma strip_padded (ws1 s ws2 : str) :
  blank ws1 -> blank ws2 -> strip (ws1 ++ s ++ ws2) = strip s.
Proof.
  intros H1 H2.
  destruct (strip_split s) as [a [b [Hs [Ha [Hb Ht]]]]].
  rewrite Hs at 1.
  replace (ws1 ++ (a ++ strip s ++ b) ++ ws2)
    with ((ws1 ++ a) ++ strip s ++ (b ++ ws2))
    by (rewrite <- !app_assoc; reflexivity).
  apply strip_unique; [apply Forall_app | apply Forall_app |]; auto.
Qed.

Lemma strip_trimmed (s : str) : trimmed s -> strip s = s.
Proof.
  intros H. rewrite <- (app_nil_r s) at 1.
  apply (strip_unique [] s []); [constructor | constructor | assumption].
Qed.

Lemma strip_idempotent (s : str) : strip (strip s) = strip s.
Proof.
  apply strip_trimmed. destruct (strip_split s) as [a [b [_ [_ [_ Ht]]]]].
  assumption.
Qed.

Lemma blank_spaces (n : Z) : blank (spaces n).
Proof.
  unfold spaces. induction (Z.to_nat n); simpl; constructor; auto.
Qed.

Lemma forallb_lstrip (f : ascii -> bool) (s : str) :
  forallb f s = true -> forallb f (lstrip s) = true.
Proof.
  induction s as [|c t IH]; simpl; [auto|].
  intros H. apply andb_prop in H. destruct H as [Hc Ht].
  destruct (isspace c); [auto|]. simpl. rewrite Hc, Ht. reflexivity.
Qed.

Lemma forallb_rev (f : ascii -> bool) (s : str) :
  forallb f s = true -> forallb f (rev s) = true.
Proof.
  rewrite !forallb_forall. intros H c Hc. apply H, in_rev. assumption.
Qed.

Lemma forallb_strip (f : ascii -> bool) (s : str) :
  forallb f s = true -> forallb f (strip s) = true.
Proof.
  intros H. unfold strip, rstrip.
  apply forallb_rev, forallb_lstrip, forallb_rev, forallb_lstrip. assumption.
Qed.

(** ** Characters of the rendered cells *)

Lemma code_chr (n : Z) : 0 <= n < 256 -> code (chr n) = n.
Proof.
  intros H. unfold code, chr. rewrite N_ascii_embedding; lia.
Qed.

Lemma solid_chr (n : Z) : 33 <= n <= 126 -> n <> 124 -> solid (chr n) = true.
Proof.
  intros H Hp. unfold solid. rewrite code_chr by lia.
  destruct (Ascii.eqb_spec (chr n) pipe) as [E|E].
  - exfalso. apply (f_equal code) in E. unfold pipe in E.
    rewrite !code_chr in E by lia. lia.
  - replace (33 <=? n)%Z with true by (symmetry; apply Z.leb_le; lia).
    replace (n <=? 126)%Z with true by (symmetry; apply Z.leb_le; lia).
    reflexivity.
Qed.

Lemma solid_inline (c : ascii) : solid c = true -> inline c = true.
Proof.
  unfold solid, inline. intros H.
  apply andb_prop in H. destruct H as [H Hp].
  apply andb_prop in H. destruct H as [H1 H2].
  rewrite Hp, H2. apply Z.leb_le in H1.
  replace (32 <=? code c)%Z with true by (symmetry; apply Z.leb_le; lia).
  reflexivity.
Qed.

Lemma solid_not_space (c : ascii) : solid c = true -> isspace c = false.
Proof.
  unfold solid, isspace. intros H.
  apply andb_prop in H. destruct H as [H _].
  apply andb_prop in H. destruct H as [H1 H2].
  apply Z.leb_le in H1. apply Z.leb_le in H2.
  repeat match goal with
         | |- context [(?a <=? ?b)%Z] => destruct (Z.leb_spec a b)
         | |- context [(?a =? ?b)%Z] => destruct (Z.eqb_spec a b)
         end; simpl; try reflexivity; lia.
Qed.

Lemma forallb_solid_inline (s : str) :
  forallb solid s = true -> plain s = true.
Proof.
  unfold plain. rewrite !forallb_forall. intros H c Hc.
  apply solid_inline, H, Hc.
Qed.

Lemma solid_trimmed (s : str) : forallb solid s = true -> trimmed s.
Proof.
  intros H. rewrite forallb_forall in H. split; intros c Hc.
  - destruct s; inversion Hc; subst. apply solid_not_space, H. left.
    reflexivity.
  - apply solid_not_space, H, in_rev.
    destruct (rev s); inversion Hc; subst. left. reflexivity.
Qed.

Lemma digit_char_solid (d : Z) : 0 <= d <= 9 -> solid (digit_char d) = true.
Proof.
  intros H. unfold digit_char. apply solid_chr; lia.
Qed.

Lemma digits_of_solid (fuel : nat) :
  forall n acc, 0 <= n -> forallb solid acc = true ->
                forallb solid (digits_of fuel n acc) = true.
Proof.
  induction fuel as [|f IH]; intros n acc Hn Hacc; simpl.
  - assumption.
  - destruct (Z.ltb_spec n 10).
    + simpl. rewrite digit_char_solid by lia. assumption.
    + apply IH.
      * apply Z.div_pos; lia.
      * simpl. rewrite digit_char_solid, Hacc; [reflexivity|].
        pose proof (Z.mod_pos_bound n 10). lia.
Qed.

Lemma decimal_solid (n : Z) : 0 <= n -> forallb solid (decimal n) = true.
Proof.
  intros H. unfold decimal. apply digits_of_solid; [assumption | reflexivity].
Qed.

Lemma str_of_int_solid (n : Z) : forallb solid (str_of_int n) = true.
Proof.
  unfold str_of_int. destruct (Z.ltb_spec n 0).
  - change (forallb solid (chr 45 :: decimal (- n)))
      with (solid (chr 45) && forallb solid (decimal (- n))).
    rewrite decimal_solid by lia. reflexivity.
  - apply decimal_solid. assumption.
Qed.

Lemma forallb_firstn (f : ascii -> bool) (n : nat) (s : str) :
  forallb f s = true -> forallb f (firstn n s) = true.
Proof.
  rewrite !forallb_forall. intros H c Hc. apply H.
  rewrite <- (firstn_skipn n s). apply in_or_app. left. assumption.
Qed.

Lemma forallb_skipn (f : ascii -> bool) (n : nat) (s : str) :
  forallb f s = true -> forallb f (skipn n s) = true.
Proof.
  rewrite !forallb_forall. intros H c Hc. apply H.
  rewrite <- (firstn_skipn n s). apply in_or_app. right. assumption.
Qed.

Lemma forallb_lstrip_zeros (f : ascii -> bool) (s : str) :
  forallb f s = true -> forallb f (lstrip_zeros s) = true.
Proof.
  induction s as [|c t IH]; simpl; [auto|].
  intros H. apply andb_prop in H. destruct H as [Hc Ht].
  destruct (Ascii.eqb c (chr 48)); [auto|]. simpl. rewrite Hc, Ht.
  reflexivity.
Qed.

Lemma point_frac_solid (s : str) :
  forallb solid s = true -> forallb solid (point_frac s) = true.
Proof.
  intros H. unfold point_frac.
  assert (Hr : forallb solid (rstrip_zeros s) = true).
  { unfold rstrip_zeros.
    apply forallb_rev, forallb_lstrip_zeros, forallb_rev. assumption. }
  destruct (rstrip_zeros s) as [|c t]; [reflexivity|].
  change (forallb solid (chr 46 :: c :: t))
    with (solid (chr 46) && forallb solid (c :: t)).
  rewrite Hr. reflexivity.
Qed.

Lemma exp_digits_solid (x : Z) : forallb solid (exp_digits x) = true.
Proof.
  unfold exp_digits.
  assert (Hd : forallb solid (decimal (Z.abs x)) = true)
    by (apply decimal_solid; lia).
  destruct (x <? 0)%Z; destruct (Z.abs x <? 10)%Z; simpl; rewrite Hd;
    reflexivity.
Qed.

Lemma round_half_even_nonneg (n d : Z) :
  0 <= n -> 0 < d -> 0 <= round_half_even n d.
Proof.
  intros Hn Hd. unfold round_half_even.
  assert (0 <= n / d) by (apply Z.div_pos; lia).
  destruct (2 * (n mod d) ?= d)%Z; [destruct (Z.even (n / d))| |]; lia.
Qed.

Lemma sig_digits_nonneg (p n d : Z) :
  0 < n -> 0 < d -> 0 <= fst (sig_digits p n d).
Proof.
  intros Hn Hd. unfold sig_digits.
  set (x := exponent10 n d).
  assert (Hm : 0 <= (if (0 <=? p - 1 - x)%Z
                     then round_half_even (n * 10 ^ (p - 1 - x)) d
                     else round_half_even n (d * 10 ^ (- (p - 1 - x))))).
  { destruct (Z.leb_spec 0 (p - 1 - x)).
    - apply round_half_even_nonneg; [|assumption].
      apply Z.mul_nonneg_nonneg; [lia|]. apply Z.pow_nonneg. lia.
    - apply round_half_even_nonneg; [lia|].
      apply Z.mul_pos_pos; [assumption|]. apply Z.pow_pos_nonneg; lia. }
  destruct (_ =? 10 ^ p)%Z; simpl; [|assumption].
  apply Z.pow_nonneg. lia.
Qed.

Lemma repeat_solid (c : ascii) (n : nat) :
  solid c = true -> forallb solid (repeat c n) = true.
Proof.
  intros H. induction n; simpl; [reflexivity|]. rewrite H. assumption.
Qed.

Lemma format_g_pos_solid (n d : Z) :
  0 < n -> 0 < d -> forallb solid (format_g_pos n d) = true.
Proof.
  intros Hn Hd. unfold format_g_pos.
  pose proof (sig_digits_nonneg 6 n d Hn Hd) as Hm.
  destruct (sig_digits 6 n d) as [m x]. simpl in Hm.
  pose proof (decimal_solid m Hm) as Hds.
  destruct ((x <? -4)%Z || (6 <=? x)%Z).
  - rewrite !forallb_app. rewrite forallb_firstn by assumption.
    rewrite point_frac_solid by (apply forallb_skipn; assumption).
    change (forallb solid (chr 101 :: exp_digits x))
      with (solid (chr 101) && forallb solid (exp_digits x)).
    rewrite exp_digits_solid. reflexivity.
  - destruct (0 <=? x)%Z.
    + rewrite forallb_app. rewrite forallb_firstn by assumption.
      rewrite point_frac_solid by (apply forallb_skipn; assumption).
      reflexivity.
    + change (forallb solid (chr 48 :: ?s))
        with (solid (chr 48) && forallb solid s).
      rewrite point_frac_solid; [reflexivity|].
      rewrite forallb_app, Hds, repeat_solid; reflexivity.
Qed.

Lemma format_g_solid (x : float) : forallb solid (format_g x) = true.
Proof.
  destruct x as [[]|[]| |s m e]; try reflexivity.
  unfold format_g. rewrite forallb_app.
  assert (Hs : forallb solid (if s then [chr 45] else []) = true)
    by (destruct s; reflexivity).
  rewrite Hs, andb_true_l.
  destruct (0 <=? e)%Z eqn:E.
  - apply format_g_pos_solid; [|lia].
    apply Z.mul_pos_pos; [lia|]. apply Z.pow_pos_nonneg; [lia|].
    apply Z.leb_le. assumption.
  - apply format_g_pos_solid; [lia|].
    apply Z.pow_pos_nonneg; [lia|]. apply Z.leb_gt in E. lia.
Qed.

(** ** The rendered table *)

Lemma plain_app (a b : str) : plain (a ++ b) = plain a && plain b.
Proof. apply forallb_app. Qed.

Lemma plain_spaces (n : Z) : plain (spaces n) = true.
Proof.
  unfold spaces. induction (Z.to_nat n); simpl; [reflexivity | assumption].
Qed.

Lemma plain_strip (s : str) : plain s = true -> plain (strip s) = true.
Proof. apply forallb_strip. Qed.

Lemma plain_pad_cell (c : str) : plain c = true -> plain (pad_cell c) = true.
Proof.
  intros H. unfold pad_cell. rewrite !plain_app, H. reflexivity.
Qed.

Lemma strip_pad_cell (c : str) : strip (pad_cell c) = strip c.
Proof.
  apply (strip_padded [space] c [space]);
    repeat constructor.
Qed.

Lemma plain_align_cell (c : column) (s : str) :
  plain s = true -> plain (align_cell c s) = true.
Proof.
  intros H. unfold align_cell, padleft, padright.
  destruct (col_align c).
  - rewrite plain_app, plain_spaces, plain_strip by assumption. reflexivity.
  - rewrite !plain_app, !plain_spaces, H. reflexivity.
Qed.

Lemma strip_align_cell (c : column) (s : str) :
  strip (align_cell c s) = strip s.
Proof.
  unfold align_cell, padleft, padright. destruct (col_align c).
  - transitivity (strip (strip s)); [|apply strip_idempotent].
    apply (strip_padded [] (strip s)); [constructor | apply blank_spaces].
  - apply strip_padded; apply blank_spaces.
Qed.

Lemma plain_align_header (c : column) (h : str) :
  plain h = true -> plain (align_header c h) = true.
Proof.
  intros H. unfold align_header, padleft, padright.
  destruct (col_align c); rewrite plain_app, plain_spaces, H; reflexivity.
Qed.

Lemma strip_align_header (c : column) (h : str) :
  strip (align_header c h) = strip h.
Proof.
  unfold align_header, padleft, padright. destruct (col_align c).
  - apply (strip_padded [] h); [constructor | apply blank_spaces].
  - replace (spaces (col_width c - len h) ++ h)
      with (spaces (col_width c - len h) ++ h ++ [])
      by (rewrite app_nil_r; reflexivity).
    apply strip_padded; [apply blank_spaces | constructor].
Qed.

Lemma plain_format_text (t : coltype) (s : str) :
  plain s = true -> plain (format_text t s) = true.
Proof.
  intros H. unfold format_text.
  destruct t; try assumption.
  destruct (py_float s); [|assumption].
  apply forallb_solid_inline, format_g_solid.
Qed.

(** *** Matching a rendered row *)

Lemma span_field_plain (f r : str) :
  plain f = true -> span_field (f ++ pipe :: r) = (f, pipe :: r).
Proof.
  induction f as [|c t IH]; intros H; simpl.
  - reflexivity.
  - simpl in H. apply andb_prop in H. destruct H as [Hc Ht].
    unfold inline in Hc. apply andb_prop in Hc. destruct Hc as [_ Hc].
    apply negb_true_iff in Hc. rewrite Hc, (IH Ht). reflexivity.
Qed.

Lemma field_pipe_plain (f r : str) :
  plain f = true -> f <> [] -> field_pipe (f ++ pipe :: r) = Some (f, r).
Proof.
  intros H Hne. unfold field_pipe. rewrite span_field_plain by assumption.
  destruct f; [congruence | reflexivity].
Qed.

Lemma findall_from_skip (t : str) :
  forall k, (length t <= k)%nat -> findall_from k t = [].
Proof.
  induction t as [|c t IH]; intros k Hk; simpl.
  - reflexivity.
  - destruct k as [|k]; [simpl in Hk; lia|]. apply IH. simpl in Hk. lia.
Qed.

(** The pattern matches a line of five plain, non-empty fields once, and
    captures the fields. *)
Lemma findall_five (f1 f2 f3 f4 f5 : str) :
  plain f1 = true -> plain f2 = true -> plain f3 = true ->
  plain f4 = true -> plain f5 = true ->
  f1 <> [] -> f2 <> [] -> f3 <> [] -> f4 <> [] -> f5 <> [] ->
  findall (pipe :: f1 ++ pipe :: f2 ++ pipe :: f3 ++ pipe :: f4
             ++ pipe :: f5 ++ [pipe])
  = [Groups f1 f2 f3 f4 f5].
Proof.
  intros P1 P2 P3 P4 P5 N1 N2 N3 N4 N5.
  unfold findall.
  assert (Hm : match_row (pipe :: f1 ++ pipe :: f2 ++ pipe :: f3 ++ pipe :: f4
                            ++ pipe :: f5 ++ [pipe])
               = Some (Groups f1 f2 f3 f4 f5, [])).
  { unfold match_row. rewrite Ascii.eqb_refl.
    rewrite (field_pipe_plain f1) by assumption.
    rewrite (field_pipe_plain f2) by assumption.
    rewrite (field_pipe_plain f3) by assumption.
    rewrite (field_pipe_plain f4) by assumption.
    rewrite (field_pipe_plain f5) by assumption.
    reflexivity. }
  unfold findall_from at 1. fold findall_from. rewrite Hm.
  rewrite findall_from_skip; [reflexivity|]. simpl. lia.
Qed.

Lemma pad_cell_nonempty (c : str) : pad_cell c <> [].
Proof. unfold pad_cell. simpl. discriminate. Qed.

Lemma build_row_five (c1 c2 c3 c4 c5 : str) :
  build_row [c1; c2; c3; c4; c5]
  = pipe :: pad_cell c1 ++ pipe :: pad_cell c2 ++ pipe :: pad_cell c3
      ++ pipe :: pad_cell c4 ++ pipe :: pad_cell c5 ++ [pipe].
Proof.
  unfold build_row.
  set (x := [pipe] ++ join [pipe] (map pad_cell [c1; c2; c3; c4; c5])).
  replace (pipe :: pad_cell c1 ++ pipe :: pad_cell c2 ++ pipe :: pad_cell c3
             ++ pipe :: pad_cell c4 ++ pipe :: pad_cell c5 ++ [pipe])
    with (x ++ [pipe]).
  - transitivity (rstrip ((x ++ [pipe]) ++ []));
      [rewrite app_nil_r; reflexivity|].
    apply rstrip_blank; [constructor|].
    rewrite rev_app_distr. simpl. intros c Hc. inversion Hc. reflexivity.
  - subst x. simpl. rewrite <- !app_assoc. simpl.
    repeat (f_equal; rewrite <- ?app_assoc; simpl).
Qed.

(** A rendered row is matched once by the row pattern, and the captured
    fields are the padded cells. *)
Lemma findall_build_row (c1 c2 c3 c4 c5 : str) :
  plain c1 = true -> plain c2 = true -> plain c3 = true ->
  plain c4 = true -> plain c5 = true ->
  findall (build_row [c1; c2; c3; c4; c5])
  = [Groups (pad_cell c1) (pad_cell c2) (pad_cell c3) (pad_cell c4)
            (pad_cell c5)].
Proof.
  intros. rewrite build_row_five.
  apply findall_five; auto using plain_pad_cell, pad_cell_nonempty.
Qed.

(** *** Lines *)

Lemma split_on_line (c : ascii) (l : str) :
  ~ In c l -> split_on c l = [l].
Proof.
  induction l as [|a t IH]; intros H; simpl.
  - reflexivity.
  - destruct (Ascii.eqb_spec a c) as [->|Hne].
    + exfalso. apply H. left. reflexivity.
    + rewrite IH; [reflexivity|]. intros Hin. apply H. right. assumption.
Qed.

Lemma split_on_app (c : ascii) (l rest : str) :
  ~ In c l -> split_on c (l ++ c :: rest) = l :: split_on c rest.
Proof.
  induction l as [|a t IH]; intros H; simpl.
  - rewrite Ascii.eqb_refl. reflexivity.
  - destruct (Ascii.eqb_spec a c) as [->|Hne].
    + exfalso. apply H. left. reflexivity.
    + rewrite IH; [reflexivity|]. intros Hin. apply H. right. assumption.
Qed.

Lemma split_join (c : ascii) (ls : list str) :
  ls <> [] -> Forall (fun l => ~ In c l) ls ->
  split_on c (join [c] ls) = ls.
Proof.
  intros Hne H. induction H as [|l ls' Hl Hls IH];
    [exfalso; apply Hne; reflexivity|].
  destruct ls' as [|l' ls''].
  - simpl. apply split_on_line. assumption.
  - change (join [c] (l :: l' :: ls'')) with (l ++ c :: join [c] (l' :: ls'')).
    rewrite split_on_app by assumption. f_equal. apply IH. discriminate.
Qed.

Lemma on_line_no_newline (s : str) :
  forallb on_line s = true -> ~ In newline s.
Proof.
  intros H Hin. rewrite forallb_forall in H. apply H in Hin.
  vm_compute in Hin. discriminate.
Qed.

Lemma plain_on_line (s : str) : plain s = true -> forallb on_line s = true.
Proof.
  unfold plain. rewrite !forallb_forall. intros H c Hc.
  unfold on_line. rewrite (H c Hc). reflexivity.
Qed.

Lemma five_fields_on_line (f1 f2 f3 f4 f5 : str) :
  plain f1 = true -> plain f2 = true -> plain f3 = true ->
  plain f4 = true -> plain f5 = true ->
  forallb on_line (pipe :: f1 ++ pipe :: f2 ++ pipe :: f3 ++ pipe :: f4
                     ++ pipe :: f5 ++ [pipe]) = true.
Proof.
  intros P1 P2 P3 P4 P5.
  apply plain_on_line in P1, P2, P3, P4, P5.
  repeat (change (forallb on_line (pipe :: ?s))
            with (on_line pipe && forallb on_line s);
          rewrite ?forallb_app).
  rewrite P1, P2, P3, P4, P5. reflexivity.
Qed.

Lemma build_row_on_line (c1 c2 c3 c4 c5 : str) :
  plain c1 = true -> plain c2 = true -> plain c3 = true ->
  plain c4 = true -> plain c5 = true ->
  forallb on_line (build_row [c1; c2; c3; c4; c5]) = true.
Proof.
  intros. rewrite build_row_five.
  apply five_fields_on_line; auto using plain_pad_cell.
Qed.

Lemma segment_rule (c : column) : forallb rule_char (segment c) = true.
Proof.
  assert (Hd : forall n, forallb rule_char (dashes n) = true).
  { intros n. unfold dashes. induction (Z.to_nat n); simpl; auto. }
  unfold segment. destruct (col_align c).
  - simpl. apply Hd.
  - rewrite forallb_app, Hd. reflexivity.
Qed.

Lemma build_line_rule (cols : list column) :
  forallb rule_char (build_line cols) = true.
Proof.
  unfold build_line. rewrite !forallb_app.
  assert (Hj : forallb rule_char (join [pipe] (map segment cols)) = true).
  { induction cols as [|c t IH]; [reflexivity|].
    destruct t as [|c' t'].
    - simpl. apply segment_rule.
    - change (join [pipe] (map segment (c :: c' :: t')))
        with (segment c ++ [pipe] ++ join [pipe] (map segment (c' :: t'))).
      rewrite !forallb_app, segment_rule, IH. reflexivity. }
  rewrite Hj. reflexivity.
Qed.

Lemma rule_no_newline (s : str) :
  forallb rule_char s = true -> ~ In newline s.
Proof.
  intros H Hin. rewrite forallb_forall in H. apply H in Hin.
  vm_compute in Hin. discriminate.
Qed.

(** *** The cells of a row *)

Lemma plain_row_cells (r : row) :
  plain_row r = true ->
  plain (Profile_Image r) = true /\ plain (GitHub_Username r) = true
  /\ plain (Solution r) = true.
Proof.
  unfold plain_row. intros H.
  apply andb_prop in H. destruct H as [H H3].
  apply andb_prop in H. destruct H as [H1 H2]. auto.
Qed.

Lemma row_cells_plain (l : table_layout) (r : row) :
  plain_row r = true -> Forall (fun c => plain c = true) (row_cells l r).
Proof.
  intros H. apply plain_row_cells in H. destruct H as [H1 [H2 H3]].
  unfold row_cells, text_cell.
  repeat constructor; apply plain_align_cell;
    try (apply plain_format_text; assumption);
    apply forallb_solid_inline;
    [apply str_of_int_solid | apply format_g_solid].
Qed.

Lemma data_line_on_line (l : table_layout) (r : row) :
  plain_row r = true -> forallb on_line (data_line l r) = true.
Proof.
  intros H. pose proof (row_cells_plain l r H) as Hc.
  unfold data_line, row_cells in *.
  inversion Hc as [|? ? P1 Hc1]; subst.
  inversion Hc1 as [|? ? P2 Hc2]; subst.
  inversion Hc2 as [|? ? P3 Hc3]; subst.
  inversion Hc3 as [|? ? P4 Hc4]; subst.
  inversion Hc4 as [|? ? P5 _]; subst.
  apply build_row_on_line; assumption.
Qed.

(** The fields the row pattern captures from the line of a row, stripped:
    the rank in decimal, the three text cells as tabulate formats them, and
    the accuracy in the format "g". *)
Lemma data_line_fields (l : table_layout) (r : row) :
  plain_row r = true ->
  map strip_cells (findall (data_line l r))
  = [Groups (str_of_int (Rank r))
            (strip (format_text (fst (l_image l)) (Profile_Image r)))
            (strip (format_text (fst (l_user l)) (GitHub_Username r)))
            (strip (format_text (fst (l_solution l)) (Solution r)))
            (format_g (Accuracy r))].
Proof.
  intros H. pose proof (row_cells_plain l r H) as Hc.
  unfold data_line, row_cells in *.
  inversion Hc as [|? ? P1 Hc1]; subst.
  inversion Hc1 as [|? ? P2 Hc2]; subst.
  inversion Hc2 as [|? ? P3 Hc3]; subst.
  inversion Hc3 as [|? ? P4 Hc4]; subst.
  inversion Hc4 as [|? ? P5 _]; subst.
  rewrite findall_build_row by assumption.
  unfold text_cell, strip_cells. simpl.
  rewrite !strip_pad_cell, !strip_align_cell.
  rewrite (strip_trimmed (str_of_int (Rank r)))
    by (apply solid_trimmed, str_of_int_solid).
  rewrite (strip_trimmed (format_g (Accuracy r)))
    by (apply solid_trimmed, format_g_solid).
  reflexivity.
Qed.

Lemma header_line_cells (l : table_layout) :
  header_line l
  = build_row [align_header (l_rank l) (s2l "Rank");
               align_header (snd (l_image l)) (s2l "Profile Image");
               align_header (snd (l_user l)) (s2l "GitHub Username");
               align_header (snd (l_solution l)) (s2l "Solution");
               align_header (l_accuracy l) (s2l "Accuracy %")].
Proof. reflexivity. Qed.

Lemma header_line_on_line (l : table_layout) :
  forallb on_line (header_line l) = true.
Proof.
  rewrite header_line_cells.
  apply build_row_on_line; apply plain_align_header; reflexivity.
Qed.

(** The fields the row pattern captures from the header line, stripped, are
    the five column names. *)
Lemma header_line_fields (l : table_layout) :
  map strip_cells (findall (header_line l)) = [header_groups].
Proof.
  rewrite header_line_cells.
  rewrite findall_build_row by (apply plain_align_header; reflexivity).
  unfold strip_cells. simpl.
  rewrite !strip_pad_cell, !strip_align_header. reflexivity.
Qed.

(** The lines of the rendered table: the header, the line below it, and one
    line per row. *)
Lemma to_markdown_lines (df : frame) :
  forallb plain_row df = true ->
  split_on newline (to_markdown df)
  = header_line (layout_of df) :: build_line (columns_of (layout_of df))
      :: map (data_line (layout_of df)) df.
Proof.
  intros H. unfold to_markdown. apply split_join; [discriminate|].
  constructor; [apply on_line_no_newline, header_line_on_line|].
  constructor; [apply rule_no_newline, build_line_rule|].
  apply Forall_map, Forall_forall. intros r Hr.
  apply on_line_no_newline, data_line_on_line.
  rewrite forallb_forall in H. apply H. assumption.
Qed.

(** C8, as the code has it.  For a frame whose text cells are plain, the
    rendered table has one line for the column names, one line of dashes and
    colons below it, and then one line per row in the order of the frame.
    The row pattern matches the header line once, capturing the five column
    names, and each row line once, capturing five fields of which the first
    is the rank. *)
Theorem table_has_header_and_row_lines (df : frame) :
  forallb plain_row df = true ->
  exists head rule body,
    split_on newline (to_markdown df) = head :: rule :: body
    /\ map strip_cells (findall head) = [header_groups]
    /\ forallb rule_char rule = true
    /\ length body = length df
    /\ Forall2 (fun line r =>
                  exists g, findall line = [g]
                            /\ strip (g1 g) = str_of_int (Rank r))
               body df.
Proof.
  intros H.
  exists (header_line (layout_of df)), (build_line (columns_of (layout_of df))),
    (map (data_line (layout_of df)) df).
  split; [apply to_markdown_lines; assumption|].
  split; [apply header_line_fields|].
  split; [apply build_line_rule|].
  split; [apply length_map|].
  rewrite forallb_forall in H.
  generalize (layout_of df) as l. intros l.
  induction df as [|r t IH]; simpl; constructor.
  - pose proof (data_line_fields l r (H r (or_introl eq_refl))) as Hf.
    destruct (findall (data_line l r)) as [|g [|g' gs]]; try discriminate.
    exists g. split; [reflexivity|].
    simpl in Hf. inversion Hf. reflexivity.
  - apply IH. intros x Hx. apply H. right. assumption.
Qed.

Lemma table_has_header_and_row_lines_witness :
  forallb plain_row df_alice = true
  /\ exists head rule body,
       split_on newline (to_markdown df_alice) = head :: rule :: body
       /\ map strip_cells (findall head) = [header_groups]
       /\ forallb rule_char rule = true
       /\ length body = length df_alice
       /\ Forall2 (fun line r =>
                     exists g, findall line = [g]
                               /\ strip (g1 g) = str_of_int (Rank r))
                  body df_alice.
Proof.
  split; [vm_compute; reflexivity|].
  apply (table_has_header_and_row_lines df_alice).
  vm_compute; reflexivity.
Defined.

(** C8, as the claim states it, fails: the table rendered for the single
    row of alice has three lines, not one; the first holds the column names
    and the second is the line of dashes and colons. *)
Lemma rendered_table_has_header_rows :
  length (split_on newline (to_markdown df_alice)) = 3%nat
  /\ map strip_cells
         (findall (nth 0 (split_on newline (to_markdown df_alice)) []))
     = [header_groups]
  /\ forallb rule_char (nth 1 (split_on newline (to_markdown df_alice)) [])
     = true
  /\ length (findall (to_markdown df_alice)) = 3%nat.
Proof.
  repeat split; vm_compute; reflexivity.
Qed.

(** C9, as the code has it.  For a frame whose text cells are plain, the
    last field of every row line, stripped, is the accuracy in the format
    "g": six significant digits with trailing zeros removed, so that 80.0 is
    rendered as 80 and 97.5 as 97.5.  The field is padded with spaces that
    align the column on the decimal point. *)
Theorem score_is_rendered_in_general_format (df : frame) :
  forallb plain_row df = true ->
  (exists head rule body,
      split_on newline (to_markdown df) = head :: rule :: body
      /\ Forall2 (fun line r =>
                    exists g, findall line = [g]
                              /\ strip (g5 g) = format_g (Accuracy r))
                 body df)
  /\ format_g (float_of_decimal false 80 0) = s2l "80"
  /\ format_g (float_of_decimal false 975 (-1)) = s2l "97.5".
Proof.
  intros H. split; [|split; vm_compute; reflexivity].
  exists (header_line (layout_of df)), (build_line (columns_of (layout_of df))),
    (map (data_line (layout_of df)) df).
  split; [apply to_markdown_lines; assumption|].
  rewrite forallb_forall in H.
  generalize (layout_of df) as l. intros l.
  induction df as [|r t IH]; simpl; constructor.
  - pose proof (data_line_fields l r (H r (or_introl eq_refl))) as Hf.
    destruct (findall (data_line l r)) as [|g [|g' gs]]; try discriminate.
    exists g. split; [reflexivity|].
    simpl in Hf. inversion Hf. reflexivity.
  - apply IH. intros x Hx. apply H. right. assumption.
Qed.

Lemma score_is_rendered_in_general_format_witness :
  forallb plain_row df_alice = true
  /\ (exists head rule body,
         split_on newline (to_markdown df_alice) = head :: rule :: body
         /\ Forall2 (fun line r =>
                       exists g, findall line = [g]
                                 /\ strip (g5 g) = format_g (Accuracy r))
                    body df_alice)
  /\ format_g (float_of_decimal false 80 0) = s2l "80"
  /\ format_g (float_of_decimal false 975 (-1)) = s2l "97.5".
Proof.
  split; [vm_compute; reflexivity|].
  apply (score_is_rendered_in_general_format df_alice).
  vm_compute; reflexivity.
Defined.

(** C9, as the claim states it, fails: the accuracy 80.0 of alice is
    rendered as 80, with no decimal place. *)
Lemma score_80_has_no_decimals :
  map (fun g => strip (g5 g))
      (findall (nth 2 (split_on newline (to_markdown df_alice)) []))
  = [s2l "80"]
  /\ s2l "80" <> s2l "80.00".
Proof.
  split; [vm_compute; reflexivity | vm_compute; discriminate].
Qed.

(** ** Equal accuracies *)

Lemma flt_fle_false (x y : float) : flt x y = true -> fle y x = false.
Proof.
  unfold flt, fle, SFltb, SFleb. float_cases; compare_cases.
Qed.

(** Three rows of which the first has the greatest accuracy: a sort in
    descending order starts with it. *)
Lemma sorted_three (a b c : row) (s : frame) :
  Permutation s [a; b; c] ->
  Sorted (fun r s => fle (Accuracy s) (Accuracy r) = true) s ->
  flt (Accuracy b) (Accuracy a) = true ->
  flt (Accuracy c) (Accuracy a) = true ->
  s = [a; b; c] \/ s = [a; c; b].
Proof.
  intros Hp Hs Hb Hc.
  destruct (flt_not_nan _ _ Hb) as [_ Hna].
  pose proof (fle_refl _ Hna) as Haa.
  apply flt_fle_false in Hb, Hc.
  pose proof (Permutation_length Hp) as Hlen.
  destruct s as [|x [|y [|z [|w t]]]]; try discriminate.
  inversion Hs as [|? ? Hs1 Hd1]; subst.
  inversion Hs1 as [|? ? Hs2 Hd2]; subst.
  inversion Hd1 as [|? ? Hyx]; subst. inversion Hd2 as [|? ? Hzy]; subst.
  pose proof (fle_trans _ _ _ Hzy Hyx) as Hzx.
  assert (Ha : In a [x; y; z])
    by (apply (Permutation_in _ (Permutation_sym Hp)); left; reflexivity).
  assert (Hx : In x [a; b; c])
    by (apply (Permutation_in _ Hp); left; reflexivity).
  destruct Hx as [<-|[<-|[<-|[]]]].
  - apply Permutation_cons_inv, Permutation_length_2_inv in Hp.
    destruct Hp as [Hp|Hp]; inversion Hp; subst; auto.
  - exfalso. destruct Ha as [->|[->|[->|[]]]]; congruence.
  - exfalso. destruct Ha as [->|[->|[->|[]]]]; congruence.
Qed.

(** C5, as the code has it.  The frame is sorted with the default kind of
    [sort_values], quicksort, which keeps no promise about rows with equal
    accuracies.  For every [argsort] that meets numpy's contract the sorted
    frame is a rearrangement of the deduplicated frame in which the accuracy
    never increases from a row to the next.  For alice at 90.0, bob at 85.0
    and the new entry of carol at 85.0, alice comes first and bob and carol
    hold the ranks 2 and 3; numpy's generic quicksort, which sorts so small
    an array by insertion, gives alice, bob, carol. *)
Theorem sort_orders_by_accuracy_only argsort (h : frame) :
  sorts argsort ->
  Forall (fun r => isnan (Accuracy r) = false) h ->
  Permutation (sort_values argsort h) h
  /\ Sorted (fun r s => fle (Accuracy s) (Accuracy r) = true)
            (sort_values argsort h)
  /\ (forall recs,
        leaderboard_of argsort doc_two (s2l "p") f85 (s2l "carol") = Ok recs ->
        map GitHub_Username recs = [alice_cell; bob_cell; carol_cell]
        \/ map GitHub_Username recs = [alice_cell; carol_cell; bob_cell])
  /\ exists recs,
       leaderboard_of numpy_quicksort doc_two (s2l "p") f85 (s2l "carol")
       = Ok recs
       /\ map GitHub_Username recs = [alice_cell; bob_cell; carol_cell]
       /\ map Rank recs = [1; 2; 3].
Proof.
  intros Hs Hn.
  split; [apply sort_values_perm; assumption|].
  split; [apply sort_values_sorted; assumption|].
  split.
  - intros recs H.
    assert (Hdf : read_table (table_region doc_two) = Ok df_two)
      by (vm_compute; reflexivity).
    apply (leaderboard_of_inv _ _ _ _ _ _ _ Hdf) in H.
    apply merge_inv in H. destruct H as [h0 [Hh ->]].
    pose proof (highest_not_nan _ _ Hh) as Hn0.
    pose proof (sort_values_perm _ Hs _ Hn0) as Hp.
    pose proof (sort_values_sorted _ Hs _ Hn0) as Hsorted.
    rewrite rank_from_users.
    assert (Hh0 : h0 = [row_alice; row_bob; row_carol]).
    { assert (Hc : loc (df_two ++ [row_carol])
                       (groupby_idxmax (df_two ++ [row_carol]))
                   = Ok [row_alice; row_bob; row_carol])
        by (vm_compute; reflexivity).
      unfold row_carol in Hc at 1 2. congruence. }
    subst h0.
    destruct (sorted_three row_alice row_bob row_carol _ Hp Hsorted)
      as [E | E]; try (vm_compute; reflexivity); rewrite E.
    + left. vm_compute; reflexivity.
    + right. vm_compute; reflexivity.
  - eexists. split; [vm_compute; reflexivity|].
    split; vm_compute; reflexivity.
Qed.

Lemma sort_orders_by_accuracy_only_witness :
  sorts insertion_argsort
  /\ Forall (fun r => isnan (Accuracy r) = false) df_two
  /\ Permutation (sort_values insertion_argsort df_two) df_two
  /\ Sorted (fun r s => fle (Accuracy s) (Accuracy r) = true)
            (sort_values insertion_argsort df_two)
  /\ (forall recs,
        leaderboard_of insertion_argsort doc_two (s2l "p") f85 (s2l "carol")
        = Ok recs ->
        map GitHub_Username recs = [alice_cell; bob_cell; carol_cell]
        \/ map GitHub_Username recs = [alice_cell; carol_cell; bob_cell])
  /\ exists recs,
       leaderboard_of numpy_quicksort doc_two (s2l "p") f85 (s2l "carol")
       = Ok recs
       /\ map GitHub_Username recs = [alice_cell; bob_cell; carol_cell]
       /\ map Rank recs = [1; 2; 3].
Proof.
  split; [exact insertion_argsort_sorts|].
  split; [repeat constructor|].
  apply (sort_orders_by_accuracy_only insertion_argsort df_two
           insertion_argsort_sorts).
  repeat constructor.
Defined.

(** C5, as the claim states it, fails: seventeen users stand at 85.0 and an
    eighteenth submits at 85.0.  After the deduplication the rows are in the
    order user01, ..., user18, all with equal accuracies; numpy's generic
    quicksort returns user01, user02, user17, user16, ..., user03, user18. *)
Lemma ties_are_reordered :
  map GitHub_Username highest_ties = map user_cell (seq 1 18)
  /\ forallb (fun r => feq (Accuracy r) f85) highest_ties = true
  /\ leaderboard_of numpy_quicksort doc_ties (s2l "p") f85 (user_name 18)
     = Ok recs_ties
  /\ map GitHub_Username recs_ties
     = map user_cell ([1; 2] ++ rev (seq 3 15) ++ [18])%nat
  /\ map GitHub_Username recs_ties <> map GitHub_Username highest_ties.
Proof.
  split; [vm_compute; reflexivity|].
  split; [vm_compute; reflexivity|].
  split; [vm_compute; reflexivity|].
  split; [vm_compute; reflexivity|].
  vm_compute. discriminate.
Qed.

(** ** When the update succeeds *)







(** ** The rows of the merged table *)

Lemma merge_rows argsort (df recs : frame) :
  sorts argsort -> merge argsort df = Ok recs ->
  forall rec, In rec recs ->
    exists i r, best_row df i r /\ same_cells rec r.
Proof.
  intros Hs H rec Hrec.
  apply merge_inv in H. destruct H as [h [Hh ->]].
  pose proof (highest_not_nan _ _ Hh) as Hn.
  pose proof (rank_from_cells (sort_values argsort h) 0) as Hc.
  destruct (Forall2_In_l _ _ _ Hc rec Hrec) as [r [Hr Hsc]].
  apply (Permutation_in _ (sort_values_perm _ Hs _ Hn)) in Hr.
  apply highest_spec in Hh.
  destruct (Forall2_In_r _ _ _ Hh r Hr) as [k [_ [_ [i Hb]]]]. eauto.
Qed.

(** The best row of a user in a frame with one more row is the added row,
    at the last label, or the best row of the user in the frame without
    it. *)
Lemma best_row_snoc (df : frame) (n : row) (i : nat) (r : row) :
  best_row (df ++ [n]) i r ->
  (i = length df /\ r = n) \/ ((i < length df)%nat /\ best_row df i r).
Proof.
  intros [Hi [Hn Hall]].
  destruct (Nat.lt_ge_cases i (length df)) as [Hlt|Hge].
  - right. split; [assumption|].
    rewrite nth_error_app1 in Hi by assumption.
    split; [assumption|]. split; [assumption|].
    intros j r' Hj. apply (Hall j r').
    rewrite nth_error_app1; [assumption|].
    apply nth_error_Some. congruence.
  - left. rewrite nth_error_app2 in Hi by assumption.
    destruct (i - length df)%nat as [|k] eqn:E.
    + simpl in Hi. inversion Hi. split; [lia | reflexivity].
    + simpl in Hi. destruct k; discriminate.
Qed.

Lemma nth_error_last {A} (l : list A) (a : A) :
  nth_error (l ++ [a]) (length l) = Some a.
Proof.
  rewrite nth_error_app2, Nat.sub_diag by lia. reflexivity.
Qed.

Lemma merge_no_nan argsort (df recs : frame) :
  sorts argsort -> merge argsort df = Ok recs ->
  Forall (fun r => isnan (Accuracy r) = false) recs.
Proof.
  intros Hs H.
  apply merge_inv in H. destruct H as [h [Hh ->]].
  pose proof (highest_not_nan _ _ Hh) as Hn.
  pose proof (sort_values_perm _ Hs _ Hn) as Hp.
  apply Forall_forall. intros r Hr.
  destruct (Forall2_In_l _ _ _ (rank_from_cells _ 0) r Hr) as [r' [Hr' Hc]].
  apply (Permutation_in _ Hp) in Hr'.
  rewrite Forall_forall in Hn. destruct Hc as [_ [_ [_ ->]]]. auto.
Qed.

(** X3.  No row of the merged table has the accuracy NaN: a row whose
    accuracy is NaN is dropped, and a user with no other row makes the
    update fail. *)
Theorem merged_table_has_no_nan argsort (content prompt : str)
    (accuracy : float) (user : str) (df recs : frame) :
  sorts argsort ->
  read_table (table_region content) = Ok df ->
  leaderboard_of argsort content prompt accuracy user = Ok recs ->
  Forall (fun r => isnan (Accuracy r) = false) recs.
Proof.
  intros Hs Hdf H.
  apply (leaderboard_of_inv _ _ _ _ _ _ _ Hdf) in H.
  eapply merge_no_nan; eassumption.
Qed.

Lemma merged_table_has_no_nan_witness :
  sorts insertion_argsort
  /\ read_table (table_region doc_two) = Ok df_two
  /\ leaderboard_of insertion_argsort doc_two (s2l "p") f80 (s2l "carol")
     = Ok recs_carol
  /\ Forall (fun r => isnan (Accuracy r) = false) recs_carol.
Proof.
  split; [exact insertion_argsort_sorts|].
  split; [vm_compute; reflexivity|].
  split; [vm_compute; reflexivity|].
  apply (merged_table_has_no_nan insertion_argsort doc_two (s2l "p") f80
           (s2l "carol") df_two recs_carol insertion_argsort_sorts).
  - vm_compute; reflexivity.
  - vm_compute; reflexivity.
Defined.

(** X4.  The row of the submitting user in the merged table carries the
    cells of the new entry when the new accuracy is a number strictly
    greater than every accuracy the user has in the document; otherwise it
    carries the cells of the user's best row of the document. *)
Theorem new_entry_needs_strictly_better argsort (content prompt : str)
    (accuracy : float) (user : str) (df recs : frame) (rec : row) :
  sorts argsort ->
  read_table (table_region content) = Ok df ->
  leaderboard_of argsort content prompt accuracy user = Ok recs ->
  In rec recs ->
  GitHub_Username rec
  = GitHub_Username (new_entry df prompt accuracy user) ->
  let beats :=
    isnan accuracy = false
    /\ forall r, In r df ->
         GitHub_Username r
         = GitHub_Username (new_entry df prompt accuracy user) ->
         isnan (Accuracy r) = false ->
         flt (Accuracy r) accuracy = true in
  (beats -> same_cells rec (new_entry df prompt accuracy user))
  /\ (~ beats -> exists i r, best_row df i r /\ same_cells rec r).
Proof.
  intros Hs Hdf H Hrec Hu beats.
  apply (leaderboard_of_inv _ _ _ _ _ _ _ Hdf) in H.
  destruct (merge_rows _ _ _ Hs H rec Hrec) as [i [r [Hb Hsc]]].
  set (n := new_entry df prompt accuracy user) in *.
  destruct (best_row_snoc _ _ _ _ Hb) as [[Hi ->]|[Hi Hbdf]].
  - split; [intros _; assumption|].
    intros Hnot. exfalso. apply Hnot.
    destruct Hb as [_ [Hn Hall]]. split; [exact Hn|].
    intros r Hr Hk Hnr. apply In_nth_error in Hr. destruct Hr as [j Hj].
    assert (Hlt : (j < length df)%nat)
      by (apply nth_error_Some; congruence).
    apply (Hall j r); try assumption; [|lia].
    rewrite nth_error_app1; assumption.
  - split; [|intros _; eauto].
    intros [Ha Hall]. exfalso.
    destruct Hbdf as [Hr [Hn _]].
    assert (Hk : GitHub_Username r = GitHub_Username n).
    { destruct Hsc as [_ [Hk _]]. congruence. }
    pose proof (Hall r (nth_error_In _ _ Hr) Hk Hn) as Hlt.
    destruct Hb as [_ [_ Hmax]].
    destruct (Hmax (length df) n (nth_error_last df n) (eq_sym Hk) Ha)
      as [Hle _].
    apply flt_fle_false in Hlt.
    change (Accuracy n) with accuracy in Hle. congruence.
Qed.

Lemma new_entry_needs_strictly_better_witness :
  sorts insertion_argsort
  /\ read_table (table_region doc_tie) = Ok df_tie
  /\ leaderboard_of insertion_argsort doc_tie (s2l "new") f90 (s2l "alice")
     = Ok [row_alice_new]
  /\ In row_alice_new [row_alice_new]
  /\ GitHub_Username row_alice_new = GitHub_Username entry_alice_new
  /\ same_cells row_alice_new entry_alice_new.
Proof.
  split; [exact insertion_argsort_sorts|].
  split; [vm_compute; reflexivity|].
  split; [vm_compute; reflexivity|].
  split; [left; reflexivity|].
  split; [reflexivity|].
  destruct (new_entry_needs_strictly_better insertion_argsort doc_tie
              (s2l "new") f90 (s2l "alice") df_tie [row_alice_new]
              row_alice_new insertion_argsort_sorts)
    as [H _].
  - vm_compute; reflexivity.
  - vm_compute; reflexivity.
  - left; reflexivity.
  - reflexivity.
  - apply H. split; [reflexivity|].
    intros r [<-|[]] _ _. vm_compute; reflexivity.
Defined.

(** X6.  A row of the merged table that belongs to another user than the
    one submitting carries the cells of that user's best row of the
    document. *)
Theorem other_users_keep_their_best_row argsort (content prompt : str)
    (accuracy : float) (user : str) (df recs : frame) (rec : row) :
  sorts argsort ->
  read_table (table_region content) = Ok df ->
  leaderboard_of argsort content prompt accuracy user = Ok recs ->
  In rec recs ->
  GitHub_Username rec
  <> GitHub_Username (new_entry df prompt accuracy user) ->
  exists i r, best_row df i r /\ same_cells rec r.
Proof.
  intros Hs Hdf H Hrec Hu.
  apply (leaderboard_of_inv _ _ _ _ _ _ _ Hdf) in H.
  destruct (merge_rows _ _ _ Hs H rec Hrec) as [i [r [Hb Hsc]]].
  destruct (best_row_snoc _ _ _ _ Hb) as [[Hi ->]|[Hi Hbdf]].
  - exfalso. apply Hu. destruct Hsc as [_ [Hk _]]. exact Hk.
  - eauto.
Qed.

Lemma other_users_keep_their_best_row_witness :
  sorts insertion_argsort
  /\ read_table (table_region doc_two) = Ok df_two
  /\ leaderboard_of insertion_argsort doc_two (s2l "p") f80 (s2l "carol")
     = Ok recs_carol
  /\ In row_alice recs_carol
  /\ GitHub_Username row_alice
     <> GitHub_Username (new_entry df_two (s2l "p") f80 (s2l "carol"))
  /\ exists i r, best_row df_two i r /\ same_cells row_alice r.
Proof.
  split; [exact insertion_argsort_sorts|].
  split; [vm_compute; reflexivity|].
  split; [vm_compute; reflexivity|].
  split; [vm_compute; left; reflexivity|].
  split; [vm_compute; discriminate|].
  apply (other_users_keep_their_best_row insertion_argsort doc_two (s2l "p")
           f80 (s2l "carol") df_two recs_carol row_alice
           insertion_argsort_sorts).
  - vm_compute; reflexivity.
  - vm_compute; reflexivity.
  - vm_compute; left; reflexivity.
  - vm_compute; discriminate.
Defined.

(** X17.  No accuracy is lost: for every row of the document, and for the
    new entry, whose accuracy is a number, the merged table has a row of the
    same user with an accuracy at least as great. *)
Theorem best_accuracy_is_kept argsort (content prompt : str)
    (accuracy : float) (user : str) (df recs : frame) (r : row) :
  sorts argsort ->
  read_table (table_region content) = Ok df ->
  leaderboard_of argsort content prompt accuracy user = Ok recs ->
  In r (df ++ [new_entry df prompt accuracy user]) ->
  isnan (Accuracy r) = false ->
  exists rec,
    In rec recs /\ GitHub_Username rec = GitHub_Username r
    /\ fle (Accuracy r) (Accuracy rec) = true.
Proof.
  intros Hs Hdf H Hr Hn.
  apply (leaderboard_of_inv _ _ _ _ _ _ _ Hdf) in H.
  pose proof (merge_users _ Hs _ _ H) as Hu.
  assert (Hk : In (GitHub_Username r)
                  (group_keys (df ++ [new_entry df prompt accuracy user])))
    by (apply group_keys_In; eauto).
  apply (Permutation_in _ (Permutation_sym Hu)), in_map_iff in Hk.
  destruct Hk as [rec [Hkey Hrec]].
  destruct (merge_rows _ _ _ Hs H rec Hrec) as [i [r0 [[_ [_ Hmax]] Hc]]].
  exists rec. split; [assumption|]. split; [assumption|].
  apply In_nth_error in Hr. destruct Hr as [j Hj].
  destruct Hc as [_ [Hk0 [_ Ha]]]. rewrite Ha.
  apply (Hmax j r Hj); [congruence | assumption].
Qed.

Lemma best_accuracy_is_kept_witness :
  sorts insertion_argsort
  /\ read_table (table_region doc_two) = Ok df_two
  /\ leaderboard_of insertion_argsort doc_two (s2l "p") f80 (s2l "carol")
     = Ok recs_carol
  /\ In row_bob (df_two ++ [new_entry df_two (s2l "p") f80 (s2l "carol")])
  /\ isnan (Accuracy row_bob) = false
  /\ exists rec,
       In rec recs_carol /\ GitHub_Username rec = GitHub_Username row_bob
       /\ fle (Accuracy row_bob) (Accuracy rec) = true.
Proof.
  split; [exact insertion_argsort_sorts|].
  split; [vm_compute; reflexivity|].
  split; [vm_compute; reflexivity|].
  split; [right; left; reflexivity|].
  split; [reflexivity|].
  apply (best_accuracy_is_kept insertion_argsort doc_two (s2l "p") f80
           (s2l "carol") df_two recs_carol row_bob insertion_argsort_sorts).
  - vm_compute; reflexivity.
  - vm_compute; reflexivity.
  - right; left; reflexivity.
  - reflexivity.
Defined.

Lemma sorted_perm_unique {A} (R : A -> A -> Prop) (l1 : list A) :
  forall l2, Permutation l1 l2 ->
    StronglySorted R l1 -> StronglySorted R l2 ->
    (forall x y, In x l1 -> In y l1 -> R x y -> R y x -> x = y) ->
    l1 = l2.
Proof.
  induction l1 as [|x t1 IH]; intros l2 Hp H1 H2 Hanti.
  - apply Permutation_nil in Hp. congruence.
  - destruct l2 as [|y t2].
    + apply Permutation_sym, Permutation_nil in Hp. discriminate.
    + inversion H1 as [|? ? Ht1 Hx]; subst.
      inversion H2 as [|? ? Ht2 Hy]; subst.
      rewrite Forall_forall in Hx, Hy.
      assert (Hxy : x = y).
      { assert (Hyin : In y (x :: t1))
          by (apply (Permutation_in _ (Permutation_sym Hp)); left; reflexivity).
        assert (Hxin : In x (y :: t2))
          by (apply (Permutation_in _ Hp); left; reflexivity).
        destruct Hyin as [E|Hyin]; [assumption|].
        destruct Hxin as [E|Hxin]; [congruence|].
        apply Hanti; [left; reflexivity | right; assumption | |]; auto. }
      subst y. f_equal. apply IH.
      * eapply Permutation_cons_inv. eassumption.
      * assumption.
      * assumption.
      * intros a b Ha Hb. apply Hanti; right; assumption.
Qed.

(** ** The order of the group keys *)

Lemma code_inj (x y : ascii) : code x = code y -> x = y.
Proof.
  unfold code. intros H. apply N2Z.inj in H.
  rewrite <- (ascii_N_embedding x), <- (ascii_N_embedding y), H. reflexivity.
Qed.

Lemma str_leb_total (a : str) :
  forall b, str_leb a b = false -> str_leb b a = true.
Proof.
  induction a as [|x a IH]; intros [|y b] H; simpl in *;
    try discriminate; try reflexivity.
  destruct (Z.ltb_spec (code x) (code y)); [discriminate|].
  destruct (Z.ltb_spec (code y) (code x)); [reflexivity|].
  apply IH. assumption.
Qed.

Lemma str_leb_trans (a : str) :
  forall b c, str_leb a b = true -> str_leb b c = true -> str_leb a c = true.
Proof.
  induction a as [|x a IH]; intros [|y b] [|z c] Hab Hbc; simpl in *;
    try discriminate; try reflexivity.
  destruct (Z.ltb_spec (code x) (code y)), (Z.ltb_spec (code y) (code x)),
    (Z.ltb_spec (code y) (code z)), (Z.ltb_spec (code z) (code y)),
    (Z.ltb_spec (code x) (code z)), (Z.ltb_spec (code z) (code x));
    try discriminate; try reflexivity; try lia.
  eapply IH; eassumption.
Qed.

Lemma str_leb_antisym (a : str) :
  forall b, str_leb a b = true -> str_leb b a = true -> a = b.
Proof.
  induction a as [|x a IH]; intros [|y b] Hab Hba; simpl in *;
    try discriminate; try reflexivity.
  destruct (Z.ltb_spec (code x) (code y)), (Z.ltb_spec (code y) (code x));
    try discriminate; try lia.
  f_equal; [apply code_inj; lia | apply IH; assumption].
Qed.

Lemma insert_key_sorted (k : str) (l : list str) :
  Sorted (fun a b => str_leb a b = true) l ->
  Sorted (fun a b => str_leb a b = true) (insert_key k l).
Proof.
  induction 1 as [|h t Ht IH Hd]; simpl.
  - repeat constructor.
  - destruct (str_leb k h) eqn:E.
    + constructor; [constructor; assumption|]. constructor. assumption.
    + constructor; [assumption|].
      apply str_leb_total in E.
      destruct Hd as [|h' t' Hh]; simpl.
      * constructor. assumption.
      * destruct (str_leb k h'); constructor; assumption.
Qed.

Lemma sort_keys_sorted (l : list str) :
  Sorted (fun a b => str_leb a b = true) (sort_keys l).
Proof.
  induction l as [|k t IH]; simpl; [constructor|].
  apply insert_key_sorted. assumption.
Qed.

(** Sorting forgets the order in which the keys were met. *)
Lemma sort_keys_unique (l1 l2 : list str) :
  Permutation l1 l2 -> sort_keys l1 = sort_keys l2.
Proof.
  intros H.
  apply (sorted_perm_unique (fun a b => str_leb a b = true)).
  - rewrite !sort_keys_perm. assumption.
  - apply Sorted_StronglySorted; [|apply sort_keys_sorted].
    intros x y z. apply str_leb_trans.
  - apply Sorted_StronglySorted; [|apply sort_keys_sorted].
    intros x y z. apply str_leb_trans.
  - intros x y _ _. apply str_leb_antisym.
Qed.

Lemma group_keys_known_user (df : frame) (n : row) :
  In (GitHub_Username n) (map GitHub_Username df) ->
  group_keys (df ++ [n]) = group_keys df.
Proof.
  intros Hin. unfold group_keys. apply sort_keys_unique.
  rewrite map_app. simpl.
  apply NoDup_Permutation; try apply NoDup_nodup.
  intros x. rewrite !nodup_In, in_app_iff. simpl.
  split; [intros [H|[<-|[]]]; assumption | auto].
Qed.

(** ** A submission that is not better *)

Lemma idxmax_from_app (key : str) (a b : frame) :
  forall i best,
    idxmax_from key (a ++ b) i best
    = idxmax_from key b (i + length a)%nat (idxmax_from key a i best).
Proof.
  induction a as [|r a IH]; intros i best; simpl.
  - rewrite Nat.add_0_r. reflexivity.
  - rewrite IH. f_equal. lia.
Qed.

Lemma idxmax_not_better (df : frame) (n r : row) (key : str) :
  In r df -> GitHub_Username r = GitHub_Username n ->
  isnan (Accuracy r) = false ->
  flt (Accuracy r) (Accuracy n) = false ->
  idxmax (df ++ [n]) key = idxmax df key.
Proof.
  intros Hr Hk Hn Hlt. unfold idxmax. rewrite idxmax_from_app. simpl.
  destruct (str_eqb (GitHub_Username n) key) eqn:Ek; [|reflexivity].
  destruct (isnan (Accuracy n)) eqn:En; [reflexivity|]. simpl.
  apply str_eqb_eq in Ek. subst key.
  pose proof (idxmax_from_spec (GitHub_Username n) df [] None) as Hs.
  simpl in Hs. specialize (Hs (fun r Hin => match Hin with end)).
  destruct (idxmax_from (GitHub_Username n) df 0 None) as [[k m]|].
  - destruct Hs as [_ [Hm Hall]].
    apply In_nth_error in Hr. destruct Hr as [j Hj].
    destruct (Hall j r Hj Hk Hn) as [Hle _].
    destruct (flt m (Accuracy n)) eqn:E; [|reflexivity].
    exfalso.
    assert (H1 : flt (Accuracy r) (Accuracy n) = true)
      by (eapply fle_flt_trans; eassumption).
    congruence.
  - rewrite (Hs r Hr Hk) in Hn. discriminate.
Qed.

Lemma loc_app (df : frame) (n : row) (labels : list (option nat)) :
  Forall (fun lab => forall i, lab = Some i -> (i < length df)%nat) labels ->
  loc (df ++ [n]) labels = loc df labels.
Proof.
  induction 1 as [|lab rest Hlab _ IH]; simpl; [reflexivity|].
  destruct lab as [i|]; [|reflexivity].
  rewrite nth_error_app1 by (apply Hlab; reflexivity).
  rewrite IH. reflexivity.
Qed.

Lemma idxmax_bound (df : frame) (key : str) (i : nat) :
  idxmax df key = Some i -> (i < length df)%nat.
Proof.
  intros H. pose proof (idxmax_spec df key) as Hs. rewrite H in Hs.
  destruct Hs as [r [[Hr _] _]]. apply nth_error_Some. congruence.
Qed.

(** X5.  A submission that does not strictly beat an accuracy the user
    already has in the document changes no row: the merged table is the one
    the rows of the document give on their own, whatever the prompt. *)
Theorem submission_not_better_changes_no_row argsort (content prompt : str)
    (accuracy : float) (user : str) (df : frame) (r : row) :
  read_table (table_region content) = Ok df ->
  In r df ->
  GitHub_Username r = GitHub_Username (new_entry df prompt accuracy user) ->
  isnan (Accuracy r) = false ->
  flt (Accuracy r) accuracy = false ->
  leaderboard_of argsort content prompt accuracy user = merge argsort df.
Proof.
  intros Hdf Hr Hk Hn Hlt. unfold leaderboard_of. rewrite Hdf.
  cbv beta iota delta [bind].
  set (n := new_entry df prompt accuracy user) in *.
  unfold merge.
  assert (Hidx : groupby_idxmax (df ++ [n]) = groupby_idxmax df).
  { unfold groupby_idxmax. rewrite group_keys_known_user.
    - apply map_ext. intros key.
      apply (idxmax_not_better df n r key); assumption.
    - rewrite <- Hk. apply in_map. assumption. }
  rewrite Hidx, loc_app; [reflexivity|].
  apply Forall_forall. intros lab Hlab i ->.
  unfold groupby_idxmax in Hlab. apply in_map_iff in Hlab.
  destruct Hlab as [key [Hkey _]]. eapply idxmax_bound. eassumption.
Qed.

Lemma submission_not_better_changes_no_row_witness :
  read_table (table_region doc_tie) = Ok df_tie
  /\ In (Row 1 (s2l "img") alice_cell (s2l "[old](u)") f85) df_tie
  /\ flt f85 f85 = false
  /\ leaderboard_of insertion_argsort doc_tie (s2l "new") f85 (s2l "alice")
     = merge insertion_argsort df_tie.
Proof.
  split; [vm_compute; reflexivity|].
  split; [left; reflexivity|].
  split; [vm_compute; reflexivity|].
  apply (submission_not_better_changes_no_row insertion_argsort doc_tie
           (s2l "new") f85 (s2l "alice") df_tie
           (Row 1 (s2l "img") alice_cell (s2l "[old](u)") f85)).
  - vm_compute; reflexivity.
  - left; reflexivity.
  - vm_compute; reflexivity.
  - reflexivity.
  - vm_compute; reflexivity.
Defined.

(** ** The number of rows *)

Lemma nodup_snoc_length {A} (dec : forall x y : A, {x = y} + {x <> y})
    (l : list A) (a : A) :
  length (nodup dec (l ++ [a]))
  = if in_dec dec a l then length (nodup dec l)
    else S (length (nodup dec l)).
Proof.
  destruct (in_dec dec a l) as [Hin|Hnin].
  - apply Permutation_length, NoDup_Permutation; try apply NoDup_nodup.
    intros x. rewrite !nodup_In, in_app_iff. simpl.
    split; [intros [H|[<-|[]]]; assumption | auto].
  - change (S (length (nodup dec l))) with (length (a :: nodup dec l)).
    apply Permutation_length, NoDup_Permutation.
    + apply NoDup_nodup.
    + constructor; [rewrite nodup_In; assumption | apply NoDup_nodup].
    + intros x. simpl. rewrite !nodup_In, in_app_iff. simpl. tauto.
Qed.

Lemma group_keys_length (df : frame) :
  (length (group_keys df) <= length df)%nat.
Proof.
  unfold group_keys.
  rewrite (Permutation_length (sort_keys_perm _)).
  rewrite <- (length_map GitHub_Username df).
  apply NoDup_incl_length; [apply NoDup_nodup|].
  intros x Hx. apply nodup_In in Hx. exact Hx.
Qed.

Lemma group_keys_snoc (df : frame) (n : row) :
  length (group_keys (df ++ [n]))
  = if in_dec (list_eq_dec ascii_dec) (GitHub_Username n)
         (map GitHub_Username df)
    then length (group_keys df) else S (length (group_keys df)).
Proof.
  unfold group_keys.
  rewrite !(Permutation_length (sort_keys_perm _)).
  rewrite map_app. simpl. apply nodup_snoc_length.
Qed.

(** X7.  The merged table has one row per distinct user cell of the
    document, and one more when the user cell of the new entry is not among
    them; it never has more rows than the document had, plus one. *)
Theorem table_grows_by_new_users_only argsort (content prompt : str)
    (accuracy : float) (user : str) (df recs : frame) :
  sorts argsort ->
  read_table (table_region content) = Ok df ->
  leaderboard_of argsort content prompt accuracy user = Ok recs ->
  let cell := GitHub_Username (new_entry df prompt accuracy user) in
  (In cell (map GitHub_Username df) ->
   length recs = length (group_keys df))
  /\ (~ In cell (map GitHub_Username df) ->
      length recs = S (length (group_keys df)))
  /\ (length recs <= S (length df))%nat.
Proof.
  intros Hs Hdf H cell.
  apply (leaderboard_of_inv _ _ _ _ _ _ _ Hdf) in H.
  pose proof (merge_users _ Hs _ _ H) as Hu.
  apply Permutation_length in Hu. rewrite length_map in Hu.
  rewrite group_keys_snoc in Hu. fold cell in Hu.
  pose proof (group_keys_length df) as Hle.
  destruct (in_dec (list_eq_dec ascii_dec) cell (map GitHub_Username df))
    as [Hin|Hnin].
  - split; [intros _; exact Hu|]. split; [contradiction | lia].
  - split; [contradiction|]. split; [intros _; exact Hu | lia].
Qed.

Lemma table_grows_by_new_users_only_witness :
  sorts insertion_argsort
  /\ read_table (table_region doc_two) = Ok df_two
  /\ leaderboard_of insertion_argsort doc_two (s2l "p") f80 (s2l "carol")
     = Ok recs_carol
  /\ length recs_carol = S (length (group_keys df_two))
  /\ (length recs_carol <= S (length df_two))%nat.
Proof.
  split; [exact insertion_argsort_sorts|].
  split; [vm_compute; reflexivity|].
  split; [vm_compute; reflexivity|].
  destruct (table_grows_by_new_users_only insertion_argsort doc_two (s2l "p")
              f80 (s2l "carol") df_two recs_carol insertion_argsort_sorts)
    as [_ [H1 H2]].
  - vm_compute; reflexivity.
  - vm_compute; reflexivity.
  - split; [|exact H2]. apply H1. vm_compute.
    intros [H|[H|[]]]; discriminate H.
Defined.

(** ** Ranks and accuracies *)

Lemma rank_from_nth (df : frame) :
  forall i k r, nth_error (rank_from i df) k = Some r ->
    Rank r = i + Z.of_nat k + 1.
Proof.
  induction df as [|a t IH]; intros i k r H; simpl in H.
  - destruct k; discriminate.
  - destruct k as [|k]; simpl in H.
    + inversion H. simpl. lia.
    + apply IH in H. lia.
Qed.

Lemma StronglySorted_nth {A} (R : A -> A -> Prop) (l : list A) :
  StronglySorted R l ->
  forall i j a b, (i < j)%nat -> nth_error l i = Some a ->
    nth_error l j = Some b -> R a b.
Proof.
  induction 1 as [|x t Ht IH Hx]; intros i j a b Hij Ha Hb.
  - destruct i; discriminate.
  - destruct j as [|j]; [lia|]. simpl in Hb.
    destruct i as [|i]; simpl in Ha.
    + inversion Ha; subst. rewrite Forall_forall in Hx.
      apply Hx. eapply nth_error_In. eassumption.
    + apply (IH i j); [lia | assumption | assumption].
Qed.

Lemma descending_transitive :
  Relations_1.Transitive (fun x y : float => fle y x = true).
Proof.
  intros x y z Hxy Hyz. eapply fle_trans; eassumption.
Qed.

(** X8.  Of two rows of the merged table, the one with the strictly
    greater accuracy has the strictly smaller rank. *)
Theorem better_accuracy_gets_smaller_rank argsort (content prompt : str)
    (accuracy : float) (user : str) (df recs : frame) (a b : row) :
  sorts argsort ->
  read_table (table_region content) = Ok df ->
  leaderboard_of argsort content prompt accuracy user = Ok recs ->
  In a recs -> In b recs ->
  flt (Accuracy a) (Accuracy b) = true ->
  Rank b < Rank a.
Proof.
  intros Hs Hdf H Ha Hb Hlt.
  apply (leaderboard_of_inv _ _ _ _ _ _ _ Hdf) in H.
  apply merge_inv in H. destruct H as [h [Hh ->]].
  pose proof (highest_not_nan _ _ Hh) as Hn.
  pose proof (sort_values_sorted _ Hs _ Hn) as Hsorted.
  apply (Sorted_map Accuracy (fun x y => fle y x = true)) in Hsorted.
  rewrite <- (rank_from_accuracy _ 0) in Hsorted.
  apply Sorted_StronglySorted in Hsorted; [|exact descending_transitive].
  apply In_nth_error in Ha, Hb.
  destruct Ha as [i Hi]. destruct Hb as [j Hj].
  rewrite (rank_from_nth _ _ _ _ Hi), (rank_from_nth _ _ _ _ Hj).
  pose proof (flt_fle_false _ _ Hlt) as Hge.
  destruct (Nat.lt_trichotomy i j) as [Hij|[Hij|Hij]].
  - exfalso.
    assert (Hle : fle (Accuracy b) (Accuracy a) = true).
    { apply (StronglySorted_nth _ _ Hsorted i j); try assumption.
      - rewrite nth_error_map, Hi. reflexivity.
      - rewrite nth_error_map, Hj. reflexivity. }
    congruence.
  - exfalso. subst j. assert (a = b) by congruence. subst b.
    destruct (flt_not_nan _ _ Hlt) as [Hna _].
    rewrite (fle_refl _ Hna) in Hge. discriminate.
  - lia.
Qed.

Lemma better_accuracy_gets_smaller_rank_witness :
  sorts insertion_argsort
  /\ read_table (table_region doc_two) = Ok df_two
  /\ leaderboard_of insertion_argsort doc_two (s2l "p") f80 (s2l "carol")
     = Ok recs_carol
  /\ In row_bob recs_carol /\ In row_alice recs_carol
  /\ flt (Accuracy row_bob) (Accuracy row_alice) = true
  /\ Rank row_alice < Rank row_bob.
Proof.
  split; [exact insertion_argsort_sorts|].
  split; [vm_compute; reflexivity|].
  split; [vm_compute; reflexivity|].
  split; [vm_compute; right; left; reflexivity|].
  split; [vm_compute; left; reflexivity|].
  split; [vm_compute; reflexivity|].
  apply (better_accuracy_gets_smaller_rank insertion_argsort doc_two (s2l "p")
           f80 (s2l "carol") df_two recs_carol row_bob row_alice
           insertion_argsort_sorts).
  - vm_compute; reflexivity.
  - vm_compute; reflexivity.
  - vm_compute; right; left; reflexivity.
  - vm_compute; left; reflexivity.
  - vm_compute; reflexivity.
Defined.

(** ** The ranks of the document *)

Lemma same_cells_users (df df' : frame) :
  Forall2 same_cells df df' ->
  map GitHub_Username df = map GitHub_Username df'.
Proof.
  induction 1 as [|r r' t t' [_ [Hk _]] _ IH]; simpl; congruence.
Qed.

Lemma same_cells_accuracy (df df' : frame) :
  Forall2 same_cells df df' -> map Accuracy df = map Accuracy df'.
Proof.
  induction 1 as [|r r' t t' [_ [_ [_ Ha]]] _ IH]; simpl; congruence.
Qed.

Lemma same_cells_idxmax_from (key : str) (df df' : frame) :
  Forall2 same_cells df df' ->
  forall i best, idxmax_from key df i best = idxmax_from key df' i best.
Proof.
  induction 1 as [|r r' t t' [_ [Hk [_ Ha]]] _ IH]; intros i best; simpl.
  - reflexivity.
  - rewrite Hk, Ha. apply IH.
Qed.

Lemma same_cells_idxmax (df df' : frame) :
  Forall2 same_cells df df' -> groupby_idxmax df = groupby_idxmax df'.
Proof.
  intros H. unfold groupby_idxmax, group_keys, idxmax.
  rewrite (same_cells_users _ _ H). apply map_ext. intros key.
  rewrite (same_cells_idxmax_from key _ _ H). reflexivity.
Qed.

Lemma same_cells_nth_error (df df' : frame) :
  Forall2 same_cells df df' ->
  forall i, match nth_error df i, nth_error df' i with
            | Some r, Some r' => same_cells r r'
            | None, None => True
            | _, _ => False
            end.
Proof.
  induction 1 as [|r r' t t' Hr _ IH]; intros [|i]; simpl; auto.
  apply IH.
Qed.

Lemma same_cells_loc (df df' : frame) (labels : list (option nat)) :
  Forall2 same_cells df df' ->
  match loc df labels, loc df' labels with
  | Ok h, Ok h' => Forall2 same_cells h h'
  | Raise e, Raise e' => e = e'
  | _, _ => False
  end.
Proof.
  intros H. induction labels as [|[i|] rest IH]; simpl.
  - constructor.
  - pose proof (same_cells_nth_error _ _ H i) as Hi.
    destruct (nth_error df i) as [r|], (nth_error df' i) as [r'|];
      try contradiction; [|reflexivity].
    destruct (loc df rest) as [h|e], (loc df' rest) as [h'|e'];
      try contradiction; simpl; [constructor|]; assumption.
  - reflexivity.
Qed.

Lemma same_cells_take (df df' : frame) (idx : list nat) :
  Forall2 same_cells df df' -> Forall2 same_cells (take df idx) (take df' idx).
Proof.
  intros H. unfold take. induction idx as [|i t IH]; simpl.
  - constructor.
  - pose proof (same_cells_nth_error _ _ H i) as Hi.
    destruct (nth_error df i) as [r|], (nth_error df' i) as [r'|];
      try contradiction; simpl; [constructor|]; assumption.
Qed.

Lemma same_cells_rank_from (df df' : frame) :
  Forall2 same_cells df df' -> forall i, rank_from i df = rank_from i df'.
Proof.
  induction 1 as [|r r' t t' [Hp [Hk [Hsol Ha]]] _ IH]; intros i; simpl.
  - reflexivity.
  - rewrite Hp, Hk, Hsol, Ha, IH. reflexivity.
Qed.

Lemma same_cells_merge argsort (df df' : frame) :
  Forall2 same_cells df df' -> merge argsort df = merge argsort df'.
Proof.
  intros H. unfold merge. rewrite <- (same_cells_idxmax _ _ H).
  pose proof (same_cells_loc _ _ (groupby_idxmax df) H) as Hl.
  destruct (loc df _) as [h|e], (loc df' _) as [h'|e'];
    try contradiction; simpl; [|congruence].
  f_equal. apply same_cells_rank_from. unfold sort_values.
  rewrite (same_cells_accuracy _ _ Hl). apply same_cells_take. assumption.
Qed.

(** X9.  The ranks read from the document have no part in the merged
    table: two frames that agree on every cell but the rank give the same
    table for the same submission. *)
Theorem ranks_of_the_document_are_ignored argsort (prompt : str)
    (accuracy : float) (user : str) (df df' : frame) :
  Forall2 same_cells df df' ->
  merge argsort (df ++ [new_entry df prompt accuracy user])
  = merge argsort (df' ++ [new_entry df' prompt accuracy user]).
Proof.
  intros H. apply same_cells_merge. apply Forall2_app; [assumption|].
  constructor; [|constructor]. repeat split.
Qed.

Lemma ranks_of_the_document_are_ignored_witness :
  Forall2 same_cells df_two df_two_renumbered
  /\ merge insertion_argsort
       (df_two ++ [new_entry df_two (s2l "p") f80 (s2l "carol")])
     = merge insertion_argsort
         (df_two_renumbered
            ++ [new_entry df_two_renumbered (s2l "p") f80 (s2l "carol")]).
Proof.
  split; [repeat constructor|].
  apply (ranks_of_the_document_are_ignored insertion_argsort (s2l "p") f80
           (s2l "carol") df_two df_two_renumbered).
  repeat constructor.
Defined.

(** ** Accuracies that differ *)

Lemma fle_antisym (x y : float) :
  fle x y = true -> fle y x = true -> feq x y = true.
Proof.
  unfold fle, feq, SFleb, SFeqb. float_cases; compare_cases.
Qed.

Lemma NoDup_map_inj {A B} (f : A -> B) (l : list A) :
  NoDup (map f l) ->
  forall a b, In a l -> In b l -> f a = f b -> a = b.
Proof.
  induction l as [|x t IH]; intros Hnd a b Ha Hb Hf; [contradiction|].
  simpl in Hnd. inversion Hnd as [|? ? Hx Ht]; subst.
  destruct Ha as [<-|Ha], Hb as [<-|Hb].
  - reflexivity.
  - exfalso. apply Hx. rewrite Hf. apply in_map. assumption.
  - exfalso. apply Hx. rewrite <- Hf. apply in_map. assumption.
  - apply IH; assumption.
Qed.

(** X10.  When no two rows of different users have equal accuracies, the
    merged table is the same for every sorting algorithm that meets the
    contract of [argsort]. *)
Theorem distinct_accuracies_fix_the_table argsort1 argsort2
    (content prompt : str) (accuracy : float) (user : str) (df : frame) :
  sorts argsort1 -> sorts argsort2 ->
  read_table (table_region content) = Ok df ->
  (forall r s,
      In r (df ++ [new_entry df prompt accuracy user]) ->
      In s (df ++ [new_entry df prompt accuracy user]) ->
      GitHub_Username r <> GitHub_Username s ->
      feq (Accuracy r) (Accuracy s) = false) ->
  leaderboard_of argsort1 content prompt accuracy user
  = leaderboard_of argsort2 content prompt accuracy user.
Proof.
  intros H1 H2 Hdf Hdist. unfold leaderboard_of. rewrite Hdf.
  cbv beta iota delta [bind].
  set (all := df ++ [new_entry df prompt accuracy user]) in *.
  unfold merge. destruct (loc all (groupby_idxmax all)) as [h|e] eqn:Hh;
    [|reflexivity].
  cbv beta iota delta [bind]. f_equal. f_equal.
  pose proof (highest_not_nan _ _ Hh) as Hn.
  pose proof (highest_keys _ _ Hh) as Hk.
  pose proof (highest_spec _ _ Hh) as Hspec.
  assert (Hnd : NoDup (map GitHub_Username h))
    by (rewrite Hk; apply group_keys_NoDup).
  assert (Hin : forall r, In r h -> In r all).
  { intros r Hr.
    destruct (Forall2_In_r _ _ _ Hspec r Hr) as [k [_ [_ [i [Hi _]]]]].
    eapply nth_error_In. eassumption. }
  pose proof (sort_values_perm _ H1 _ Hn) as Hp1.
  pose proof (sort_values_perm _ H2 _ Hn) as Hp2.
  apply (sorted_perm_unique (fun r s => fle (Accuracy s) (Accuracy r) = true)).
  - rewrite Hp1, Hp2. reflexivity.
  - apply Sorted_StronglySorted.
    + intros x y z Hxy Hyz. eapply fle_trans; eassumption.
    + apply sort_values_sorted; assumption.
  - apply Sorted_StronglySorted.
    + intros x y z Hxy Hyz. eapply fle_trans; eassumption.
    + apply sort_values_sorted; assumption.
  - intros x y Hx Hy Hxy Hyx.
    apply (Permutation_in _ Hp1) in Hx, Hy.
    destruct (list_eq_dec ascii_dec (GitHub_Username x) (GitHub_Username y))
      as [E|E].
    + apply (NoDup_map_inj GitHub_Username h); assumption.
    + exfalso. pose proof (Hdist x y (Hin x Hx) (Hin y Hy) E) as Hne.
      rewrite (fle_antisym _ _ Hyx Hxy) in Hne. discriminate.
Qed.

Lemma distinct_accuracies_fix_the_table_witness :
  sorts insertion_argsort /\ sorts reversing_argsort
  /\ insertion_argsort [f85; f85] = [0; 1]%nat
  /\ reversing_argsort [f85; f85] = [1; 0]%nat
  /\ read_table (table_region doc_two) = Ok df_two
  /\ leaderboard_of insertion_argsort doc_two (s2l "p") f80 (s2l "carol")
     = leaderboard_of reversing_argsort doc_two (s2l "p") f80 (s2l "carol").
Proof.
  split; [exact insertion_argsort_sorts|].
  split; [exact reversing_argsort_sorts|].
  split; [vm_compute; reflexivity|].
  split; [vm_compute; reflexivity|].
  split; [vm_compute; reflexivity|].
  apply (distinct_accuracies_fix_the_table insertion_argsort reversing_argsort
           doc_two (s2l "p") f80 (s2l "carol") df_two
           insertion_argsort_sorts reversing_argsort_sorts).
  - vm_compute; reflexivity.
  - intros r s Hr Hs Hne. unfold df_two in Hr, Hs. simpl in Hr, Hs.
    destruct Hr as [<-|[<-|[<-|[]]]]; destruct Hs as [<-|[<-|[<-|[]]]];
      try (exfalso; apply Hne; reflexivity); vm_compute; reflexivity.
Defined.

(** ** A table without rows *)

(** X11.  The first two matches of the region are dropped whatever they
    hold: when the region of the text read has two matches or fewer, the
    update with plain names and an accuracy that is a number writes a table
    with the new entry alone, at rank 1. *)
Theorem region_of_two_matches_gives_one_row argsort
    (file content prompt : str) (accuracy : float) (user : str) :
  universal_newlines file = content ->
  sorts argsort ->
  isnan accuracy = false ->
  plain user = true -> plain prompt = true ->
  (length (findall (table_region content)) <= 2)%nat ->
  generate_leaderboard argsort prompt accuracy user file
  = (Ok tt,
     slice_to content (find content start_marker + len start_marker)
       ++ to_markdown [new_entry [] prompt accuracy user]
       ++ slice_from content (find content end_marker)).
Proof.
  intros Hread Hs Ha _ _ Hlen.
  rewrite generate_leaderboard_run, Hread. unfold leaderboard_of, read_table.
  rewrite skipn_all2 by assumption.
  cbv beta iota delta [map astype_int astype_float bind build_frame].
  change ([] ++ [new_entry [] prompt accuracy user])
    with [new_entry [] prompt accuracy user].
  rewrite (merge_single argsort (new_entry [] prompt accuracy user) Hs Ha).
  reflexivity.
Qed.

Lemma region_of_two_matches_gives_one_row_witness :
  universal_newlines doc_header_only = doc_header_only
  /\ sorts insertion_argsort
  /\ isnan f80 = false
  /\ plain (s2l "carol") = true /\ plain (s2l "p") = true
  /\ (length (findall (table_region doc_header_only)) <= 2)%nat
  /\ generate_leaderboard insertion_argsort (s2l "p") f80 (s2l "carol")
                          doc_header_only
     = (Ok tt,
        slice_to doc_header_only
                 (find doc_header_only start_marker + len start_marker)
          ++ to_markdown [new_entry [] (s2l "p") f80 (s2l "carol")]
          ++ slice_from doc_header_only (find doc_header_only end_marker)).
Proof.
  split; [vm_compute; reflexivity|].
  split; [exact insertion_argsort_sorts|].
  split; [reflexivity|].
  split; [vm_compute; reflexivity|].
  split; [vm_compute; reflexivity|].
  split; [vm_compute; lia|].
  apply (region_of_two_matches_gives_one_row insertion_argsort doc_header_only
           doc_header_only (s2l "p") f80 (s2l "carol")).
  - vm_compute; reflexivity.
  - exact insertion_argsort_sorts.
  - reflexivity.
  - vm_compute; reflexivity.
  - vm_compute; reflexivity.
  - vm_compute; lia.
Defined.

(** ** The row pattern *)

Lemma span_field_spec (s : str) :
  forall f r, span_field s = (f, r) ->
    s = f ++ r /\ ~ In pipe f /\ (r = [] \/ exists r', r = pipe :: r').
Proof.
  induction s as [|c t IH]; intros f r H; simpl in H.
  - inversion H. repeat split; auto.
  - destruct (Ascii.eqb_spec c pipe) as [->|Hne].
    + inversion H. repeat split; eauto.
    + destruct (span_field t) as [f' r'] eqn:E. inversion H; subst.
      destruct (IH f' r eq_refl) as [Ht [Hf Hr]].
      repeat split; [simpl; congruence | | assumption].
      intros [Hc|Hin]; [congruence | contradiction].
Qed.

Lemma span_field_free (f r : str) :
  ~ In pipe f -> span_field (f ++ pipe :: r) = (f, pipe :: r).
Proof.
  induction f as [|c t IH]; intros H; simpl.
  - reflexivity.
  - destruct (Ascii.eqb_spec c pipe) as [->|Hne].
    + exfalso. apply H. left. reflexivity.
    + rewrite IH; [reflexivity|]. intros Hin. apply H. right. assumption.
Qed.

Lemma field_pipe_iff (s f r : str) :
  field_pipe s = Some (f, r) <-> field f /\ s = f ++ pipe :: r.
Proof.
  unfold field_pipe, field. split.
  - destruct (span_field s) as [f' r'] eqn:E.
    destruct (span_field_spec s f' r' E) as [Hs [Hf Hr]].
    destruct f' as [|a f']; [discriminate|].
    destruct r' as [|c r']; [discriminate|].
    intros H. inversion H; subst.
    destruct Hr as [Hr|[r'' Hr]]; [discriminate|]. inversion Hr; subst.
    repeat split; [discriminate | assumption].
  - intros [[Hne Hf] ->]. rewrite span_field_free by assumption.
    destruct f; [congruence | reflexivity].
Qed.

(** X12.  The row pattern matches at the head of a text exactly when the
    text is a pipe followed by five fields, each closed by a pipe; the
    groups are the fields, and a field is any non-empty run of characters
    other than the pipe, line feeds included. *)
Theorem match_row_iff (s : str) (g : groups) (rest : str) :
  match_row s = Some (g, rest)
  <-> (field (g1 g) /\ field (g2 g) /\ field (g3 g) /\ field (g4 g)
       /\ field (g5 g))
      /\ s = fields_line g ++ rest.
Proof.
  unfold fields_line. split.
  - destruct s as [|c s0]; [discriminate|]. simpl.
    destruct (Ascii.eqb_spec c pipe) as [->|Hne]; [|discriminate].
    destruct (field_pipe s0) as [[f1 s1]|] eqn:E1; [|discriminate].
    destruct (field_pipe s1) as [[f2 s2]|] eqn:E2; [|discriminate].
    destruct (field_pipe s2) as [[f3 s3]|] eqn:E3; [|discriminate].
    destruct (field_pipe s3) as [[f4 s4]|] eqn:E4; [|discriminate].
    destruct (field_pipe s4) as [[f5 s5]|] eqn:E5; [|discriminate].
    intros H. inversion H; subst. simpl.
    apply field_pipe_iff in E1, E2, E3, E4, E5.
    destruct E1 as [F1 ->], E2 as [F2 ->], E3 as [F3 ->], E4 as [F4 ->],
      E5 as [F5 ->].
    split; [auto|].
    f_equal. repeat (rewrite <- app_assoc; simpl). reflexivity.
  - intros [[F1 [F2 [F3 [F4 F5]]]] ->].
    replace ((pipe :: g1 g ++ pipe :: g2 g ++ pipe :: g3 g ++ pipe :: g4 g
                ++ pipe :: g5 g ++ [pipe]) ++ rest)
      with (pipe :: g1 g ++ pipe :: g2 g ++ pipe :: g3 g ++ pipe :: g4 g
              ++ pipe :: g5 g ++ pipe :: rest)
      by (simpl; f_equal; repeat (rewrite <- app_assoc; simpl); reflexivity).
    unfold match_row. rewrite Ascii.eqb_refl.
    rewrite (proj2 (field_pipe_iff _ (g1 g) _) (conj F1 eq_refl)).
    rewrite (proj2 (field_pipe_iff _ (g2 g) _) (conj F2 eq_refl)).
    rewrite (proj2 (field_pipe_iff _ (g3 g) _) (conj F3 eq_refl)).
    rewrite (proj2 (field_pipe_iff _ (g4 g) _) (conj F4 eq_refl)).
    rewrite (proj2 (field_pipe_iff _ (g5 g) _) (conj F5 eq_refl)).
    destruct g; reflexivity.
Qed.

(** ** The entry points *)


(** ** Reading back a rendered table *)

Lemma match_row_fields (g : groups) (x : str) :
  plain_fields g -> match_row (fields_line g ++ x) = Some (g, x).
Proof.
  intros [[P1 [P2 [P3 [P4 P5]]]] [N1 [N2 [N3 [N4 N5]]]]].
  unfold fields_line.
  replace ((pipe :: g1 g ++ pipe :: g2 g ++ pipe :: g3 g ++ pipe :: g4 g
              ++ pipe :: g5 g ++ [pipe]) ++ x)
    with (pipe :: g1 g ++ pipe :: g2 g ++ pipe :: g3 g ++ pipe :: g4 g
            ++ pipe :: g5 g ++ pipe :: x).
  - unfold match_row. rewrite Ascii.eqb_refl.
    rewrite (field_pipe_plain (g1 g)) by assumption.
    rewrite (field_pipe_plain (g2 g)) by assumption.
    rewrite (field_pipe_plain (g3 g)) by assumption.
    rewrite (field_pipe_plain (g4 g)) by assumption.
    rewrite (field_pipe_plain (g5 g)) by assumption.
    destruct g; reflexivity.
  - simpl. f_equal. repeat (rewrite <- app_assoc; simpl). reflexivity.
Qed.

Lemma findall_from_app (m x : str) :
  findall_from (length m) (m ++ x) = findall_from O x.
Proof.
  induction m as [|c m IH]; simpl.
  - destruct x; reflexivity.
  - exact IH.
Qed.

(** After a match the search goes on behind it. *)
Lemma findall_fields (g : groups) (x : str) :
  plain_fields g -> findall (fields_line g ++ x) = g :: findall x.
Proof.
  intros H. pose proof (match_row_fields g x H) as Hm.
  unfold findall. unfold fields_line in *.
  set (m := g1 g ++ pipe :: g2 g ++ pipe :: g3 g ++ pipe :: g4 g
              ++ pipe :: g5 g ++ [pipe]) in *.
  change ((pipe :: m) ++ x) with (pipe :: m ++ x) in *.
  unfold findall_from at 1. fold findall_from. rewrite Hm. f_equal.
  rewrite length_app.
  replace (length m + length x - length x)%nat with (length m) by lia.
  apply findall_from_app.
Qed.

(** The search passes over a character other than the pipe. *)
Lemma findall_skip_char (c : ascii) (x : str) :
  c <> pipe -> findall (c :: x) = findall x.
Proof.
  intros H. unfold findall. simpl.
  destruct (Ascii.eqb_spec c pipe) as [E|_]; [contradiction|].
  destruct x; reflexivity.
Qed.

Lemma findall_skip_prefix (a x : str) :
  ~ In pipe a -> findall (a ++ x) = findall x.
Proof.
  induction a as [|c a IH]; intros H; simpl.
  - reflexivity.
  - rewrite findall_skip_char.
    + apply IH. intros Hin. apply H. right. assumption.
    + intros ->. apply H. left. reflexivity.
Qed.

Lemma findall_row_line (line : str) :
  row_line line -> forall x, findall (line ++ x) = findall line ++ findall x.
Proof.
  intros [g [Hg ->]] x.
  rewrite findall_fields by assumption.
  assert (H1 : findall (fields_line g) = [g]).
  { rewrite <- (app_nil_r (fields_line g)).
    rewrite findall_fields by assumption. reflexivity. }
  rewrite H1. reflexivity.
Qed.

(** The matches of lines joined by line feeds are the matches of the lines,
    in order. *)
Lemma findall_join (ls : list str) :
  Forall row_line ls ->
  findall (join [newline] ls) = flat_map findall ls.
Proof.
  induction 1 as [|l t Hl Ht IH]; [reflexivity|].
  destruct t as [|l' t'].
  - simpl. rewrite app_nil_r. reflexivity.
  - change (join [newline] (l :: l' :: t'))
      with (l ++ newline :: join [newline] (l' :: t')).
    rewrite findall_row_line by assumption.
    rewrite findall_skip_char by (vm_compute; discriminate).
    rewrite IH. reflexivity.
Qed.

Lemma row_line_build_row (c1 c2 c3 c4 c5 : str) :
  plain c1 = true -> plain c2 = true -> plain c3 = true ->
  plain c4 = true -> plain c5 = true ->
  row_line (build_row [c1; c2; c3; c4; c5]).
Proof.
  intros. rewrite build_row_five.
  exists (Groups (pad_cell c1) (pad_cell c2) (pad_cell c3) (pad_cell c4)
                 (pad_cell c5)).
  split; [|reflexivity].
  split; simpl; repeat split;
    try (apply plain_pad_cell; assumption); apply pad_cell_nonempty.
Qed.

Lemma row_line_header (l : table_layout) : row_line (header_line l).
Proof.
  rewrite header_line_cells.
  apply row_line_build_row; apply plain_align_header; reflexivity.
Qed.

Lemma row_line_data (l : table_layout) (r : row) :
  plain_row r = true -> row_line (data_line l r).
Proof.
  intros H. pose proof (row_cells_plain l r H) as Hc.
  unfold data_line, row_cells in *.
  inversion Hc as [|? ? P1 Hc1]; subst.
  inversion Hc1 as [|? ? P2 Hc2]; subst.
  inversion Hc2 as [|? ? P3 Hc3]; subst.
  inversion Hc3 as [|? ? P4 Hc4]; subst.
  inversion Hc4 as [|? ? P5 _]; subst.
  apply row_line_build_row; assumption.
Qed.

Lemma plain_dashes (n : Z) : plain (dashes n) = true.
Proof.
  unfold dashes. induction (Z.to_nat n); simpl; [reflexivity | assumption].
Qed.

Lemma plain_segment (c : column) : plain (segment c) = true /\ segment c <> [].
Proof.
  unfold segment. destruct (col_align c).
  - split; [|discriminate].
    change (plain (chr 58 :: dashes (col_width c + 2 - 1)))
      with (inline (chr 58) && plain (dashes (col_width c + 2 - 1))).
    rewrite plain_dashes. reflexivity.
  - split.
    + rewrite plain_app, plain_dashes. reflexivity.
    + intros E. apply app_eq_nil in E. destruct E. discriminate.
Qed.

Lemma row_line_rule (l : table_layout) : row_line (build_line (columns_of l)).
Proof.
  exists (Groups (segment (l_rank l)) (segment (snd (l_image l)))
                 (segment (snd (l_user l))) (segment (snd (l_solution l)))
                 (segment (l_accuracy l))).
  split.
  - split; simpl; repeat split; apply plain_segment.
  - unfold build_line, columns_of, fields_line. simpl.
    f_equal. repeat (rewrite <- app_assoc; simpl). reflexivity.
Qed.

Lemma flat_map_fields (l : table_layout) (df : frame) :
  forallb plain_row df = true ->
  map strip_cells (flat_map (fun r => findall (data_line l r)) df)
  = map (rendered_fields l) df.
Proof.
  induction df as [|r t IH]; intros H; simpl in *.
  - reflexivity.
  - apply andb_prop in H. destruct H as [Hr Ht].
    rewrite map_app, (data_line_fields l r Hr), (IH Ht). reflexivity.
Qed.

Lemma findall_one (line : str) :
  row_line line -> exists g, findall line = [g].
Proof.
  intros [g [Hg ->]]. exists g.
  rewrite <- (app_nil_r (fields_line g)).
  rewrite findall_fields by assumption. reflexivity.
Qed.

(** What the row pattern finds in a rendered table: the header, the rule,
    and the lines of the rows. *)
Lemma findall_to_markdown (df : frame) :
  forallb plain_row df = true ->
  exists gh gr,
    findall (to_markdown df)
    = gh :: gr :: flat_map (fun r => findall (data_line (layout_of df) r)) df.
Proof.
  intros H. unfold to_markdown.
  destruct (findall_one _ (row_line_header (layout_of df))) as [gh Hh].
  destruct (findall_one _ (row_line_rule (layout_of df))) as [gr Hr].
  exists gh, gr. rewrite findall_join.
  - simpl. rewrite Hh, Hr. simpl.
    rewrite flat_map_concat_map, map_map, <- flat_map_concat_map.
    reflexivity.
  - constructor; [apply row_line_header|].
    constructor; [apply row_line_rule|].
    apply Forall_map, Forall_forall. intros r Hin.
    apply row_line_data. rewrite forallb_forall in H. auto.
Qed.

Lemma findall_rendered (df : frame) :
  forallb plain_row df = true ->
  map strip_cells (skipn 2 (findall (start_marker ++ to_markdown df)))
  = map (rendered_fields (layout_of df)) df
  /\ length (findall (start_marker ++ to_markdown df)) = (2 + length df)%nat.
Proof.
  intros H.
  assert (Hs : findall (start_marker ++ to_markdown df)
               = findall (to_markdown df)).
  { apply findall_skip_prefix. vm_compute. intuition discriminate. }
  rewrite Hs. destruct (findall_to_markdown df H) as [gh [gr ->]].
  pose proof (flat_map_fields (layout_of df) df H) as Hf.
  split; [exact Hf|].
  apply (f_equal (@length groups)) in Hf. rewrite !length_map in Hf.
  simpl. rewrite Hf. reflexivity.
Qed.

(** X13.  What one run renders the next run reads back: in the begin marker
    followed by the rendered table of a frame with plain text cells, the
    row pattern has two matches for the header and the rule and one per
    row, and the fields of the rows, stripped, are the rank in decimal, the
    text cells as formatted, and the accuracy in the format "g". *)
Theorem rendered_table_reads_back (df : frame) :
  forallb plain_row df = true ->
  map strip_cells (skipn 2 (findall (start_marker ++ to_markdown df)))
  = map (rendered_fields (layout_of df)) df
  /\ length (findall (start_marker ++ to_markdown df)) = (2 + length df)%nat.
Proof. apply findall_rendered. Qed.

Lemma rendered_table_reads_back_witness :
  forallb plain_row df_two = true
  /\ map strip_cells (skipn 2 (findall (start_marker ++ to_markdown df_two)))
     = map (rendered_fields (layout_of df_two)) df_two
  /\ length (findall (start_marker ++ to_markdown df_two))
     = (2 + length df_two)%nat.
Proof.
  split; [vm_compute; reflexivity|].
  apply (rendered_table_reads_back df_two).
  vm_compute; reflexivity.
Defined.

(** ** The first occurrence *)

Lemma startswith_prefix (p x : str) : startswith p (p ++ x) = true.
Proof.
  induction p as [|a p IH]; simpl; [reflexivity|].
  rewrite Ascii.eqb_refl. exact IH.
Qed.

Lemma startswith_app_l (p x b : str) :
  (length p <= length x)%nat -> startswith p (x ++ b) = startswith p x.
Proof.
  revert x. induction p as [|a p IH]; intros x H; simpl; [reflexivity|].
  destruct x as [|c x]; simpl in *; [lia|].
  rewrite IH by lia. reflexivity.
Qed.

(** Whether the pattern occurs at [j] depends on the characters from [j] to
    the end of the occurrence only. *)
Lemma startswith_local (p a b b' : str) (j : nat) :
  (j + length p <= length a)%nat ->
  startswith p (skipn j (a ++ b)) = startswith p (skipn j (a ++ b')).
Proof.
  intros H. rewrite !skipn_app.
  replace (j - length a)%nat with O by lia. simpl.
  rewrite !startswith_app_l by (rewrite length_skipn; lia). reflexivity.
Qed.

Lemma startswith_nth (p s : str) :
  startswith p s = true ->
  forall k, (k < length p)%nat -> nth_error s k = nth_error p k.
Proof.
  revert s. induction p as [|a p IH]; intros s H k Hk; simpl in *; [lia|].
  destruct s as [|c s]; [discriminate|].
  apply andb_prop in H. destruct H as [Hac Hp].
  apply Ascii.eqb_eq in Hac. subst c.
  destruct k as [|k]; simpl; [reflexivity|]. apply IH; [assumption | lia].
Qed.

Lemma find_from_first (p : str) (k : nat) :
  forall s i,
    startswith p (skipn k s) = true ->
    (forall j, (j < k)%nat -> startswith p (skipn j s) = false) ->
    (k <= length s)%nat ->
    find_from p s i = i + Z.of_nat k.
Proof.
  induction k as [|k IH]; intros s i Hk Hbefore Hlen.
  - simpl in Hk. destruct s; simpl; rewrite Hk; lia.
  - destruct s as [|c t]; [simpl in Hlen; lia|].
    pose proof (Hbefore O (Nat.lt_0_succ k)) as H0. simpl in H0.
    simpl. rewrite H0. rewrite (IH t (i + 1)).
    + lia.
    + exact Hk.
    + intros j Hj. apply (Hbefore (S j)). lia.
    + simpl in Hlen. lia.
Qed.

Lemma find_first (s p : str) (k : nat) :
  startswith p (skipn k s) = true ->
  (forall j, (j < k)%nat -> startswith p (skipn j s) = false) ->
  (k <= length s)%nat ->
  find s p = Z.of_nat k.
Proof.
  intros. unfold find. rewrite (find_from_first p k); auto.
Qed.

Lemma find_from_before (p s : str) :
  forall i k, 0 <= i -> find_from p s i = i + Z.of_nat k ->
    startswith p (skipn k s) = true
    /\ forall j, (j < k)%nat -> startswith p (skipn j s) = false.
Proof.
  induction s as [|c t IH]; intros i k Hi H; simpl in H.
  - destruct (startswith p []) eqn:E; [|lia].
    assert (k = O) by lia. subst k. split; [exact E | intros j Hj; lia].
  - destruct (startswith p (c :: t)) eqn:E.
    + assert (k = O) by lia. subst k. split; [exact E | intros j Hj; lia].
    + destruct (find_from_range p t (i + 1)) as [Hr|Hr]; [lia | lia |].
      destruct k as [|k]; [lia|].
      destruct (IH (i + 1) k) as [Hk Hb]; [lia | lia |].
      split; [exact Hk|].
      intros [|j] Hj; simpl; [exact E | apply Hb; lia].
Qed.

Lemma find_before (s p : str) (k : nat) :
  find s p = Z.of_nat k ->
  forall j, (j < k)%nat -> startswith p (skipn j s) = false.
Proof.
  intros H. unfold find in H.
  destruct (find_from_before p s 0 k) as [_ Hb]; [lia | lia | exact Hb].
Qed.

(** ** The text of the rendered table *)

Lemma row_line_head (l : str) : row_line l -> hd_error l = Some pipe.
Proof. intros [g [_ ->]]. reflexivity. Qed.

Lemma row_line_no_newline (l : str) : row_line l -> ~ In newline l.
Proof.
  intros [g [[[P1 [P2 [P3 [P4 P5]]]] _] ->]].
  apply on_line_no_newline. unfold fields_line.
  apply five_fields_on_line; assumption.
Qed.

Lemma join_head (l : str) (ls : list str) :
  l <> [] -> hd_error (join [newline] (l :: ls)) = hd_error l.
Proof.
  intros H. destruct l as [|c l]; [congruence|].
  destruct ls; reflexivity.
Qed.

Lemma table_text_join (ls : list str) :
  Forall row_line ls ->
  forall i, nth_error (join [newline] ls) i = Some newline ->
    nth_error (join [newline] ls) (S i) = Some pipe.
Proof.
  induction 1 as [|l t Hl Ht IH]; intros i Hi.
  - destruct i; discriminate.
  - destruct t as [|l' t'].
    + exfalso. simpl in Hi. apply nth_error_In in Hi.
      exact (row_line_no_newline _ Hl Hi).
    + assert (Hrest : hd_error (join [newline] (l' :: t')) = Some pipe).
      { inversion Ht as [|? ? Hl' _]; subst.
        pose proof (row_line_head _ Hl') as Hh.
        rewrite join_head; [exact Hh|]. intros ->. discriminate. }
      change (join [newline] (l :: l' :: t'))
        with (l ++ newline :: join [newline] (l' :: t')) in *.
      set (rest := join [newline] (l' :: t')) in *.
      destruct (Nat.lt_ge_cases i (length l)) as [Hlt|Hge].
      * exfalso. rewrite nth_error_app1 in Hi by assumption.
        apply nth_error_In in Hi. exact (row_line_no_newline _ Hl Hi).
      * rewrite nth_error_app2 in Hi by assumption.
        rewrite nth_error_app2 by lia.
        replace (S i - length l)%nat with (S (i - length l)) by lia.
        destruct (i - length l)%nat as [|k] eqn:E.
        -- simpl. destruct rest; [discriminate | exact Hrest].
        -- simpl in *. apply IH. exact Hi.
Qed.

Lemma table_text_to_markdown (df : frame) :
  forallb plain_row df = true -> table_text (to_markdown df).
Proof.
  intros H. unfold to_markdown.
  assert (Hl : Forall row_line
                 (header_line (layout_of df)
                    :: build_line (columns_of (layout_of df))
                    :: map (data_line (layout_of df)) df)).
  { constructor; [apply row_line_header|].
    constructor; [apply row_line_rule|].
    apply Forall_map, Forall_forall. intros r Hin.
    apply row_line_data. rewrite forallb_forall in H. auto. }
  split; [|apply table_text_join; exact Hl].
  rewrite join_head.
  - apply row_line_head, row_line_header.
  - intros E. pose proof (row_line_head _ (row_line_header (layout_of df))) as Hh.
    rewrite E in Hh. discriminate.
Qed.

(** ** The markers of the document written *)

Lemma end_marker_newline (k : nat) :
  nth_error end_marker k = Some newline -> k = O.
Proof.
  destruct k as [|k]; [reflexivity|]. intros H. exfalso.
  unfold end_marker in H. simpl in H. apply nth_error_In in H.
  vm_compute in H. intuition discriminate.
Qed.

Lemma start_marker_last :
  nth_error start_marker 28 = Some newline.
Proof. reflexivity. Qed.

Lemma nth_error_skipn_add {A} (l : list A) (j k : nat) :
  nth_error (skipn j l) k = nth_error l (j + k).
Proof.
  revert l. induction j as [|j IH]; intros l; simpl; [reflexivity|].
  destruct l; [destruct k; reflexivity | apply IH].
Qed.

(** The begin marker of the document written is where it was. *)
Lemma find_start_written (pre rest t tail : str) :
  find (pre ++ start_marker ++ rest) start_marker = len pre ->
  find (pre ++ start_marker ++ t ++ tail) start_marker = len pre.
Proof.
  intros H. apply find_first.
  - rewrite skipn_app, skipn_all, Nat.sub_diag.
    change (startswith start_marker (start_marker ++ t ++ tail) = true).
    apply startswith_prefix.
  - intros j Hj.
    rewrite (app_assoc pre start_marker (t ++ tail)).
    rewrite (startswith_local start_marker (pre ++ start_marker) _ rest)
      by (rewrite length_app; lia).
    rewrite <- app_assoc. apply (find_before _ _ _ H). assumption.
  - rewrite length_app. lia.
Qed.

(** The first end marker of the document written is the one behind the
    table. *)
Lemma find_end_written (pre rest t post : str) (e : nat) :
  find (pre ++ start_marker ++ rest) end_marker = Z.of_nat e ->
  (length pre + length start_marker <= e)%nat ->
  table_text t ->
  find (pre ++ start_marker ++ t ++ end_marker ++ post) end_marker
  = Z.of_nat (length pre + length start_marker + length t).
Proof.
  intros He Hle [Hhd Hnl]. apply find_first.
  - rewrite !app_assoc. rewrite <- (app_assoc _ end_marker post).
    rewrite skipn_app.
    rewrite skipn_all2 by (rewrite !length_app; lia).
    rewrite !length_app.
    replace (length pre + length start_marker + length t
             - (length pre + length start_marker + length t))%nat
      with O by lia.
    change (startswith end_marker (end_marker ++ post) = true).
    apply startswith_prefix.
  - intros j Hj.
    destruct (startswith end_marker
                (skipn j (pre ++ start_marker ++ t ++ end_marker ++ post)))
      eqn:E; [|reflexivity].
    exfalso.
    set (p := pre ++ start_marker) in *.
    assert (Hp : length p = (length pre + length start_marker)%nat)
      by (unfold p; apply length_app).
    assert (Hn : pre ++ start_marker ++ t ++ end_marker ++ post
                 = p ++ t ++ end_marker ++ post)
      by (unfold p; rewrite <- app_assoc; reflexivity).
    rewrite Hn in E.
    assert (Hat : forall k, (k < 27)%nat ->
              nth_error (p ++ t ++ end_marker ++ post) (j + k)
              = nth_error end_marker k).
    { intros k Hk. rewrite <- nth_error_skipn_add.
      apply startswith_nth; [exact E | exact Hk]. }
    assert (Hlast : nth_error p (length p - 1) = Some newline).
    { unfold p. rewrite nth_error_app2 by (rewrite length_app; simpl; lia).
      rewrite length_app.
      replace (length pre + length start_marker - 1 - length pre)%nat
        with 28%nat by (simpl; lia).
      reflexivity. }
    assert (Hsm : length start_marker = 29%nat) by reflexivity.
    destruct (Nat.le_gt_cases (j + 27) (length p)) as [Hin|Hout].
    + (* the occurrence lies in the part kept from the old document *)
      rewrite (startswith_local end_marker p _ rest) in E
        by (change (length end_marker) with 27%nat; lia).
      unfold p in E. rewrite <- app_assoc in E.
      rewrite (find_before _ _ _ He j) in E; [discriminate | lia].
    + destruct (Nat.lt_trichotomy j (length p - 1)) as [Hlt|[Heq|Hgt]].
      * (* the line feed that ends the begin marker falls inside *)
        pose proof (Hat (length p - 1 - j)%nat) as H1.
        replace (j + (length p - 1 - j))%nat with (length p - 1)%nat in H1
          by lia.
        rewrite nth_error_app1 in H1 by lia.
        rewrite Hlast in H1.
        assert (H0 : (length p - 1 - j)%nat = O)
          by (apply end_marker_newline; symmetry; apply H1; lia).
        lia.
      * (* the occurrence would start at that line feed *)
        pose proof (Hat 1%nat) as H1.
        replace (j + 1)%nat with (length p + 0)%nat in H1 by lia.
        rewrite nth_error_app2 in H1 by lia.
        replace (length p + 0 - length p)%nat with O in H1 by lia.
        destruct t as [|c t']; [discriminate|].
        simpl in Hhd. inversion Hhd; subst c.
        simpl in H1. specialize (H1 ltac:(lia)). discriminate.
      * (* the occurrence would start inside the table *)
        pose proof (Hat 0%nat) as H0. pose proof (Hat 1%nat) as H1.
        rewrite Nat.add_0_r in H0.
        rewrite nth_error_app2 in H0, H1 by lia.
        rewrite nth_error_app1 in H0 by lia.
        specialize (H0 ltac:(lia)). simpl in H0.
        apply Hnl in H0.
        assert (Hs : (j + 1 - length p)%nat = S (j - length p)) by lia.
        rewrite Hs in H1.
        assert (Hlt : (S (j - length p) < length t)%nat)
          by (apply nth_error_Some; congruence).
        rewrite nth_error_app1 in H1 by exact Hlt.
        rewrite H0 in H1. specialize (H1 ltac:(lia)). discriminate.
  - rewrite !length_app. lia.
Qed.

(** ** Integers written and read *)

Lemma digit_char_val (d : Z) :
  0 <= d <= 9 -> is_digit (digit_char d) = true /\ digit_val (digit_char d) = d.
Proof.
  intros H. unfold is_digit, digit_val, digit_char.
  rewrite code_chr by lia. split; [|lia].
  apply andb_true_intro. split; apply Z.leb_le; lia.
Qed.

Lemma digits_value_snoc (ds : str) (c : ascii) :
  digits_value (ds ++ [c]) = 10 * digits_value ds + digit_val c.
Proof.
  unfold digits_value. rewrite fold_left_app. reflexivity.
Qed.

(** With enough fuel [digits_of] puts the digits of [n] before [acc]. *)
Lemma digits_of_value (fuel : nat) :
  forall n acc, 0 <= n < 2 ^ Z.of_nat fuel -> (1 <= fuel)%nat ->
    exists ds, digits_of fuel n acc = ds ++ acc
               /\ forallb is_digit ds = true /\ ds <> []
               /\ digits_value ds = n.
Proof.
  induction fuel as [|f IH]; intros n acc Hn Hf; [lia|].
  simpl digits_of. destruct (Z.ltb_spec n 10) as [Hlt|Hge].
  - exists [digit_char n].
    destruct (digit_char_val n) as [Hd Hv]; [lia|].
    split; [reflexivity|]. split; [simpl; rewrite Hd; reflexivity|].
    split; [discriminate|]. unfold digits_value. simpl. lia.
  - assert (Hpow : 2 ^ Z.of_nat (S f) = 2 * 2 ^ Z.of_nat f).
    { rewrite Nat2Z.inj_succ, Z.pow_succ_r by lia. reflexivity. }
    assert (Hdiv : 0 <= n / 10 < 2 ^ Z.of_nat f).
    { split; [apply Z.div_pos; lia|].
      apply Z.div_lt_upper_bound; lia. }
    assert (Hf1 : (1 <= f)%nat).
    { destruct f as [|f']; [|lia]. simpl in Hpow. lia. }
    destruct (IH (n / 10) (digit_char (n mod 10) :: acc) Hdiv Hf1)
      as [ds [Hds [Hdig [Hne Hval]]]].
    destruct (digit_char_val (n mod 10)) as [Hd Hv].
    { pose proof (Z.mod_pos_bound n 10). lia. }
    exists (ds ++ [digit_char (n mod 10)]).
    split; [rewrite Hds, <- app_assoc; reflexivity|].
    split; [rewrite forallb_app, Hdig; simpl; rewrite Hd; reflexivity|].
    split; [intros E; apply app_eq_nil in E; destruct E; discriminate|].
    rewrite digits_value_snoc, Hval, Hv.
    pose proof (Z.div_mod n 10). lia.
Qed.

Lemma decimal_value (n : Z) :
  0 <= n ->
  forallb is_digit (decimal n) = true /\ decimal n <> []
  /\ digits_value (decimal n) = n.
Proof.
  intros Hn. unfold decimal.
  destruct (digits_of_value (S (Z.to_nat (Z.log2 n))) n []) as [ds [-> H]].
  - split; [assumption|].
    rewrite Nat2Z.inj_succ, Z2Nat.id by apply Z.log2_nonneg.
    destruct (Z.eq_dec n 0) as [->|Hne]; [reflexivity|].
    apply Z.log2_spec. lia.
  - lia.
  - rewrite app_nil_r. exact H.
Qed.

Lemma is_digit_code (c : ascii) : is_digit c = true -> 48 <= code c <= 57.
Proof.
  unfold is_digit. intros H. apply andb_prop in H. destruct H as [H1 H2].
  apply Z.leb_le in H1, H2. lia.
Qed.

(** A run of digits is taken whole. *)
Lemma span_digits_all (ds : str) :
  forallb is_digit ds = true -> span_digits ds = (ds, []).
Proof.
  induction ds as [|c t IH]; intros H; [reflexivity|].
  simpl in H. apply andb_prop in H. destruct H as [Hc Ht].
  simpl. rewrite Hc. destruct t as [|u t']; [reflexivity|].
  destruct (Ascii.eqb_spec u underscore) as [->|_].
  - simpl in Ht. discriminate.
  - rewrite (IH Ht). reflexivity.
Qed.

Lemma span_sign_digit (c : ascii) (t : str) :
  is_digit c = true -> span_sign (c :: t) = (false, c :: t).
Proof.
  intros H. apply is_digit_code in H. unfold span_sign.
  destruct (Ascii.eqb_spec c (chr 45)) as [->|_];
    [change (code (chr 45)) with 45 in H; lia|].
  destruct (Ascii.eqb_spec c (chr 43)) as [->|_];
    [change (code (chr 43)) with 43 in H; lia|].
  reflexivity.
Qed.

Lemma py_int_decimal (n : Z) : 0 <= n -> py_int (decimal n) = Some n.
Proof.
  intros Hn. destruct (decimal_value n Hn) as [Hd [Hne Hv]].
  unfold py_int.
  rewrite (strip_trimmed (decimal n))
    by (apply solid_trimmed, decimal_solid; assumption).
  destruct (decimal n) as [|c t] eqn:E; [congruence|].
  simpl in Hd. apply andb_prop in Hd. destruct Hd as [Hc Ht].
  rewrite span_sign_digit by assumption.
  rewrite span_digits_all by (simpl; rewrite Hc, Ht; reflexivity).
  rewrite Hv. reflexivity.
Qed.

(** [int(str(n))] is [n]. *)
Lemma py_int_str_of_int (n : Z) : py_int (str_of_int n) = Some n.
Proof.
  unfold str_of_int. destruct (Z.ltb_spec n 0) as [Hneg|Hpos];
    [|apply py_int_decimal; assumption].
  assert (Hn : 0 <= - n) by lia.
  destruct (decimal_value (- n) Hn) as [Hd [Hne Hv]].
  unfold py_int.
  rewrite (strip_trimmed (chr 45 :: decimal (- n))).
  - change (span_sign (chr 45 :: decimal (- n))) with (true, decimal (- n)).
    cbv beta iota. rewrite span_digits_all by assumption.
    destruct (decimal (- n)) as [|c t] eqn:E; [congruence|].
    rewrite Hv. f_equal. lia.
  - apply solid_trimmed.
    change (forallb solid (chr 45 :: decimal (- n)))
      with (solid (chr 45) && forallb solid (decimal (- n))).
    rewrite decimal_solid by assumption. reflexivity.
Qed.

Lemma astype_int_ranks (df : frame) (l : table_layout) :
  Forall (fun r => int64_min <= Rank r <= int64_max) df ->
  astype_int (map g1 (map (rendered_fields l) df)) = Ok (map Rank df).
Proof.
  induction 1 as [|r t Hr _ IH]; simpl; [reflexivity|].
  rewrite py_int_str_of_int.
  replace ((int64_min <=? Rank r) && (Rank r <=? int64_max)) with true
    by (symmetry; apply andb_true_intro; split; apply Z.leb_le; lia).
  rewrite IH. reflexivity.
Qed.

(** ** Floats written and read *)

Lemma shr_1_nonneg (mrs : shr_record) : 0 <= shr_m mrs -> 0 <= shr_m (shr_1 mrs).
Proof.
  destruct mrs as [m r s]. simpl.
  destruct m as [|[p|p|]|[p|p|]]; simpl; lia.
Qed.

Lemma iter_shr_1_nonneg (p : positive) :
  forall mrs, 0 <= shr_m mrs -> 0 <= shr_m (iter_pos shr_1 p mrs).
Proof.
  induction p as [p IH|p IH|]; intros mrs H; simpl.
  - apply IH, IH, shr_1_nonneg. assumption.
  - apply IH, IH. assumption.
  - apply shr_1_nonneg. assumption.
Qed.

Lemma shr_fexp_nonneg (m e : Z) (l : location) :
  0 <= m -> 0 <= shr_m (fst (shr_fexp prec emax m e l)).
Proof.
  intros H. unfold shr_fexp, shr.
  assert (H0 : 0 <= shr_m (shr_record_of_loc m l))
    by (destruct l as [|[]]; simpl; assumption).
  destruct (fexp prec emax (Zdigits2 m + e) - e); simpl; try assumption.
  apply iter_shr_1_nonneg. assumption.
Qed.

Lemma round_nearest_even_nonneg (m : Z) (l : location) :
  0 <= m -> 0 <= round_nearest_even m l.
Proof.
  intros H. unfold round_nearest_even.
  destruct l as [|[]]; try destruct (Z.even m); lia.
Qed.

Lemma binary_round_aux_number (sx : bool) (mx ex : Z) (lx : location) :
  0 <= mx -> isnan (binary_round_aux prec emax sx mx ex lx) = false.
Proof.
  intros H. unfold binary_round_aux.
  pose proof (shr_fexp_nonneg mx ex lx H) as H1.
  destruct (shr_fexp prec emax mx ex lx) as [mrs' e']. simpl in H1.
  pose proof (shr_fexp_nonneg _ e' loc_Exact
                (round_nearest_even_nonneg _ (loc_of_shr_record mrs') H1))
    as H2.
  destruct (shr_fexp prec emax _ e' loc_Exact) as [mrs'' e'']. simpl in H2.
  destruct (shr_m mrs'') as [|m|m]; [reflexivity | | lia].
  destruct (e'' <=? emax - prec); reflexivity.
Qed.

Lemma div_core_nonneg (m1 m2 : positive) (e1 e2 : Z) :
  0 <= fst (fst (SFdiv_core_binary prec emax (Zpos m1) e1 (Zpos m2) e2)).
Proof.
  unfold SFdiv_core_binary.
  set (s := e1 - e2 - _).
  set (m' := match s with 0 => Zpos m1 | Zpos _ => Z.shiftl (Zpos m1) s
                        | Zneg _ => 0 end).
  assert (Hm : 0 <= m').
  { unfold m'. destruct s; try lia. apply Z.shiftl_nonneg. lia. }
  pose proof (Z.div_pos m' (Zpos m2) Hm ltac:(lia)) as Hq.
  unfold Z.div in Hq.
  destruct (Z.div_eucl m' (Zpos m2)) as [q r]. simpl. exact Hq.
Qed.

(** The quotient of two finite numbers is a number. *)
Lemma SFdiv_number (sx sy : bool) (mx my : positive) (ex ey : Z) :
  isnan (SFdiv prec emax (S754_finite sx mx ex) (S754_finite sy my ey))
  = false.
Proof.
  unfold SFdiv. pose proof (div_core_nonneg mx my ex ey) as H.
  destruct (SFdiv_core_binary prec emax (Zpos mx) ex (Zpos my) ey)
    as [[mz ez] lz]. simpl in H.
  apply binary_round_aux_number. assumption.
Qed.

Lemma float_of_decimal_number (neg : bool) (m e : Z) :
  isnan (float_of_decimal neg m e) = false.
Proof.
  unfold float_of_decimal. destruct m; try reflexivity.
  apply SFdiv_number.
Qed.

Lemma span_digits_nondigit (u : ascii) (r : str) :
  is_digit u = false -> span_digits (u :: r) = ([], u :: r).
Proof. intros H. simpl. rewrite H. reflexivity. Qed.

Lemma span_digits_cons (c u : ascii) (t : str) :
  is_digit c = true -> u <> underscore ->
  span_digits (c :: u :: t)
  = let (ds, r) := span_digits (u :: t) in (c :: ds, r).
Proof.
  intros Hc Hu.
  change (span_digits (c :: u :: t))
    with (if is_digit c then
            if Ascii.eqb u underscore then
              match t with
              | d :: _ =>
                  if is_digit d
                  then let (ds, r) := span_digits t in (c :: ds, r)
                  else ([c], u :: t)
              | [] => ([c], u :: t)
              end
            else let (ds, r) := span_digits (u :: t) in (c :: ds, r)
          else ([], c :: u :: t)).
  rewrite Hc. destruct (Ascii.eqb_spec u underscore); [contradiction|].
  reflexivity.
Qed.

Lemma digit_not_underscore (c : ascii) : is_digit c = true -> c <> underscore.
Proof.
  intros H ->. apply is_digit_code in H.
  change (code underscore) with 95 in H. lia.
Qed.

(** A run of digits is taken up to a character that is neither a digit nor
    an underscore. *)
Lemma span_digits_app (ip rest : str) :
  forallb is_digit ip = true ->
  (forall c r, rest = c :: r -> is_digit c = false /\ c <> underscore) ->
  span_digits (ip ++ rest) = (ip, rest).
Proof.
  intros Hip Hrest. induction ip as [|c t IH].
  - destruct rest as [|u r]; [reflexivity|].
    apply span_digits_nondigit. apply (Hrest u r eq_refl).
  - simpl in Hip. apply andb_prop in Hip. destruct Hip as [Hc Ht].
    specialize (IH Ht).
    destruct t as [|c' t'].
    + destruct rest as [|u r]; [simpl; rewrite Hc; reflexivity|].
      destruct (Hrest u r eq_refl) as [Hu Hne].
      change (([c] ++ u :: r)) with (c :: u :: r).
      rewrite span_digits_cons by assumption.
      rewrite span_digits_nondigit by assumption. reflexivity.
    + change ((c :: c' :: t') ++ rest) with (c :: c' :: (t' ++ rest)).
      rewrite span_digits_cons.
      * change (c' :: t' ++ rest) with ((c' :: t') ++ rest). rewrite IH.
        reflexivity.
      * assumption.
      * apply digit_not_underscore. simpl in Ht.
        apply andb_prop in Ht. tauto.
Qed.

Lemma lower_digit_differs (c : ascii) (t w : str) :
  is_digit c = true ->
  (forall a w', w = a :: w' -> is_digit a = false) ->
  str_eqb (lower (c :: t)) w = false.
Proof.
  intros Hc Hw. destruct (str_eqb (lower (c :: t)) w) eqn:E; [|reflexivity].
  apply str_eqb_eq in E. simpl in E.
  assert (Hl : lower_char c = c).
  { unfold lower_char. apply is_digit_code in Hc.
    destruct (Z.leb_spec 65 (code c)); [lia | reflexivity]. }
  rewrite Hl in E. symmetry in E. apply Hw in E. congruence.
Qed.

Lemma span_exponent_part (ex : str) :
  exponent_part ex -> exists e, span_exponent ex = Some (e, []).
Proof.
  intros [->|[sg [ds [-> [Hsg [Hds Hne]]]]]]; [exists 0; reflexivity|].
  unfold span_exponent.
  change (Ascii.eqb (lower_char (chr 101)) (chr 101)) with true. cbv iota.
  assert (Hs : exists b, span_sign (sg :: ds) = (b, ds))
    by (destruct Hsg as [->| ->]; eexists; reflexivity).
  destruct Hs as [b ->]. rewrite span_digits_all by assumption.
  destruct ds; [congruence|]. eexists. reflexivity.
Qed.

Lemma exponent_part_head (ex : str) (c : ascii) (r : str) :
  exponent_part ex -> ex = c :: r -> c = chr 101.
Proof.
  intros [->|[sg [ds [-> _]]]] E; [discriminate|]. congruence.
Qed.

(** [float] accepts a numeral: an optional minus sign, digits, an optional
    fractional part and an optional exponent part; the value is a number. *)
Lemma py_float_numeral (neg : bool) (ip pf ex : str) :
  forallb is_digit ip = true -> ip <> [] ->
  fraction_part pf -> exponent_part ex ->
  let s := (if neg then [chr 45] else []) ++ ip ++ pf ++ ex in
  strip s = s ->
  exists m e, py_float s = Some (float_of_decimal neg m e).
Proof.
  intros Hip Hne Hpf Hex s Hstrip. unfold py_float. rewrite Hstrip.
  destruct ip as [|c t]; [congruence|].
  pose proof Hip as Hct. simpl in Hct. apply andb_prop in Hct.
  destruct Hct as [Hc Ht].
  assert (Hsign : span_sign s = (neg, (c :: t) ++ pf ++ ex)).
  { unfold s. destruct neg; [reflexivity|].
    apply span_sign_digit. assumption. }
  rewrite Hsign.
  change ((c :: t) ++ pf ++ ex) with (c :: (t ++ pf ++ ex)).
  rewrite !(lower_digit_differs c) by
    (try assumption; intros a w' E; inversion E; reflexivity).
  cbv beta iota. simpl orb. cbv iota.
  change (c :: (t ++ pf ++ ex)) with ((c :: t) ++ pf ++ ex).
  destruct (span_exponent_part ex Hex) as [e He].
  destruct Hpf as [->|[f [-> Hf]]].
  - rewrite span_digits_app.
    + simpl app at 1.
      assert (Hfp : (match ex with
                     | c0 :: t0 =>
                         if Ascii.eqb c0 (chr 46) then span_digits t0
                         else ([], ex)
                     | [] => ([], [])
                     end) = ([], ex)).
      { destruct ex as [|c0 t0]; [reflexivity|].
        rewrite (exponent_part_head _ c0 t0 Hex eq_refl). reflexivity. }
      change ([] ++ ex) with ex. rewrite Hfp, He. simpl. eauto.
    + assumption.
    + intros c0 r E. simpl in E.
      rewrite (exponent_part_head _ c0 r Hex E).
      split; [reflexivity | discriminate].
  - rewrite span_digits_app.
    + change ((chr 46 :: f) ++ ex) with (chr 46 :: (f ++ ex)).
      change (Ascii.eqb (chr 46) (chr 46)) with true. cbv iota.
      rewrite span_digits_app.
      * change (Ascii.eqb (chr 46) (chr 46)) with true. cbv beta iota.
        rewrite He. simpl. eauto.
      * assumption.
      * intros c0 r E. rewrite (exponent_part_head _ c0 r Hex E).
        split; [reflexivity | discriminate].
    + assumption.
    + intros c0 r E. inversion E. split; [reflexivity | discriminate].
Qed.

Lemma rstrip_zeros_digits (f : str) :
  forallb is_digit f = true -> forallb is_digit (rstrip_zeros f) = true.
Proof.
  intros H. unfold rstrip_zeros.
  apply forallb_rev, forallb_lstrip_zeros, forallb_rev. assumption.
Qed.

Lemma point_frac_part (f : str) :
  forallb is_digit f = true -> fraction_part (point_frac f).
Proof.
  intros H. apply rstrip_zeros_digits in H. unfold point_frac.
  destruct (rstrip_zeros f) as [|c t]; [left; reflexivity|].
  right. exists (c :: t). split; [reflexivity | assumption].
Qed.

Lemma exp_digits_part (x : Z) : exponent_part (chr 101 :: exp_digits x).
Proof.
  right. unfold exp_digits.
  destruct (decimal_value (Z.abs x)) as [Hd [Hne _]]; [lia|].
  exists (if x <? 0 then chr 45 else chr 43),
    (if Z.abs x <? 10 then chr 48 :: decimal (Z.abs x)
     else decimal (Z.abs x)).
  split; [reflexivity|].
  split; [destruct (x <? 0); auto|].
  destruct (Z.abs x <? 10); split; try assumption; try discriminate.
Qed.

Lemma firstn_nonempty {A} (k : nat) (l : list A) :
  (1 <= k)%nat -> l <> [] -> firstn k l <> [].
Proof.
  intros Hk Hl. destruct k; [lia|]. destruct l; [congruence | discriminate].
Qed.

(** The body of the format "g" is a numeral. *)
Lemma format_g_pos_numeral (n d : Z) :
  0 < n -> 0 < d ->
  exists ip pf ex,
    format_g_pos n d = ip ++ pf ++ ex
    /\ forallb is_digit ip = true /\ ip <> []
    /\ fraction_part pf /\ exponent_part ex.
Proof.
  intros Hn Hd. unfold format_g_pos.
  pose proof (sig_digits_nonneg 6 n d Hn Hd) as Hm.
  destruct (sig_digits 6 n d) as [m x]. simpl in Hm.
  destruct (decimal_value m Hm) as [Hds [Hne _]].
  destruct ((x <? -4) || (6 <=? x)).
  - exists (firstn 1 (decimal m)), (point_frac (skipn 1 (decimal m))),
      (chr 101 :: exp_digits x).
    split; [reflexivity|].
    split; [apply forallb_firstn; assumption|].
    split; [apply firstn_nonempty; [lia | assumption]|].
    split; [apply point_frac_part, forallb_skipn; assumption|].
    apply exp_digits_part.
  - destruct (Z.leb_spec 0 x).
    + exists (firstn (Z.to_nat (x + 1)) (decimal m)),
        (point_frac (skipn (Z.to_nat (x + 1)) (decimal m))), [].
      split; [rewrite app_nil_r; reflexivity|].
      split; [apply forallb_firstn; assumption|].
      split; [apply firstn_nonempty; [lia | assumption]|].
      split; [apply point_frac_part, forallb_skipn; assumption|].
      left. reflexivity.
    + exists [chr 48],
        (point_frac (repeat (chr 48) (Z.to_nat (- x - 1)) ++ decimal m)), [].
      split; [rewrite app_nil_r; reflexivity|].
      split; [reflexivity|]. split; [discriminate|].
      split; [|left; reflexivity].
      apply point_frac_part. rewrite forallb_app, Hds, andb_true_r.
      induction (Z.to_nat (- x - 1)); simpl; auto.
Qed.

(** [float] reads back what the format "g" wrote, and what it reads for a
    number is a number. *)
Lemma py_float_format_g (x : float) :
  exists y, py_float (format_g x) = Some y
            /\ (isnan x = false -> isnan y = false).
Proof.
  destruct x as [[]|[]| |s m e].
  1-5: eexists; (split; [vm_compute; reflexivity|]);
       intros H; try reflexivity; discriminate.
  pose proof (format_g_solid (S754_finite s m e)) as Hsolid.
  apply solid_trimmed, strip_trimmed in Hsolid.
  unfold format_g in *.
  assert (Hshape : exists body ip pf ex,
            (if s then [chr 45] else []) ++ body
            = format_g (S754_finite s m e)
            /\ body = ip ++ pf ++ ex
            /\ forallb is_digit ip = true /\ ip <> []
            /\ fraction_part pf /\ exponent_part ex).
  { unfold format_g. destruct (Z.leb_spec 0 e).
    - destruct (format_g_pos_numeral (Zpos m * 2 ^ e) 1) as [ip [pf [ex H1]]].
      + apply Z.mul_pos_pos; [lia|]. apply Z.pow_pos_nonneg; lia.
      + lia.
      + exists (format_g_pos (Zpos m * 2 ^ e) 1), ip, pf, ex.
        split; [reflexivity | exact H1].
    - destruct (format_g_pos_numeral (Zpos m) (2 ^ (- e))) as [ip [pf [ex H1]]].
      + lia.
      + apply Z.pow_pos_nonneg; lia.
      + exists (format_g_pos (Zpos m) (2 ^ (- e))), ip, pf, ex.
        split; [reflexivity | exact H1]. }
  destruct Hshape as [body [ip [pf [ex [Hb [Heq [Hip [Hne [Hpf Hex]]]]]]]]].
  unfold format_g in Hb. rewrite <- Hb in *. subst body.
  destruct (py_float_numeral s ip pf ex Hip Hne Hpf Hex Hsolid)
    as [m' [e' Hy]].
  exists (float_of_decimal s m' e'). split; [exact Hy|].
  intros _. apply float_of_decimal_number.
Qed.

Lemma astype_float_rendered (df : frame) (l : table_layout) :
  exists accs,
    astype_float (map g5 (map (rendered_fields l) df)) = Ok accs
    /\ (Forall (fun r => isnan (Accuracy r) = false) df ->
        Forall (fun a => isnan a = false) accs).
Proof.
  induction df as [|r t [accs [IH Hn]]]; simpl.
  - exists []. split; [reflexivity | constructor].
  - destruct (py_float_format_g (Accuracy r)) as [y [Hy Hny]].
    rewrite Hy, IH. simpl. exists (y :: accs). split; [reflexivity|].
    intros H. inversion H; subst. constructor; auto.
Qed.

Lemma build_frame_accuracy (cells : list groups) :
  forall ranks accs,
    length ranks = length cells -> length accs = length cells ->
    map Accuracy (build_frame cells ranks accs) = accs.
Proof.
  induction cells as [|g t IH]; intros [|r rs] [|a accs] Hr Ha;
    simpl in *; try discriminate; try reflexivity.
  f_equal. apply IH; lia.
Qed.

(** The rendered table converts when it is read back: the ranks are the
    ranks written, and no accuracy that was a number is read as NaN. *)
Lemma read_table_rendered (df : frame) :
  forallb plain_row df = true ->
  Forall (fun r => int64_min <= Rank r <= int64_max) df ->
  exists df',
    read_table (start_marker ++ to_markdown df) = Ok df'
    /\ length df' = length df
    /\ (Forall (fun r => isnan (Accuracy r) = false) df ->
        Forall (fun r => isnan (Accuracy r) = false) df').
Proof.
  intros Hplain Hranks. unfold read_table.
  destruct (findall_rendered df Hplain) as [Hrows _].
  rewrite Hrows.
  rewrite (astype_int_ranks df (layout_of df) Hranks).
  destruct (astype_float_rendered df (layout_of df)) as [accs [Ha Hn]].
  rewrite Ha. cbv beta iota delta [bind].
  pose proof (astype_float_length _ _ Ha) as Hlen.
  rewrite !length_map in Hlen.
  eexists. split; [reflexivity|]. split.
  - rewrite <- (length_map Accuracy), build_frame_accuracy;
      rewrite ?length_map; auto.
  - intros H. apply Hn in H.
    rewrite <- (build_frame_accuracy (map (rendered_fields (layout_of df)) df)
                  (map Rank df) accs) in H by (rewrite ?length_map; auto).
    rewrite Forall_map in H. exact H.
Qed.

(** ** The new entry *)

Lemma app_same_length {A} (a a' r r' : list A) :
  length a = length a' -> a ++ r = a' ++ r' -> a = a'.
Proof.
  intros Hl H. apply (f_equal (firstn (length a))) in H.
  rewrite firstn_app, firstn_all, Nat.sub_diag in H.
  rewrite Hl, firstn_app, firstn_all, Nat.sub_diag in H.
  simpl in H. rewrite !app_nil_r in H. exact H.
Qed.

(** X16.  The user cell of the new entry determines the user: submissions
    of two users never have the same user cell, so the new entry of one
    user never stands for, or replaces, the new entry of another. *)
Theorem user_cell_determines_user (df df' : frame) (prompt prompt' : str)
    (accuracy accuracy' : float) (user user' : str) :
  GitHub_Username (new_entry df prompt accuracy user)
  = GitHub_Username (new_entry df' prompt' accuracy' user') ->
  user = user'.
Proof.
  unfold new_entry. simpl. intros H. inversion H as [H1]. clear H.
  assert (Hl : length user = length user').
  { apply (f_equal (@length ascii)) in H1.
    repeat (rewrite !length_app in H1; simpl in H1). lia. }
  exact (app_same_length _ _ _ _ Hl H1).
Qed.

Lemma user_cell_determines_user_witness :
  GitHub_Username (new_entry df_two (s2l "p") f80 (s2l "carol"))
  = GitHub_Username (new_entry df_tie (s2l "q") f90 (s2l "carol"))
  /\ s2l "carol" = s2l "carol".
Proof.
  split; [reflexivity|].
  apply (user_cell_determines_user df_two df_tie (s2l "p") (s2l "q") f80 f90
           (s2l "carol") (s2l "carol")).
  reflexivity.
Defined.

(** The cells of the new entry are plain when the names are. *)
Lemma new_entry_plain (df : frame) (prompt : str) (accuracy : float)
    (user : str) :
  plain user = true -> plain prompt = true ->
  plain_row (new_entry df prompt accuracy user) = true.
Proof.
  intros Hu Hp. unfold plain_row, new_entry.
  cbn [Profile_Image GitHub_Username Solution].
  rewrite !plain_app, Hu, Hp. reflexivity.
Qed.

Lemma same_cells_plain (r r' : row) :
  same_cells r r' -> plain_row r' = true -> plain_row r = true.
Proof.
  intros [Hi [Hk [Hs _]]]. unfold plain_row. rewrite Hi, Hk, Hs. auto.
Qed.

(** The text cells of the merged table are cells of the frame. *)
Lemma merge_plain argsort (df recs : frame) :
  sorts argsort -> merge argsort df = Ok recs ->
  forallb plain_row df = true -> forallb plain_row recs = true.
Proof.
  intros Hs H Hdf. apply forallb_forall. intros rec Hrec.
  destruct (merge_rows _ _ _ Hs H rec Hrec) as [i [r [[Hr _] Hc]]].
  apply (same_cells_plain _ _ Hc).
  rewrite forallb_forall in Hdf. apply Hdf.
  eapply nth_error_In. eassumption.
Qed.

(** ** The rendered table holds no carriage return *)

Lemma forallb_join (f : ascii -> bool) (sep : str) (ls : list str) :
  forallb f sep = true -> Forall (fun l => forallb f l = true) ls ->
  forallb f (join sep ls) = true.
Proof.
  intros Hsep. induction 1 as [|l t Hl Ht IH]; [reflexivity|].
  destruct t as [|l' t']; [exact Hl|].
  change (join sep (l :: l' :: t')) with (l ++ sep ++ join sep (l' :: t')).
  rewrite !forallb_app, Hl, Hsep, IH. reflexivity.
Qed.

Lemma on_line_no_cr (l : str) : forallb on_line l = true -> no_cr l = true.
Proof.
  unfold no_cr. rewrite !forallb_forall. intros H c Hc.
  specialize (H c Hc). destruct (Ascii.eqb_spec c cr) as [->|_];
    [vm_compute in H; discriminate | reflexivity].
Qed.

Lemma row_line_on_line (l : str) : row_line l -> forallb on_line l = true.
Proof.
  intros [g [[[P1 [P2 [P3 [P4 P5]]]] _] ->]]. unfold fields_line.
  apply five_fields_on_line; assumption.
Qed.

(** The rendered table of plain rows holds no carriage return. *)
Lemma to_markdown_no_cr (df : frame) :
  forallb plain_row df = true -> no_cr (to_markdown df) = true.
Proof.
  intros H. unfold to_markdown, no_cr. apply forallb_join; [reflexivity|].
  constructor; [apply on_line_no_cr, row_line_on_line, row_line_header|].
  constructor; [apply on_line_no_cr, row_line_on_line, row_line_rule|].
  apply Forall_map, Forall_forall. intros r Hin.
  apply on_line_no_cr, row_line_on_line, row_line_data.
  rewrite forallb_forall in H. auto.
Qed.

(** ** Running the update again *)

(** The text a successful update puts together, when the text read has both
    markers in order: the markers are found around the table, and the region
    is the begin marker and the table. *)
Lemma spliced_region (content : str) (recs : frame) :
  0 <= find content start_marker ->
  find content start_marker + len start_marker <= find content end_marker ->
  forallb plain_row recs = true ->
  let w := slice_to content (find content start_marker + len start_marker)
             ++ to_markdown recs
             ++ slice_from content (find content end_marker) in
  find w start_marker = find content start_marker
  /\ find w end_marker
     = find content start_marker + len start_marker + len (to_markdown recs)
  /\ table_region w = start_marker ++ to_markdown recs
  /\ (no_cr content = true -> no_cr w = true).
Proof.
  intros Hs Hse Hplain w.
  assert (He : 0 <= find content end_marker)
    by (unfold len in Hse; lia).
  assert (Hcr : no_cr content = true -> no_cr w = true).
  { intros Hc. unfold w, no_cr, slice_to, slice_from.
    rewrite !forallb_app.
    rewrite forallb_firstn, forallb_skipn by exact Hc.
    fold (no_cr (to_markdown recs)).
    rewrite to_markdown_no_cr by assumption. reflexivity. }
  assert (Hfile : w
                  = slice_to content (find content start_marker
                                      + len start_marker)
                      ++ to_markdown recs
                      ++ slice_from content (find content end_marker))
    by reflexivity.
  clearbody w.
  rewrite slice_to_marker, slice_from_marker in Hfile by assumption.
  destruct (find_found _ _ Hs) as [ks [Hks [Hcs Hls]]].
  destruct (find_found _ _ He) as [ke [Hke [Hce Hle]]].
  rewrite Hks, Hke, !Nat2Z.id in Hfile.
  assert (Hpre : length (firstn ks content) = ks)
    by (rewrite length_firstn; lia).
  set (pre := firstn ks content) in *.
  set (rest := skipn (ks + length start_marker) content) in *.
  set (post := skipn (ke + length end_marker) content) in *.
  set (t := to_markdown recs) in *.
  clearbody pre rest post.
  rewrite <- app_assoc in Hfile. rewrite Hfile.
  pose proof (table_text_to_markdown recs Hplain) as Ht. fold t in Ht.
  assert (Hfs : find (pre ++ start_marker ++ t ++ end_marker ++ post)
                     start_marker = len pre).
  { apply (find_start_written pre rest). rewrite <- Hcs.
    unfold len. rewrite Hpre. exact Hks. }
  assert (Hfe : find (pre ++ start_marker ++ t ++ end_marker ++ post)
                     end_marker
                = Z.of_nat (length pre + length start_marker + length t)).
  { apply (find_end_written pre rest t post ke).
    - rewrite <- Hcs. exact Hke.
    - unfold len in Hse. lia.
    - exact Ht. }
  assert (Hregion : table_region
                      (pre ++ start_marker ++ t ++ end_marker ++ post)
                    = start_marker ++ t).
  { unfold table_region, slice. rewrite Hfs, Hfe.
    rewrite !clamp_inside by (unfold len; rewrite !length_app; lia).
    unfold len. rewrite Nat2Z.id.
    rewrite skipn_app, skipn_all, Nat.sub_diag.
    change (skipn 0 (start_marker ++ t ++ end_marker ++ post))
      with (start_marker ++ t ++ end_marker ++ post).
    change ([] ++ start_marker ++ t ++ end_marker ++ post)
      with (start_marker ++ t ++ end_marker ++ post).
    replace (Z.to_nat (Z.of_nat (length pre + length start_marker + length t)
                       - Z.of_nat (length pre)))
      with (length (start_marker ++ t)) by (rewrite length_app; lia).
    rewrite (app_assoc start_marker t).
    rewrite firstn_app, firstn_all, Nat.sub_diag. simpl firstn.
    apply app_nil_r. }
  split; [rewrite Hfs, Hks; unfold len; lia|].
  split; [rewrite Hfe, Hks; unfold len; rewrite <- Hpre at 1; lia|].
  split; [exact Hregion|].
  rewrite <- Hfile. exact Hcr.
Qed.

(** What a successful update writes, and how the next run reads it. *)
Lemma written_region argsort (file content prompt : str) (accuracy : float)
    (user : str) (recs : frame) :
  universal_newlines file = content ->
  0 <= find content start_marker ->
  find content start_marker + len start_marker <= find content end_marker ->
  leaderboard_of argsort content prompt accuracy user = Ok recs ->
  forallb plain_row recs = true ->
  let file' := snd (generate_leaderboard argsort prompt accuracy user file) in
  universal_newlines file' = file'
  /\ find file' start_marker = find content start_marker
  /\ find file' end_marker
     = find content start_marker + len start_marker + len (to_markdown recs)
  /\ table_region file' = start_marker ++ to_markdown recs.
Proof.
  intros Hread Hs Hse H Hplain file'.
  assert (Hfile : file'
                  = slice_to content (find content start_marker
                                      + len start_marker)
                      ++ to_markdown recs
                      ++ slice_from content (find content end_marker)).
  { unfold file'. rewrite generate_leaderboard_run, Hread, H. reflexivity. }
  destruct (spliced_region content recs Hs Hse Hplain)
    as [Hfs [Hfe [Hregion Hcr]]].
  rewrite <- Hfile in Hfs, Hfe, Hregion, Hcr.
  split; [|auto].
  apply universal_newlines_id, Hcr.
  rewrite <- Hread. apply universal_newlines_no_cr.
Qed.

(** X14.  Take a document in whose text, as read, the begin marker ends at
    or before the first end marker, and an update that succeeds with a
    table of plain cells.  Then the document written is read by the next run
    as it is stored, and has its markers where the next run looks for them:
    the begin marker at its position in the text read, the first end marker
    right behind the table; the region of the next run is the begin marker
    and the table, and the rows it extracts are the rows written. *)
Theorem next_run_reads_the_table_written argsort (file content prompt : str)
    (accuracy : float) (user : str) (recs : frame) :
  universal_newlines file = content ->
  0 <= find content start_marker ->
  find content start_marker + len start_marker <= find content end_marker ->
  leaderboard_of argsort content prompt accuracy user = Ok recs ->
  forallb plain_row recs = true ->
  let file' := snd (generate_leaderboard argsort prompt accuracy user file) in
  universal_newlines file' = file'
  /\ find file' start_marker = find content start_marker
  /\ find file' end_marker
     = find content start_marker + len start_marker + len (to_markdown recs)
  /\ table_region file' = start_marker ++ to_markdown recs
  /\ map strip_cells (skipn 2 (findall (table_region file')))
     = map (rendered_fields (layout_of recs)) recs.
Proof.
  intros Hread Hs Hse H Hplain file'.
  destruct (written_region argsort file content prompt accuracy user recs
              Hread Hs Hse H Hplain) as [Hid [Hfs [Hfe Hregion]]].
  fold file' in Hid, Hfs, Hfe, Hregion.
  split; [exact Hid|].
  split; [exact Hfs|]. split; [exact Hfe|]. split; [exact Hregion|].
  rewrite Hregion. apply findall_rendered. assumption.
Qed.

Lemma next_run_reads_the_table_written_witness :
  universal_newlines doc_cr = doc_two
  /\ 0 <= find doc_two start_marker
  /\ find doc_two start_marker + len start_marker <= find doc_two end_marker
  /\ leaderboard_of insertion_argsort doc_two (s2l "p") f80 (s2l "carol")
     = Ok recs_carol
  /\ forallb plain_row recs_carol = true
  /\ snd (generate_leaderboard insertion_argsort (s2l "p") f80 (s2l "carol")
                               doc_cr) = file_carol
  /\ universal_newlines file_carol = file_carol
  /\ find file_carol start_marker = find doc_two start_marker
  /\ find file_carol end_marker
     = find doc_two start_marker + len start_marker
       + len (to_markdown recs_carol)
  /\ table_region file_carol = start_marker ++ to_markdown recs_carol
  /\ map strip_cells (skipn 2 (findall (table_region file_carol)))
     = map (rendered_fields (layout_of recs_carol)) recs_carol.
Proof.
  split; [vm_compute; reflexivity|].
  split; [vm_compute; discriminate|].
  split; [vm_compute; discriminate|].
  split; [vm_compute; reflexivity|].
  split; [vm_compute; reflexivity|].
  assert (Hfile : snd (generate_leaderboard insertion_argsort (s2l "p") f80
                         (s2l "carol") doc_cr) = file_carol)
    by (vm_compute; reflexivity).
  split; [exact Hfile|].
  rewrite <- Hfile.
  apply (next_run_reads_the_table_written insertion_argsort doc_cr doc_two
           (s2l "p") f80 (s2l "carol") recs_carol).
  - vm_compute; reflexivity.
  - vm_compute; discriminate.
  - vm_compute; discriminate.
  - vm_compute; reflexivity.
  - vm_compute; reflexivity.
Defined.

Lemma merge_ranks_bound argsort (df recs : frame) :
  merge argsort df = Ok recs ->
  Forall (fun r => 1 <= Rank r <= Z.of_nat (length recs)) recs.
Proof.
  intros H. apply merge_inv in H. destruct H as [h [_ ->]].
  apply Forall_forall. intros r Hr.
  apply In_nth_error in Hr. destruct Hr as [k Hk].
  assert (Hlt : (k < length (rank_from 0 (sort_values argsort h)))%nat)
    by (apply nth_error_Some; congruence).
  rewrite (rank_from_nth _ _ _ _ Hk). lia.
Qed.

(** X15.  The update can be applied to its own output.  Take a document in
    whose text, as read, both markers stand in order and the rows have plain
    text cells, and a submission with plain names on which the update
    succeeds.  Then the document written is read by the next run as it is
    stored, its rows convert, as many as were written, and a further update
    succeeds for every submission whose accuracy is a number. *)
Theorem update_can_be_repeated argsort argsort' (file content prompt : str)
    (accuracy : float) (user : str) (df recs : frame) (prompt' : str)
    (accuracy' : float) (user' : str) :
  universal_newlines file = content ->
  sorts argsort ->
  0 <= find content start_marker ->
  find content start_marker + len start_marker <= find content end_marker ->
  read_table (table_region content) = Ok df ->
  forallb plain_row df = true ->
  plain user = true -> plain prompt = true ->
  Z.of_nat (length df) < int64_max ->
  leaderboard_of argsort content prompt accuracy user = Ok recs ->
  isnan accuracy' = false ->
  let file' := snd (generate_leaderboard argsort prompt accuracy user file) in
  exists df' recs',
    universal_newlines file' = file'
    /\ read_table (table_region file') = Ok df'
    /\ length df' = length recs
    /\ leaderboard_of argsort' file' prompt' accuracy' user' = Ok recs'.
Proof.
  intros Hread Hsorts Hs Hse Hdf Hpdf Hpu Hpp Hlen H Ha file'.
  pose proof (leaderboard_of_inv _ _ _ _ _ _ _ Hdf H) as Hm.
  assert (Hplain : forallb plain_row recs = true).
  { apply (merge_plain _ _ _ Hsorts Hm).
    rewrite forallb_app, Hpdf. simpl.
    rewrite new_entry_plain by assumption. reflexivity. }
  assert (Hrows : (length recs <= S (length df))%nat).
  { pose proof (merge_users _ Hsorts _ _ Hm) as Hu.
    apply Permutation_length in Hu. rewrite length_map in Hu.
    pose proof (group_keys_length
                  (df ++ [new_entry df prompt accuracy user])) as Hk.
    rewrite length_app in Hk. simpl in Hk. lia. }
  destruct (written_region argsort file content prompt accuracy user recs
              Hread Hs Hse H Hplain) as [Hid [_ [_ Hregion]]].
  fold file' in Hid, Hregion.
  pose proof (merge_no_nan _ _ _ Hsorts Hm) as Hnan.
  pose proof (merge_ranks_bound _ _ _ Hm) as Hranks.
  destruct (read_table_rendered recs Hplain) as [df' [Hdf' [Hl Hn]]].
  { eapply Forall_impl; [|exact Hranks]. simpl. intros r Hr.
    unfold int64_min. lia. }
  rewrite <- Hregion in Hdf'.
  destruct (leaderboard_of_total argsort' file' prompt' accuracy' user' df'
              Hdf' Ha (Hn Hnan)) as [recs' Hrecs'].
  exists df', recs'. auto.
Qed.

Lemma update_can_be_repeated_witness :
  universal_newlines doc_two = doc_two
  /\ sorts insertion_argsort
  /\ 0 <= find doc_two start_marker
  /\ find doc_two start_marker + len start_marker <= find doc_two end_marker
  /\ read_table (table_region doc_two) = Ok df_two
  /\ forallb plain_row df_two = true
  /\ plain (s2l "carol") = true /\ plain (s2l "p") = true
  /\ Z.of_nat (length df_two) < int64_max
  /\ leaderboard_of insertion_argsort doc_two (s2l "p") f80 (s2l "carol")
     = Ok recs_carol
  /\ isnan f90 = false
  /\ exists df' recs',
       universal_newlines file_carol = file_carol
       /\ read_table (table_region file_carol) = Ok df'
       /\ length df' = length recs_carol
       /\ leaderboard_of insertion_argsort file_carol (s2l "q") f90
                         (s2l "bob")
          = Ok recs'.
Proof.
  split; [vm_compute; reflexivity|].
  split; [exact insertion_argsort_sorts|].
  split; [vm_compute; discriminate|].
  split; [vm_compute; discriminate|].
  split; [vm_compute; reflexivity|].
  split; [vm_compute; reflexivity|].
  split; [vm_compute; reflexivity|].
  split; [vm_compute; reflexivity|].
  split; [vm_compute; reflexivity|].
  split; [vm_compute; reflexivity|].
  split; [reflexivity|].
  apply (update_can_be_repeated insertion_argsort insertion_argsort doc_two
           doc_two (s2l "p") f80 (s2l "carol") df_two recs_carol (s2l "q")
           f90 (s2l "bob")).
  - vm_compute; reflexivity.
  - exact insertion_argsort_sorts.
  - vm_compute; discriminate.
  - vm_compute; discriminate.
  - vm_compute; reflexivity.
  - vm_compute; reflexivity.
  - vm_compute; reflexivity.
  - vm_compute; reflexivity.
  - vm_compute; reflexivity.
  - vm_compute; reflexivity.
  - reflexivity.
Defined.
